(** * asm2wasm: a shallow embedding of the lifter, the lowerer and the driver

    The development follows the C++ sources of the repository:
    - [assembly_parser.h] / [assembly_parser.cpp]: the parsed instruction
      stream ([Operand], [Instruction]) and the line parser;
    - [assembly_lifter_core.cpp], [assembly_lifter_control_flow.cpp],
      [assembly_lifter_instructions.cpp], [assembly_lifter_memory.cpp]:
      the lifter, which drives an LLVM [IRBuilder];
    - [wasm_generator.cpp]: the lowerer;
    - [main.cpp]: the command line driver.

    LLVM objects are pointers in the source.  Here an instruction, a basic
    block and a function are identified by a number handed out when the
    object is created; a function owns the ordered list of its blocks and a
    block the ordered list of its instructions. *)

From Stdlib Require Import ZArith String Ascii List Bool Lia DecimalString DecimalNat.
From stdpp Require Import base option list strings gmap.

Local Open Scope string_scope.
Local Open Scope list_scope.
Local Open Scope Z_scope.

(** ** C++ standard library helpers on [std::string] *)

Module Cpp.

(** What ends a computation other than by returning: an exception thrown
    by the standard library and caught nowhere in the program, or the
    dereference of a null pointer. *)
Inductive Abort :=
| StdInvalidArgument
| StdOutOfRange
| NullDereference.

Definition eqb_ascii (a b : ascii) : bool := Ascii.eqb a b.

(** [s.find(c)]: position of the first occurrence, [None] for [npos]. *)
Fixpoint find (c : ascii) (s : string) : option nat :=
  match s with
  | EmptyString => None
  | String a s' =>
      if eqb_ascii a c then Some 0%nat
      else match find c s' with Some n => Some (S n) | None => None end
  end.

(** [s.find_last_of(c)]. *)
Fixpoint find_last_of (c : ascii) (s : string) : option nat :=
  match s with
  | EmptyString => None
  | String a s' =>
      match find_last_of c s' with
      | Some n => Some (S n)
      | None => if eqb_ascii a c then Some 0%nat else None
      end
  end.

(** [s.substr(pos, count)]: throws [std::out_of_range] when
    [pos > s.size()], otherwise clamps [count] to the rest. *)
Definition substr (s : string) (pos count : nat) : Abort + string :=
  if (String.length s <? pos)%nat then inl StdOutOfRange
  else inr (String.substring pos count s).

(** [s.substr(pos)]. *)
Definition substr_from (s : string) (pos : nat) : Abort + string :=
  substr s pos (String.length s).

(** [s[0]]; reading at [size()] yields the null character. *)
Definition front (s : string) : ascii :=
  match s with
  | EmptyString => Ascii.zero
  | String a _ => a
  end.

Fixpoint back (s : string) : option ascii :=
  match s with
  | EmptyString => None
  | String a EmptyString => Some a
  | String _ s' => back s'
  end.

Definition isdigit (c : ascii) : bool :=
  let n := nat_of_ascii c in ((48 <=? n) && (n <=? 57))%nat.

Definition isspace (c : ascii) : bool :=
  let n := nat_of_ascii c in ((n =? 32) || ((9 <=? n) && (n <=? 13)))%nat.

Fixpoint all_of (p : ascii -> bool) (s : string) : bool :=
  match s with
  | EmptyString => true
  | String a s' => p a && all_of p s'
  end.

Fixpoint skip_spaces (s : string) : string :=
  match s with
  | String a s' => if isspace a then skip_spaces s' else s
  | EmptyString => s
  end.

(** Longest prefix of decimal digits, accumulated left to right. *)
Fixpoint digits (acc : Z) (seen : bool) (s : string) : Z * bool :=
  match s with
  | String a s' =>
      if isdigit a
      then digits (10 * acc + (Z.of_nat (nat_of_ascii a) - 48)) true s'
      else (acc, seen)
  | EmptyString => (acc, seen)
  end.

Definition INT_MIN : Z := - 2147483648.
Definition INT_MAX : Z := 2147483647.

(** [std::stoi(s)]: leading white space, an optional sign, then decimal
    digits; what follows the digits is ignored.  No digit at all throws
    [std::invalid_argument], a value outside [int] throws
    [std::out_of_range]. *)
Definition stoi (s : string) : Abort + Z :=
  let s1 := skip_spaces s in
  let '(neg, s2) :=
    match s1 with
    | String a s' =>
        if eqb_ascii a "-" then (true, s')
        else if eqb_ascii a "+" then (false, s')
        else (false, s1)
    | EmptyString => (false, s1)
    end in
  let '(n, seen) := digits 0 false s2 in
  if negb seen then inl StdInvalidArgument
  else
    let v := if neg then - n else n in
    if (v <? INT_MIN) || (INT_MAX <? v) then inl StdOutOfRange else inr v.

(** [std::to_string] of an unsigned number. *)
Definition to_string (n : nat) : string :=
  NilEmpty.string_of_uint (Nat.to_uint n).

(** [::toupper] applied to every character. *)
Definition toupper (c : ascii) : ascii :=
  let n := nat_of_ascii c in
  if ((97 <=? n) && (n <=? 122))%nat then ascii_of_nat (n - 32) else c.

Fixpoint map_string (f : ascii -> ascii) (s : string) : string :=
  match s with
  | EmptyString => EmptyString
  | String a s' => String (f a) (map_string f s')
  end.

End Cpp.

Example stoi_plain : Cpp.stoi "42" = inr 42. Proof. reflexivity. Qed.
Example stoi_signed : Cpp.stoi "-8" = inr (-8). Proof. reflexivity. Qed.
Example stoi_prefix : Cpp.stoi " 12abc" = inr 12. Proof. reflexivity. Qed.
Example stoi_word : Cpp.stoi "foo" = inl Cpp.StdInvalidArgument. Proof. reflexivity. Qed.
Example stoi_empty : Cpp.stoi "" = inl Cpp.StdInvalidArgument. Proof. reflexivity. Qed.
Example stoi_huge : Cpp.stoi "99999999999" = inl Cpp.StdOutOfRange. Proof. reflexivity. Qed.
Example to_string_12 : Cpp.to_string 12 = "12". Proof. reflexivity. Qed.

(** ** The parsed instruction stream ([assembly_parser.h]) *)

Module InstructionType.
Inductive t :=
| ADD | SUB | MUL | DIV | MOV | CMP
| JMP | JE | JNE | JL | JG | JLE | JGE
| CALL | RET | PUSH | POP | LABEL | UNKNOWN.

#[global] Instance eq_dec : EqDecision t.
Proof. solve_decision. Defined.
End InstructionType.

Module OperandType.
Inductive t := REGISTER | IMMEDIATE | MEMORY | LABEL.

#[global] Instance eq_dec : EqDecision t.
Proof. solve_decision. Defined.
End OperandType.

Record Operand := mkOperand {
  op_type : OperandType.t;
  op_value : string
}.

Record Instruction := mkInstruction {
  inst_type : InstructionType.t;
  operands : list Operand;
  label : string
}.

#[global] Instance Operand_inhabited : Inhabited Operand :=
  populate (mkOperand OperandType.LABEL "").

(** ** The mid-level IR: the part of LLVM IR the program builds and reads *)

Module IR.

(** Identity of an instruction, of a block, of a function (its index in
    the module's function list). *)
Abbreviation InstId := nat (only parsing).
Abbreviation BlockId := nat (only parsing).
Abbreviation FuncId := nat (only parsing).

(** [llvm::Value*] as the program meets it: a constant (an [i32], an
    [i1], the constant expression [inttoptr (i32 n)], poison), the result
    of an instruction, or a basic block.  An [i32] constant is kept as its
    signed value. *)
Inductive Value :=
| ConstantInt (n : Z)
| ConstantBit (b : bool)
| ConstantIntToPtr (n : Z)
| PoisonValue
| InstValue (id : InstId)
| BlockValue (b : BlockId).

#[global] Instance Value_eq_dec : EqDecision Value.
Proof. solve_decision. Defined.

Inductive BinOp := Add | Sub | Mul | SDiv | UDiv | OtherBinOp (opcodeName : string).

Inductive Predicate :=
| ICMP_EQ | ICMP_NE
| ICMP_SLT | ICMP_ULT | ICMP_SGT | ICMP_UGT
| ICMP_SLE | ICMP_ULE | ICMP_SGE | ICMP_UGE
| FCMP_OTHER.

Inductive Opcode :=
| Alloca
| Load (ptr : Value)
| Store (val ptr : Value)
| BinaryOperator (op : BinOp) (lhs rhs : Value)
| ICmp (p : Predicate) (lhs rhs : Value)
| ZExt (v : Value)
| IntToPtr (v : Value)
| PtrToInt (v : Value)
| BitCast (v : Value)
| PHI
| Call (callee : FuncId) (args : list Value)
| Ret (v : option Value)
| Br (target : BlockId)
| CondBr (cond : Value) (ifTrue ifFalse : BlockId)
| Unreachable.

#[global] Instance BinOp_eq_dec : EqDecision BinOp.
Proof. solve_decision. Defined.
#[global] Instance Predicate_eq_dec : EqDecision Predicate.
Proof. solve_decision. Defined.
#[global] Instance Opcode_eq_dec : EqDecision Opcode.
Proof. solve_decision. Defined.

(** An instruction: its identity, the name the builder was given for it
    (the name it bears, which is unique in its function, is the key under
    which the function's symbol table holds it) and its operation. *)
Record Inst := mkInst {
  i_id : InstId;
  i_name : string;
  i_op : Opcode
}.

#[global] Instance Inst_eq_dec : EqDecision Inst.
Proof. solve_decision. Defined.

Record BasicBlock := mkBlock {
  bb_id : BlockId;
  bb_name : string;
  bb_insts : list Inst
}.

Record Function := mkFunction {
  fn_name : string;
  fn_blocks : list BasicBlock
}.

(** The symbol table of a function ([llvm::ValueSymbolTable]): the names
    borne by the blocks and the instructions of the function, each with the
    value that bears it, and the counter that makes a name unique (an
    unsigned 32-bit number in LLVM, a natural number here).  LLVM is a
    library of the program, not one of its sources: the table follows what
    [Value::setName] does for a value of a function. *)
Record ValueSymbolTable := mkSymbolTable {
  vmap : gmap string Value;
  LastUnique : nat
}.

Definition emptySymbolTable : ValueSymbolTable := mkSymbolTable ∅ 0%nat.

(** The longest name asked for that a value of a function gets as it is
    (the default of LLVM's option [non-global-value-max-name-size]); a
    longer name is cut to this length before it is looked up.  What
    [makeUniqueName] appends comes on top. *)
Definition MaxNameSize : nat := 1024.

(** [ValueSymbolTable::makeUniqueName]: the base name followed by the next
    number of the counter, again and again until the name is free.  The
    loop ends: of as many candidates as the table has names, plus one, one
    is free; [fuel] is that bound. *)
Fixpoint makeUniqueName (fuel : nat) (V : Value) (BaseName : string)
         (t : ValueSymbolTable) : string * ValueSymbolTable :=
  let n := S (LastUnique t) in
  let UniqueName := BaseName +:+ Cpp.to_string n in
  match vmap t !! UniqueName, fuel with
  | Some _, S fuel' => makeUniqueName fuel' V BaseName (mkSymbolTable (vmap t) n)
  | _, _ => (UniqueName, mkSymbolTable (<[UniqueName := V]> (vmap t)) n)
  end.

(** [ValueSymbolTable::createValueName]: the name asked for when it is
    free, a unique name made from it otherwise. *)
Definition createValueName (Name : string) (V : Value) (t : ValueSymbolTable)
  : string * ValueSymbolTable :=
  let Name := if (MaxNameSize <? String.length Name)%nat
              then String.substring 0 MaxNameSize Name else Name in
  match vmap t !! Name with
  | None => (Name, mkSymbolTable (<[Name := V]> (vmap t)) (LastUnique t))
  | Some _ => makeUniqueName (size (vmap t)) V Name t
  end.

(** The module together with the context that hands out identities, and
    the symbol table of each function. *)
Record Module := mkModule {
  functions : list Function;
  nextInst : InstId;
  nextBlock : BlockId;
  symbolTables : gmap nat ValueSymbolTable
}.

(** [func->getValueSymbolTable()]. *)
Definition getValueSymbolTable (m : Module) (func : FuncId) : ValueSymbolTable :=
  default emptySymbolTable (symbolTables m !! func).

(** [Value::setName] on a value that has no name yet and lives in
    [func]: the name the value gets and the symbol tables afterwards.  An
    empty name leaves the value unnamed and the table as it is. *)
Definition setName (func : FuncId) (name : string) (V : Value) (m : Module)
  : string * gmap nat ValueSymbolTable :=
  if String.eqb name "" then ("", symbolTables m)
  else
    let named := createValueName name V (getValueSymbolTable m func) in
    (fst named, <[func := snd named]> (symbolTables m)).

(** The types the program's IR has. *)
Inductive Ty := I1 | I32 | Ptr | Void | LabelTy.

#[global] Instance Ty_eq_dec : EqDecision Ty.
Proof. solve_decision. Defined.

(** [inst.getType()]. *)
Definition getType (o : Opcode) : Ty :=
  match o with
  | Alloca | IntToPtr _ => Ptr
  | Load _ | BinaryOperator _ _ _ | ZExt _ | PtrToInt _ | BitCast _ | PHI
  | Call _ _ => I32
  | ICmp _ _ _ => I1
  | Store _ _ | Ret _ | Br _ | CondBr _ _ _ | Unreachable => Void
  end.

Definition isTerminator (o : Opcode) : bool :=
  match o with
  | Ret _ | Br _ | CondBr _ _ _ | Unreachable => true
  | _ => false
  end.

Definition isAlloca (i : Inst) : bool :=
  match i_op i with Alloca => true | _ => false end.

(** [BasicBlock::getTerminator]: the last instruction when it is a
    terminator, null otherwise. *)
Definition getTerminator (b : BasicBlock) : option Inst :=
  match last (bb_insts b) with
  | Some i => if isTerminator (i_op i) then Some i else None
  | None => None
  end.

(** [Function::isDeclaration]: a function without a body. *)
Definition isDeclaration (f : Function) : bool :=
  match fn_blocks f with [] => true | _ => false end.

(** [Function::getEntryBlock] / [front]. *)
Definition getEntryBlock (f : Function) : option BasicBlock := head (fn_blocks f).

Definition findBlock (b : BlockId) (f : Function) : option BasicBlock :=
  List.find (fun blk => Nat.eqb (bb_id blk) b) (fn_blocks f).

Definition blockNames (f : Function) : list string := map bb_name (fn_blocks f).

Definition findFunction (name : string) (m : Module) : option Function :=
  List.find (fun f => String.eqb (fn_name f) name) (functions m).

(** The instruction that defines a value, searched in one function. *)
Definition definingInst (f : Function) (v : Value) : option Inst :=
  match v with
  | InstValue id =>
      List.find (fun i => Nat.eqb (i_id i) id) (concat (map bb_insts (fn_blocks f)))
  | _ => None
  end.

End IR.

(** ** 32-bit arithmetic and constant folding, as [IRBuilder] does it

    The default [IRBuilder<>] folds an operation whose operands are all
    constants and returns the constant instead of inserting an
    instruction. *)

Module Int32.

Definition modulus : Z := 2 ^ 32.
Definition half : Z := 2 ^ 31.

(** The signed value of the low 32 bits. *)
Definition wrap (z : Z) : Z := (z + half) mod modulus - half.

(** [getZExtValue] of an [i32] constant. *)
Definition unsigned (z : Z) : Z := z mod modulus.

Definition of_bool (b : bool) : Z := if b then 1 else 0.

(** [None] is poison: division by zero and the overflowing
    [INT_MIN / -1]. *)
Definition binop (op : IR.BinOp) (a b : Z) : option Z :=
  match op with
  | IR.Add => Some (wrap (a + b))
  | IR.Sub => Some (wrap (a - b))
  | IR.Mul => Some (wrap (a * b))
  | IR.SDiv =>
      if (b =? 0) || ((a =? - half) && (b =? -1)) then None
      else Some (wrap (Z.quot a b))
  | IR.UDiv =>
      if b =? 0 then None else Some (wrap (unsigned a / unsigned b))
  | IR.OtherBinOp _ => None
  end.

Definition icmp (p : IR.Predicate) (a b : Z) : option bool :=
  match p with
  | IR.ICMP_EQ => Some (a =? b)
  | IR.ICMP_NE => Some (negb (a =? b))
  | IR.ICMP_SLT => Some (a <? b)
  | IR.ICMP_SGT => Some (b <? a)
  | IR.ICMP_SLE => Some (a <=? b)
  | IR.ICMP_SGE => Some (b <=? a)
  | IR.ICMP_ULT => Some (unsigned a <? unsigned b)
  | IR.ICMP_UGT => Some (unsigned b <? unsigned a)
  | IR.ICMP_ULE => Some (unsigned a <=? unsigned b)
  | IR.ICMP_UGE => Some (unsigned b <=? unsigned a)
  | IR.FCMP_OTHER => None
  end.

End Int32.

(** ** Function verification *)

Module Verifier.
Import IR.

Definition typeOfValue (f : Function) (v : Value) : Ty :=
  match v with
  | ConstantInt _ | PoisonValue => I32
  | ConstantBit _ => I1
  | ConstantIntToPtr _ => Ptr
  | BlockValue _ => LabelTy
  | InstValue _ =>
      match definingInst f v with
      | Some i => getType (i_op i)
      | None => Void
      end
  end.

(** Invariant 1: the block ends with a terminator and holds no other. *)
Definition blockTerminated (b : BasicBlock) : bool :=
  match reverse (bb_insts b) with
  | [] => false
  | t :: body => isTerminator (i_op t) && forallb (fun i => negb (isTerminator (i_op i))) body
  end.

(** Invariant 2: allocas sit in the entry block only. *)
Definition allocasInEntry (f : Function) : bool :=
  match fn_blocks f with
  | [] => true
  | _ :: others => forallb (fun b => forallb (fun i => negb (isAlloca i)) (bb_insts b)) others
  end.

Definition hasBlock (f : Function) (b : BlockId) : bool :=
  existsb (fun blk => Nat.eqb (bb_id blk) b) (fn_blocks f).

(** Invariant 3: every block and function referred to exists. *)
Definition referencesDefined (m : Module) (f : Function) (i : Inst) : bool :=
  match i_op i with
  | Br t => hasBlock f t
  | CondBr _ t e => hasBlock f t && hasBlock f e
  | Call callee _ => (callee <? length (functions m))%nat
  | _ => true
  end.

(** Invariant 4: a return carries a value of the result type, [i32]. *)
Definition returnTyped (f : Function) (i : Inst) : bool :=
  match i_op i with
  | Ret (Some v) => bool_decide (typeOfValue f v = I32)
  | Ret None => false
  | _ => true
  end.

Definition wellFormed (m : Module) (f : Function) : bool :=
  forallb blockTerminated (fn_blocks f)
  && allocasInEntry f
  && forallb (fun b => forallb (fun i => referencesDefined m f i && returnTyped f i)
                               (bb_insts b)) (fn_blocks f).

(** Modelled from the spec: [llvm::verifyFunction] is LLVM library code
    and not part of the sources; it stands here for the four invariants
    of the mid-level IR the specification lists in its data model.  As in
    LLVM the result is [true] when the function is broken. *)
Definition verifyFunction (m : Module) (f : Function) : bool :=
  negb (wellFormed m f).

End Verifier.

(** ** The lifter ([AssemblyLifter]) *)

Module Lifter.
Import IR.

(** A [BasicBlock*]: the block and the function it belongs to, which
    [getParent] reads. *)
Record BlockRef := mkRef {
  parent : FuncId;
  block : BlockId
}.

#[global] Instance BlockRef_eq_dec : EqDecision BlockRef.
Proof. solve_decision. Defined.

(** The members of the class.  [builder_] is the block the builder
    inserts into (always at its end), null before the first
    [SetInsertPoint]. *)
Record AssemblyLifter := mkLifter {
  module_ : Module;
  builder_ : option BlockRef;
  registers_ : gmap string Value;
  blocks_ : gmap string BlockRef;
  functions_ : gmap string FuncId;
  errorMessage_ : string;
  fallthroughCounter_ : nat
}.

(** The constructor. *)
Definition init : AssemblyLifter :=
  mkLifter (mkModule [] 0%nat 0%nat ∅) None ∅ ∅ ∅ "" 0%nat.

Definition set_module (m : Module) (s : AssemblyLifter) : AssemblyLifter :=
  mkLifter m (builder_ s) (registers_ s) (blocks_ s) (functions_ s)
           (errorMessage_ s) (fallthroughCounter_ s).
Definition set_builder (b : option BlockRef) (s : AssemblyLifter) : AssemblyLifter :=
  mkLifter (module_ s) b (registers_ s) (blocks_ s) (functions_ s)
           (errorMessage_ s) (fallthroughCounter_ s).
Definition set_registers (r : gmap string Value) (s : AssemblyLifter) : AssemblyLifter :=
  mkLifter (module_ s) (builder_ s) r (blocks_ s) (functions_ s)
           (errorMessage_ s) (fallthroughCounter_ s).
Definition set_blocks (b : gmap string BlockRef) (s : AssemblyLifter) : AssemblyLifter :=
  mkLifter (module_ s) (builder_ s) (registers_ s) b (functions_ s)
           (errorMessage_ s) (fallthroughCounter_ s).
Definition set_functions (f : gmap string FuncId) (s : AssemblyLifter) : AssemblyLifter :=
  mkLifter (module_ s) (builder_ s) (registers_ s) (blocks_ s) f
           (errorMessage_ s) (fallthroughCounter_ s).
Definition set_errorMessage (e : string) (s : AssemblyLifter) : AssemblyLifter :=
  mkLifter (module_ s) (builder_ s) (registers_ s) (blocks_ s) (functions_ s)
           e (fallthroughCounter_ s).
Definition set_fallthroughCounter (n : nat) (s : AssemblyLifter) : AssemblyLifter :=
  mkLifter (module_ s) (builder_ s) (registers_ s) (blocks_ s) (functions_ s)
           (errorMessage_ s) n.

(** *** Computations of the lifter: state passing, with abnormal exits *)

Inductive Outcome (A : Type) :=
| Normal (a : A) (s : AssemblyLifter)
| Abnormal (e : Cpp.Abort).
Arguments Normal {A} a s.
Arguments Abnormal {A} e.

Definition M (A : Type) : Type := AssemblyLifter -> Outcome A.

Definition ret {A} (a : A) : M A := fun s => Normal a s.

Definition bind {A B} (c : M A) (k : A -> M B) : M B :=
  fun s => match c s with
           | Normal a s' => k a s'
           | Abnormal e => Abnormal e
           end.

Definition raise {A} (e : Cpp.Abort) : M A := fun _ => Abnormal e.

Definition get : M AssemblyLifter := fun s => Normal s s.
Definition modify (f : AssemblyLifter -> AssemblyLifter) : M unit :=
  fun s => Normal tt (f s).

(** A standard library call that may throw. *)
Definition try_std {A} (r : Cpp.Abort + A) : M A :=
  match r with
  | inl e => raise e
  | inr a => ret a
  end.

Declare Scope lift_scope.
Delimit Scope lift_scope with lift.
Notation "x <- c ;; k" := (bind c (fun x => k))
  (at level 100, c at next level, right associativity) : lift_scope.
Notation "c ;; k" := (bind c (fun _ => k))
  (at level 100, right associativity) : lift_scope.
Local Open Scope lift_scope.

(** *** LLVM object creation *)

Definition mapBlock (b : BlockId) (g : list Inst -> list Inst) (f : Function) : Function :=
  mkFunction (fn_name f)
    (map (fun blk => if Nat.eqb (bb_id blk) b
                     then mkBlock (bb_id blk) (bb_name blk) (g (bb_insts blk))
                     else blk) (fn_blocks f)).

(** Rewrite the instruction list of one block. *)
Definition onBlock (r : BlockRef) (g : list Inst -> list Inst) (m : Module) : Module :=
  mkModule (alter (mapBlock (block r) g) (parent r) (functions m))
           (nextInst m) (nextBlock m) (symbolTables m).

(** [Function::Create] in [module_]: a declaration appended to the
    module, with an empty symbol table.  The only caller is
    [getOrCreateFunction], which creates a function under a name
    [functions_] does not hold; [functions_] holds every function created
    and is never cleared, so the name is free in the module and is the one
    the function gets. *)
Definition createFunction (funcName : string) : M FuncId := fun s =>
  let m := module_ s in
  let f := length (functions m) in
  Normal f (set_module (mkModule (functions m ++ [mkFunction funcName []])
                                 (nextInst m) (nextBlock m)
                                 (<[f := emptySymbolTable]> (symbolTables m))) s).

(** [BasicBlock::Create] with name [name] in [func]: a new empty block
    appended to [func], named through the symbol table of [func]: it bears
    [name] when no value of the function does, a unique name made from
    [name] otherwise. *)
Definition createBlock (name : string) (func : FuncId) : M BlockRef := fun s =>
  let m := module_ s in
  let b := nextBlock m in
  let named := setName func name (BlockValue b) m in
  let add f := mkFunction (fn_name f) (fn_blocks f ++ [mkBlock b (fst named) []]) in
  Normal (mkRef func b)
         (set_module (mkModule (alter add func (functions m))
                               (nextInst m) (S b) (snd named)) s).

(** [builder_->SetInsertPoint(block)]. *)
Definition SetInsertPoint (r : BlockRef) : M unit := modify (set_builder (Some r)).

Definition GetInsertBlock : M (option BlockRef) := fun s => Normal (builder_ s) s.

(** The module with a value of [func] named: the symbol tables change,
    nothing else does. *)
Definition named (func : FuncId) (name : string) (V : Value) (m : Module) : Module :=
  mkModule (functions m) (nextInst m) (nextBlock m) (snd (setName func name V m)).

(** A new instruction handed to a builder: appended to the builder's
    block and then named in the function of the block, or left outside any
    block, and outside any symbol table, when the builder has no insertion
    point. *)
Definition insertAt (ip : option BlockRef) (front : bool)
           (name : string) (op : Opcode) : M Value := fun s =>
  let m := module_ s in
  let i := mkInst (nextInst m) name op in
  let m1 := mkModule (functions m) (S (nextInst m)) (nextBlock m) (symbolTables m) in
  let m2 := match ip with
            | Some r =>
                named (parent r) name (InstValue (i_id i))
                      (onBlock r (fun l => if front then i :: l else l ++ [i]) m1)
            | None => m1
            end in
  Normal (InstValue (i_id i)) (set_module m2 s).

(** An instruction created through [builder_]. *)
Definition emit (name : string) (op : Opcode) : M Value :=
  ip <- GetInsertBlock ;; insertAt ip false name op.

(** *** [IRBuilder] calls, with the builder's constant folding *)

(** [CreateAdd], [CreateSub], [CreateMul], [CreateSDiv]: two integer
    constants fold to a constant (to poison where the result is
    undefined). *)
Definition CreateBinOp (op : BinOp) (lhs rhs : Value) (name : string) : M Value :=
  match lhs, rhs with
  | ConstantInt a, ConstantInt b =>
      ret (match Int32.binop op a b with
           | Some z => ConstantInt z
           | None => PoisonValue
           end)
  | _, _ => emit name (BinaryOperator op lhs rhs)
  end.

(** [CreateICmpEQ] and the like. *)
Definition CreateICmp (p : Predicate) (lhs rhs : Value) (name : string) : M Value :=
  match lhs, rhs with
  | ConstantInt a, ConstantInt b =>
      ret (match Int32.icmp p a b with
           | Some r => ConstantBit r
           | None => PoisonValue
           end)
  | _, _ => emit name (ICmp p lhs rhs)
  end.

(** [CreateZExt(v, i32)]; the callers pass the [i1] result of
    [CreateICmp]. *)
Definition CreateZExt (v : Value) (name : string) : M Value :=
  match v with
  | ConstantBit b => ret (ConstantInt (Int32.of_bool b))
  | PoisonValue => ret PoisonValue
  | _ => emit name (ZExt v)
  end.

(** [CreateIntToPtr(v, ptr)]. *)
Definition CreateIntToPtr (v : Value) (name : string) : M Value :=
  match v with
  | ConstantInt n => ret (ConstantIntToPtr n)
  | PoisonValue => ret PoisonValue
  | _ => emit name (IntToPtr v)
  end.

Definition CreateLoad (ptr : Value) (name : string) : M Value := emit name (Load ptr).
Definition CreateStore (val ptr : Value) : M Value := emit "" (Store val ptr).
Definition CreateBr (target : BlockRef) : M Value := emit "" (Br (block target)).
Definition CreateCondBr (cond : Value) (ifTrue ifFalse : BlockRef) : M Value :=
  emit "" (CondBr cond (block ifTrue) (block ifFalse)).
Definition CreateRet (v : Value) : M Value := emit "" (Ret (Some v)).
Definition CreateCall (callee : FuncId) : M Value := emit "" (Call callee []).

Definition setError (msg : string) : M unit := modify (set_errorMessage msg).

(** [func->empty()], and [true] for a function the module does not hold. *)
Definition functionEmpty (f : FuncId) : M bool := fun s =>
  Normal (match functions (module_ s) !! f with
          | Some fn => isDeclaration fn
          | None => true
          end) s.

(** [&func->front()]. *)
Definition functionFront (f : FuncId) : M (option BlockRef) := fun s =>
  Normal (match functions (module_ s) !! f with
          | Some fn => match fn_blocks fn with
                       | b :: _ => Some (mkRef f (bb_id b))
                       | [] => None
                       end
          | None => None
          end) s.

(** *** [assembly_lifter_control_flow.cpp] *)

(** [getOrCreateFunction].  [Function::Create] never returns null, so the
    result is a function and the callers' null checks never fire. *)
Definition getOrCreateFunction (funcName : string) : M FuncId :=
  s <- get ;;
  match functions_ s !! funcName with
  | Some f => ret f
  | None =>
      func <- createFunction funcName ;;
      modify (fun s => set_functions (<[funcName := func]> (functions_ s)) s) ;;
      ret func
  end.

Definition getOrCreateBlock (labelName : string) : M BlockRef :=
  s <- get ;;
  match blocks_ s !! labelName with
  | Some b => ret b
  | None =>
      currentFunc <- match builder_ s with
                     | Some currentBlock => ret (parent currentBlock)
                     | None => getOrCreateFunction "main"
                     end ;;
      blk <- createBlock labelName currentFunc ;;
      modify (fun s => set_blocks (<[labelName := blk]> (blocks_ s)) s) ;;
      ret blk
  end.

(** *** [assembly_lifter_core.cpp] *)

Definition getOrCreateRegister (regName : string) : M Value :=
  s <- get ;;
  match registers_ s !! regName with
  | Some reg => ret reg
  | None =>
      let currentBlock := builder_ s in
      currentFunc <-
        match currentBlock with
        | Some cb => ret (parent cb)
        | None =>
            f <- getOrCreateFunction "main" ;;
            empty <- functionEmpty f ;;
            (if empty
             then entry <- createBlock "entry" f ;; SetInsertPoint entry
             else front <- functionFront f ;;
                  match front with
                  | Some b => SetInsertPoint b
                  | None => ret tt
                  end) ;;
            ret f
        end ;;
      empty <- functionEmpty currentFunc ;;
      if negb empty then
        entryBlock <- functionFront currentFunc ;;
        (* the alloca goes before the first instruction of the entry block *)
        reg <- insertAt entryBlock true regName Alloca ;;
        modify (fun s => set_registers (<[regName := reg]> (registers_ s)) s) ;;
        match currentBlock with
        | Some cb => SetInsertPoint cb
        | None => ret tt
        end ;;
        ret reg
      else
        reg <- emit regName Alloca ;;
        modify (fun s => set_registers (<[regName := reg]> (registers_ s)) s) ;;
        ret reg
  end.

Definition getFlagRegister (flagName : string) : M Value :=
  getOrCreateRegister ("FLAG_" +:+ flagName).

Definition setFlagRegister (flagName : string) (value : Value) : M unit :=
  flagReg <- getFlagRegister flagName ;;
  CreateStore value flagReg ;;
  ret tt.

(** *** [assembly_lifter_memory.cpp] *)

Definition isOffsetChar (c : ascii) : bool :=
  Cpp.isdigit c || Cpp.eqb_ascii c "-" || Cpp.eqb_ascii c "+".

(** [result ? CreateAdd(result, v, name) : v]. *)
Definition addTo (result : option Value) (v : Value) (name : string) : M (option Value) :=
  match result with
  | Some r => x <- CreateBinOp Add r v name ;; ret (Some x)
  | None => ret (Some v)
  end.

(** [calculateMemoryAddress]; [None] is the null pointer. *)
Definition calculateMemoryAddress (operand : Operand) : M (option Value) :=
  let value := op_value operand in
  let len := String.length value in
  (* [length() - 2] is unsigned: below 2 it wraps to a count past the end *)
  addr <- try_std (Cpp.substr value 1 (if (len <? 2)%nat then len else (len - 2)%nat)) ;;
  match Cpp.find "+" addr with
  | Some plusPos =>
      basePart <- try_std (Cpp.substr addr 0 plusPos) ;;
      offsetPart <- try_std (Cpp.substr_from addr (plusPos + 1)) ;;
      result <-
        (if negb (String.eqb basePart "") && Cpp.eqb_ascii (Cpp.front basePart) "%"
         then baseReg <- getOrCreateRegister basePart ;;
              v <- CreateLoad baseReg "base_addr" ;;
              ret (Some v)
         else ret None) ;;
      result <-
        match Cpp.find "*" offsetPart with
        | Some starPos =>
            indexRegStr <- try_std (Cpp.substr offsetPart 0 starPos) ;;
            scaleStr <- try_std (Cpp.substr_from offsetPart (starPos + 1)) ;;
            if Cpp.eqb_ascii (Cpp.front indexRegStr) "%" then
              indexReg <- getOrCreateRegister indexRegStr ;;
              indexValue <- CreateLoad indexReg "index_val" ;;
              scale <- try_std (Cpp.stoi scaleStr) ;;
              scaledIndex <- CreateBinOp Mul indexValue (ConstantInt scale) "scaled_index" ;;
              addTo result scaledIndex "indexed_mem_addr"
            else ret result
        | None =>
            if Cpp.all_of isOffsetChar offsetPart then
              offset <- try_std (Cpp.stoi offsetPart) ;;
              addTo result (ConstantInt offset) "offset_mem_addr"
            else if Cpp.eqb_ascii (Cpp.front offsetPart) "%" then
              offsetReg <- getOrCreateRegister offsetPart ;;
              offsetValue <- CreateLoad offsetReg "offset_val" ;;
              addTo result offsetValue "reg_offset_mem_addr"
            else ret result
        end ;;
      match result with
      | None =>
          setError ("Failed to calculate memory address: " +:+ value) ;;
          ret None
      | Some r => ret (Some r)
      end
  | None =>
      match Cpp.find "%" addr with
      | Some _ =>
          reg <- getOrCreateRegister addr ;;
          regValue <- CreateLoad reg "reg_val" ;;
          ret (Some regValue)
      | None =>
          value <- try_std (Cpp.stoi addr) ;;
          ret (Some (ConstantInt value))
      end
  end.

(** [getOperandValue]. *)
Definition getOperandValue (operand : Operand) : M (option Value) :=
  match op_type operand with
  | OperandType.REGISTER =>
      reg <- getOrCreateRegister (op_value operand) ;;
      v <- CreateLoad reg (op_value operand +:+ "_val") ;;
      ret (Some v)
  | OperandType.IMMEDIATE =>
      value <- try_std (Cpp.stoi (op_value operand)) ;;
      ret (Some (ConstantInt value))
  | OperandType.MEMORY => calculateMemoryAddress operand
  | OperandType.LABEL =>
      b <- getOrCreateBlock (op_value operand) ;;
      ret (Some (BlockValue (block b)))
  end.

(** [instruction.operands[i]]. *)
Definition operand (instruction : Instruction) (i : nat) : Operand :=
  default inhabitant (operands instruction !! i).

(** A pointer the code dereferences without a check. *)
Definition deref {A} (p : option A) : M A :=
  match p with
  | Some a => ret a
  | None => raise Cpp.NullDereference
  end.

(** *** [assembly_lifter_instructions.cpp] *)

Definition arithmeticOp (t : InstructionType.t) : option BinOp :=
  match t with
  | InstructionType.ADD => Some Add
  | InstructionType.SUB => Some Sub
  | InstructionType.MUL => Some Mul
  | InstructionType.DIV => Some SDiv
  | _ => None
  end.

Definition arithmeticName (op : BinOp) : string :=
  match op with
  | Add => "add" | Sub => "sub" | Mul => "mul" | _ => "div"
  end.

Definition liftArithmeticInstruction (instruction : Instruction) : M bool :=
  if (length (operands instruction) <? 2)%nat then
    setError "Arithmetic instruction requires at least 2 operands" ;; ret false
  else
    left_ <- getOperandValue (operand instruction 0) ;;
    right_ <- getOperandValue (operand instruction 1) ;;
    match left_, right_ with
    | Some left_, Some right_ =>
        match arithmeticOp (inst_type instruction) with
        | Some op =>
            result <- CreateBinOp op left_ right_ (arithmeticName op) ;;
            (if decide (op_type (operand instruction 0) = OperandType.REGISTER)
             then reg <- getOrCreateRegister (op_value (operand instruction 0)) ;;
                  CreateStore result reg ;; ret tt
             else ret tt) ;;
            ret true
        | None => ret false
        end
    | _, _ => setError "Failed to parse operands" ;; ret false
    end.

Definition liftMoveInstruction (instruction : Instruction) : M bool :=
  if negb (length (operands instruction) =? 2)%nat then
    setError "MOV instruction requires 2 operands" ;; ret false
  else
    let dst := operand instruction 0 in
    let src := operand instruction 1 in
    source <- getOperandValue src ;;
    match source with
    | None => setError "Failed to parse source operand" ;; ret false
    | Some source =>
        if decide (op_type dst = OperandType.REGISTER) then
          dest <- getOrCreateRegister (op_value dst) ;;
          CreateStore source dest ;;
          ret true
        else if decide (op_type dst = OperandType.MEMORY) then
          memAddr <- calculateMemoryAddress dst ;;
          memAddr <- deref memAddr ;;
          memPtr <- CreateIntToPtr memAddr "mem_ptr" ;;
          if decide (op_type src = OperandType.REGISTER) then
            reg <- getOrCreateRegister (op_value src) ;;
            regValue <- CreateLoad reg "reg_val" ;;
            CreateStore regValue memPtr ;;
            ret true
          else if decide (op_type src = OperandType.IMMEDIATE) then
            immValue <- getOperandValue src ;;
            immValue <- deref immValue ;;
            CreateStore immValue memPtr ;;
            ret true
          else
            setError "Source must be a register or immediate for memory destination MOV instruction" ;;
            ret false
        else if decide (op_type src = OperandType.MEMORY) then
          if decide (op_type dst = OperandType.REGISTER) then
            reg <- getOrCreateRegister (op_value dst) ;;
            regValue <- CreateLoad reg "reg_val" ;;
            memAddr <- calculateMemoryAddress src ;;
            memAddr <- deref memAddr ;;
            memPtr <- CreateIntToPtr memAddr "mem_ptr" ;;
            CreateStore regValue memPtr ;;
            ret true
          else
            setError "Destination must be a register for memory access MOV instruction" ;;
            ret false
        else
          setError "MOV instruction destination must be a register or memory access" ;;
          ret false
    end.

Definition liftCompareInstruction (instruction : Instruction) : M bool :=
  if negb (length (operands instruction) =? 2)%nat then
    setError "CMP instruction requires 2 operands" ;; ret false
  else
    left_ <- getOperandValue (operand instruction 0) ;;
    right_ <- getOperandValue (operand instruction 1) ;;
    match left_, right_ with
    | Some left_, Some right_ =>
        eq <- CreateICmp ICMP_EQ left_ right_ "cmp_eq" ;;
        lt <- CreateICmp ICMP_SLT left_ right_ "cmp_lt" ;;
        gt <- CreateICmp ICMP_SGT left_ right_ "cmp_gt" ;;
        le <- CreateICmp ICMP_SLE left_ right_ "cmp_le" ;;
        ge <- CreateICmp ICMP_SGE left_ right_ "cmp_ge" ;;
        (z <- CreateZExt eq "zf_int" ;; setFlagRegister "ZF" z) ;;
        (z <- CreateZExt lt "lt_int" ;; setFlagRegister "LT" z) ;;
        (z <- CreateZExt gt "gt_int" ;; setFlagRegister "GT" z) ;;
        (z <- CreateZExt le "le_int" ;; setFlagRegister "LE" z) ;;
        (z <- CreateZExt ge "ge_int" ;; setFlagRegister "GE" z) ;;
        ret true
    | _, _ => setError "Failed to parse CMP instruction operands" ;; ret false
    end.

Definition liftCallInstruction (instruction : Instruction) : M bool :=
  if negb (length (operands instruction) =? 1)%nat then
    setError "CALL instruction requires 1 operand" ;; ret false
  else
    let funcName := op_value (operand instruction 0) in
    func <- getOrCreateFunction funcName ;;
    callResult <- CreateCall func ;;
    eaxReg <- getOrCreateRegister "%eax" ;;
    CreateStore callResult eaxReg ;;
    ret true.

Definition liftReturnInstruction (instruction : Instruction) : M bool :=
  match operands instruction with
  | [] =>
      eaxReg <- getOrCreateRegister "%eax" ;;
      eaxValue <- CreateLoad eaxReg "eax_val" ;;
      CreateRet eaxValue ;;
      ret true
  | _ =>
      retValue <- getOperandValue (operand instruction 0) ;;
      match retValue with
      | None => setError "Failed to parse RET instruction operand" ;; ret false
      | Some retValue => CreateRet retValue ;; ret true
      end
  end.

Definition liftStackInstruction (instruction : Instruction) : M bool :=
  if decide (inst_type instruction = InstructionType.PUSH) then
    if negb (length (operands instruction) =? 1)%nat then
      setError "PUSH instruction requires 1 operand" ;; ret false
    else
      value <- getOperandValue (operand instruction 0) ;;
      match value with
      | None => setError "Failed to parse PUSH instruction operand" ;; ret false
      | Some value =>
          stackPtr <- getOrCreateRegister "STACK_PTR" ;;
          stackValue <- CreateLoad stackPtr "stack_ptr_val" ;;
          newStackPtr <- CreateBinOp Sub stackValue (ConstantInt 4) "new_stack_ptr" ;;
          CreateStore newStackPtr stackPtr ;;
          stackAddr <- CreateIntToPtr newStackPtr "stack_addr" ;;
          CreateStore value stackAddr ;;
          ret true
      end
  else if decide (inst_type instruction = InstructionType.POP) then
    if negb (length (operands instruction) =? 1)%nat then
      setError "POP instruction requires 1 operand" ;; ret false
    else
      stackPtr <- getOrCreateRegister "STACK_PTR" ;;
      stackValue <- CreateLoad stackPtr "stack_ptr_val" ;;
      stackAddr <- CreateIntToPtr stackValue "stack_addr" ;;
      value <- CreateLoad stackAddr "stack_val" ;;
      newStackPtr <- CreateBinOp Add stackValue (ConstantInt 4) "new_stack_ptr" ;;
      CreateStore newStackPtr stackPtr ;;
      (if decide (op_type (operand instruction 0) = OperandType.REGISTER)
       then reg <- getOrCreateRegister (op_value (operand instruction 0)) ;;
            CreateStore value reg ;; ret tt
       else ret tt) ;;
      ret true
  else ret true.

(** *** [liftJumpInstruction] ([assembly_lifter_control_flow.cpp]) *)

(** [builder_->GetInsertBlock()->getParent()]. *)
Definition insertParent : M FuncId :=
  b <- GetInsertBlock ;;
  b <- deref b ;;
  ret (parent b).

(** The lambda [getFlagCond]. *)
Definition getFlagCond (name : string) (branchWhenNonZero : bool) : M Value :=
  reg <- getFlagRegister name ;;
  val <- CreateLoad reg (name +:+ "_val") ;;
  if branchWhenNonZero
  then CreateICmp ICMP_NE val (ConstantInt 0) (name +:+ "_nz")
  else CreateICmp ICMP_EQ val (ConstantInt 0) (name +:+ "_z").

Definition isConditionalJump (t : InstructionType.t) : bool :=
  match t with
  | InstructionType.JE | InstructionType.JNE | InstructionType.JL
  | InstructionType.JG | InstructionType.JLE | InstructionType.JGE => true
  | _ => false
  end.

Definition liftJumpInstruction (instruction : Instruction) : M bool :=
  if negb (length (operands instruction) =? 1)%nat then
    setError "Jump instruction requires 1 operand" ;; ret false
  else
    targetBlock <- getOrCreateBlock (op_value (operand instruction 0)) ;;
    if decide (inst_type instruction = InstructionType.JMP) then
      CreateBr targetBlock ;;
      currentFunc <- insertParent ;;
      nextBlock <- createBlock "cont" currentFunc ;;
      SetInsertPoint nextBlock ;;
      ret true
    else if isConditionalJump (inst_type instruction) then
      currentFunc <- insertParent ;;
      s <- get ;;
      let fallthroughName := "fallthrough_" +:+ Cpp.to_string (fallthroughCounter_ s) in
      modify (set_fallthroughCounter (S (fallthroughCounter_ s))) ;;
      fallthrough <- createBlock fallthroughName currentFunc ;;
      match inst_type instruction with
      | InstructionType.JE =>
          c <- getFlagCond "ZF" true ;; CreateCondBr c targetBlock fallthrough
      | InstructionType.JNE =>
          c <- getFlagCond "ZF" false ;; CreateCondBr c fallthrough targetBlock
      | InstructionType.JL =>
          c <- getFlagCond "LT" true ;; CreateCondBr c targetBlock fallthrough
      | InstructionType.JG =>
          c <- getFlagCond "GT" true ;; CreateCondBr c targetBlock fallthrough
      | InstructionType.JLE =>
          c <- getFlagCond "LE" true ;; CreateCondBr c targetBlock fallthrough
      | InstructionType.JGE =>
          c <- getFlagCond "GE" true ;; CreateCondBr c targetBlock fallthrough
      | _ => CreateBr targetBlock
      end ;;
      SetInsertPoint fallthrough ;;
      ret true
    else ret false.

(** *** [liftInstruction] ([assembly_lifter_core.cpp]) *)

Definition liftInstruction (instruction : Instruction) (index : nat) : M bool :=
  match inst_type instruction with
  | InstructionType.ADD | InstructionType.SUB
  | InstructionType.MUL | InstructionType.DIV => liftArithmeticInstruction instruction
  | InstructionType.MOV => liftMoveInstruction instruction
  | InstructionType.CMP => liftCompareInstruction instruction
  | InstructionType.JMP | InstructionType.JE | InstructionType.JNE
  | InstructionType.JL | InstructionType.JG | InstructionType.JLE
  | InstructionType.JGE => liftJumpInstruction instruction
  | InstructionType.CALL => liftCallInstruction instruction
  | InstructionType.RET => liftReturnInstruction instruction
  | InstructionType.PUSH | InstructionType.POP => liftStackInstruction instruction
  | InstructionType.LABEL => ret true
  | InstructionType.UNKNOWN => setError "Unsupported instruction type" ;; ret false
  end.

(** *** [liftToLLVM] ([assembly_lifter_core.cpp]) *)

(** The first loop: the operands of [CALL]. *)
Definition isCallSink (inst : Instruction) : bool :=
  bool_decide (inst_type inst = InstructionType.CALL)
  && (length (operands inst) =? 1)%nat
  && bool_decide (op_type (operand inst 0) = OperandType.LABEL).

Definition collectCallTargets (instructions : list Instruction) : gmap string bool :=
  fold_left (fun callTargets inst =>
               if isCallSink inst
               then <[op_value (operand inst 0) := true]> callTargets
               else callTargets)
            instructions ∅.

(** The locals the main loop carries from one instruction to the next. *)
Record Locals := mkLocals {
  currentFunc : option FuncId;
  isFirstLabel : bool
}.

(** [callTargets.count(labelName) > 0]. *)
Definition count (callTargets : gmap string bool) (labelName : string) : bool :=
  bool_decide (is_Some (callTargets !! labelName)).

(** The condition under which a label opens a function. *)
Definition startsFunction (callTargets : gmap string bool) (l : Locals)
           (labelName : string) : bool :=
  String.eqb labelName "main" || String.eqb labelName "start"
  || count callTargets labelName || isFirstLabel l.

(** The head of the loop body: what is opened before the instruction is
    lifted. *)
Definition openLabel (callTargets : gmap string bool) (inst : Instruction)
           (l : Locals) : M Locals :=
  let labelName := label inst in
  if negb (String.eqb labelName "") then
    if startsFunction callTargets l labelName then
      f <- getOrCreateFunction labelName ;;
      modify (set_blocks ∅) ;;
      modify (set_registers ∅) ;;
      funcEntry <- createBlock labelName f ;;
      SetInsertPoint funcEntry ;;
      ret (mkLocals (Some f) false)
    else
      f <- match currentFunc l with
           | Some f => ret f
           | None => getOrCreateFunction "main"
           end ;;
      labelBlock <- getOrCreateBlock labelName ;;
      SetInsertPoint labelBlock ;;
      ret (mkLocals (Some f) (isFirstLabel l))
  else if negb (bool_decide (is_Some (currentFunc l))) && isFirstLabel l then
    f <- getOrCreateFunction "main" ;;
    funcEntry <- createBlock "main" f ;;
    SetInsertPoint funcEntry ;;
    ret (mkLocals (Some f) false)
  else ret l.

(** The main loop; [false] when an instruction fails to lift. *)
Fixpoint liftLoop (callTargets : gmap string bool) (instructions : list Instruction)
         (i : nat) (l : Locals) : M bool :=
  match instructions with
  | [] => ret true
  | inst :: rest =>
      l' <- openLabel callTargets inst l ;;
      ok <- liftInstruction inst i ;;
      if ok then liftLoop callTargets rest (S i) l' else ret false
  end.

Fixpoint forEach {A} (l : list A) (body : A -> M unit) : M unit :=
  match l with
  | [] => ret tt
  | a :: rest => body a ;; forEach rest body
  end.

(** Close-out of one block: a block without terminator gets a return. *)
Definition closeBlock (f : FuncId) (entry : option BlockId) (b : BlockId) : M unit :=
  s <- get ;;
  match functions (module_ s) !! f ≫= findBlock b with
  | Some blk =>
      match getTerminator blk with
      | Some _ => ret tt
      | None =>
          let here := Some (mkRef f b) in
          if bool_decide (entry = Some b) then
            eaxReg <- match registers_ s !! "%eax" with
                      | Some reg => ret reg
                      | None =>
                          reg <- insertAt here false "%eax" Alloca ;;
                          modify (fun s => set_registers (<["%eax" := reg]> (registers_ s)) s) ;;
                          ret reg
                      end ;;
            eaxValue <- insertAt here false "eax_val" (Load eaxReg) ;;
            insertAt here false "" (Ret (Some eaxValue)) ;;
            ret tt
          else
            insertAt here false "" (Ret (Some (ConstantInt 0))) ;;
            ret tt
      end
  | None => ret tt
  end.

Definition closeFunction (f : FuncId) : M unit :=
  s <- get ;;
  match functions (module_ s) !! f with
  | Some fn =>
      if isDeclaration fn then ret tt
      else forEach (map bb_id (fn_blocks fn))
                   (closeBlock f (bb_id <$> getEntryBlock fn))
  | None => ret tt
  end.

Definition closeOut : M unit :=
  s <- get ;;
  forEach (seq 0 (length (functions (module_ s)))) closeFunction.

(** The verification loop: which defined functions the verifier reports
    as broken. *)
Definition verifyModule (m : Module) : list (string * bool) :=
  map (fun fn => (fn_name fn, Verifier.verifyFunction m fn))
      (filter (fun fn => isDeclaration fn = false) (functions m)).

Definition liftToLLVM (instructions : list Instruction) : M bool :=
  modify (set_fallthroughCounter 0%nat) ;;
  let callTargets := collectCallTargets instructions in
  ok <- liftLoop callTargets instructions 0%nat (mkLocals None true) ;;
  if negb ok then ret false
  else
    closeOut ;;
    s <- get ;;
    (* the verifier's verdict only feeds a local dump of the module *)
    let verdict := verifyModule (module_ s) in
    ret true.

End Lifter.

(** ** Running the mid-level IR

    A small evaluator for the IR the lifter builds: slots created by
    [alloca] hold 32-bit integers, instruction results live in an
    environment, control moves between the blocks of a function.  Loads and
    stores through addresses computed from integers (the linear memory) are
    outside this evaluator, as is a load from a slot never stored to. *)

Module Exec.
Import IR.

Inductive RVal :=
| RInt (z : Z)
| RSlot (a : InstId)
| RAddr (z : Z).

Record Machine := mkMachine {
  env : gmap nat RVal;
  slots : gmap nat Z
}.

Definition start : Machine := mkMachine ∅ ∅.

Definition evalValue (rho : Machine) (v : Value) : option RVal :=
  match v with
  | ConstantInt n => Some (RInt n)
  | ConstantBit b => Some (RInt (Int32.of_bool b))
  | ConstantIntToPtr n => Some (RAddr n)
  | InstValue id => env rho !! id
  | PoisonValue | BlockValue _ => None
  end.

Definition evalInt (rho : Machine) (v : Value) : option Z :=
  match evalValue rho v with
  | Some (RInt z) => Some z
  | _ => None
  end.

Definition bindResult (id : InstId) (r : RVal) (rho : Machine) : Machine :=
  mkMachine (<[id := r]> (env rho)) (slots rho).

(** One instruction that is neither a terminator nor a call. *)
Definition step (rho : Machine) (i : Inst) : option Machine :=
  match i_op i with
  | Alloca => Some (bindResult (i_id i) (RSlot (i_id i)) rho)
  | Load p =>
      match evalValue rho p with
      | Some (RSlot a) =>
          z ← slots rho !! a; Some (bindResult (i_id i) (RInt z) rho)
      | _ => None
      end
  | Store v p =>
      match evalValue rho p, evalInt rho v with
      | Some (RSlot a), Some z => Some (mkMachine (env rho) (<[a := z]> (slots rho)))
      | _, _ => None
      end
  | BinaryOperator op l r =>
      a ← evalInt rho l; b ← evalInt rho r;
      z ← Int32.binop op a b; Some (bindResult (i_id i) (RInt z) rho)
  | ICmp p l r =>
      a ← evalInt rho l; b ← evalInt rho r;
      c ← Int32.icmp p a b; Some (bindResult (i_id i) (RInt (Int32.of_bool c)) rho)
  | ZExt v => z ← evalInt rho v; Some (bindResult (i_id i) (RInt z) rho)
  | IntToPtr v => z ← evalInt rho v; Some (bindResult (i_id i) (RAddr z) rho)
  | PtrToInt v =>
      match evalValue rho v with
      | Some (RAddr z) => Some (bindResult (i_id i) (RInt z) rho)
      | _ => None
      end
  | BitCast v => r ← evalValue rho v; Some (bindResult (i_id i) r rho)
  | _ => None
  end.

(** Where a terminator sends control. *)
Inductive Transfer :=
| Goto (b : BlockId)
| Return (z : Z).

Definition transfer (rho : Machine) (o : Opcode) : option Transfer :=
  match o with
  | Br t => Some (Goto t)
  | CondBr c t e =>
      z ← evalInt rho c; Some (Goto (if z =? 0 then e else t))
  | Ret (Some v) => z ← evalInt rho v; Some (Return z)
  | _ => None
  end.

(** Straight-line execution of a list of non-terminators. *)
Fixpoint steps (rho : Machine) (l : list Inst) : option Machine :=
  match l with
  | [] => Some rho
  | i :: rest => rho' ← step rho i; steps rho' rest
  end.

(** Run the instructions [l] of function [f], then follow the
    terminators; every instruction costs one unit of fuel. *)
Fixpoint run (fuel : nat) (m : Module) (f : Function) (l : list Inst)
         (rho : Machine) : option Z :=
  match fuel with
  | O => None
  | S fuel' =>
      match l with
      | [] => None
      | i :: rest =>
          match i_op i with
          | Call callee _ =>
              g ← functions m !! callee;
              entry ← getEntryBlock g;
              z ← run fuel' m g (bb_insts entry) start;
              run fuel' m f rest (bindResult (i_id i) (RInt z) rho)
          | o =>
              if isTerminator o then
                match transfer rho o with
                | Some (Return z) => Some z
                | Some (Goto b) =>
                    blk ← findBlock b f; run fuel' m f (bb_insts blk) rho
                | None => None
                end
              else rho' ← step rho i; run fuel' m f rest rho'
          end
      end
  end.

(** Call the function called [name]. *)
Definition callByName (fuel : nat) (m : Module) (name : string) : option Z :=
  f ← findFunction name m;
  entry ← getEntryBlock f;
  run fuel m f (bb_insts entry) start.

End Exec.

(** ** The lowerer ([WasmGenerator])

    The header [wasm_generator.h] is not among the sources; the types below
    are read off their uses in [wasm_generator.cpp]. *)

Module Wasm.

Inductive WasmType := I32 | I64 | F32 | F64 | VOID.

Inductive WasmOpcode :=
| I32_CONST | I32_ADD | I32_SUB | I32_MUL | I32_DIV_S | I32_DIV_U
| I32_EQ | I32_NE | I32_LT_S | I32_LT_U | I32_GT_S | I32_GT_U
| I32_LE_S | I32_LE_U | I32_GE_S | I32_GE_U
| GET_LOCAL | SET_LOCAL | CALL | RETURN | BR | BR_IF
| I32_LOAD | I32_STORE.

#[global] Instance WasmType_eq_dec : EqDecision WasmType.
Proof. solve_decision. Defined.
#[global] Instance WasmOpcode_eq_dec : EqDecision WasmOpcode.
Proof. solve_decision. Defined.

(** An opcode with its unsigned 64-bit operands. *)
Record WasmInstruction := mkWasmInstruction {
  opcode : WasmOpcode;
  wi_operands : list Z
}.

#[global] Instance WasmInstruction_eq_dec : EqDecision WasmInstruction.
Proof. solve_decision. Defined.

Definition op0 (o : WasmOpcode) : WasmInstruction := mkWasmInstruction o [].
Definition op1 (o : WasmOpcode) (x : Z) : WasmInstruction := mkWasmInstruction o [x].

Record WasmFunction := mkWasmFunction {
  name : string;
  params : list WasmType;
  returnType : WasmType;
  locals : list WasmType;
  instructions : list WasmInstruction
}.

Record WasmModule := mkWasmModule {
  wm_functions : list WasmFunction;
  functionIndices : gmap string nat;
  memorySize : Z;
  memoryMaxSize : Z
}.

(** Truncation to [uint32_t]. *)
Definition u32 (z : Z) : Z := z mod 2 ^ 32.

End Wasm.

Module Generator.
Import IR Wasm.

(** The members of [WasmGenerator], and next to them the [WasmFunction]
    under construction, which the conversion functions receive by
    reference.  Only instructions are ever entered into [localMap_]. *)
Record WasmGenerator := mkGenerator {
  wasmModule_ : WasmModule;
  functionMap_ : gmap nat Z;
  localMap_ : gmap nat Z;
  blockMap_ : gmap nat Z;
  blockIndices_ : gmap nat Z;
  currentFunction_ : option Function;
  errorMessage_ : string;
  wasmFunc : WasmFunction
}.

Definition set_wasmModule (x : WasmModule) (g : WasmGenerator) : WasmGenerator :=
  mkGenerator x (functionMap_ g) (localMap_ g) (blockMap_ g) (blockIndices_ g)
              (currentFunction_ g) (errorMessage_ g) (wasmFunc g).
Definition set_functionMap (x : gmap nat Z) (g : WasmGenerator) : WasmGenerator :=
  mkGenerator (wasmModule_ g) x (localMap_ g) (blockMap_ g) (blockIndices_ g)
              (currentFunction_ g) (errorMessage_ g) (wasmFunc g).
Definition set_localMap (x : gmap nat Z) (g : WasmGenerator) : WasmGenerator :=
  mkGenerator (wasmModule_ g) (functionMap_ g) x (blockMap_ g) (blockIndices_ g)
              (currentFunction_ g) (errorMessage_ g) (wasmFunc g).
Definition set_blockMap (x : gmap nat Z) (g : WasmGenerator) : WasmGenerator :=
  mkGenerator (wasmModule_ g) (functionMap_ g) (localMap_ g) x (blockIndices_ g)
              (currentFunction_ g) (errorMessage_ g) (wasmFunc g).
Definition set_blockIndices (x : gmap nat Z) (g : WasmGenerator) : WasmGenerator :=
  mkGenerator (wasmModule_ g) (functionMap_ g) (localMap_ g) (blockMap_ g) x
              (currentFunction_ g) (errorMessage_ g) (wasmFunc g).
Definition set_currentFunction (x : option Function) (g : WasmGenerator) : WasmGenerator :=
  mkGenerator (wasmModule_ g) (functionMap_ g) (localMap_ g) (blockMap_ g)
              (blockIndices_ g) x (errorMessage_ g) (wasmFunc g).
Definition set_errorMessage (x : string) (g : WasmGenerator) : WasmGenerator :=
  mkGenerator (wasmModule_ g) (functionMap_ g) (localMap_ g) (blockMap_ g)
              (blockIndices_ g) (currentFunction_ g) x (wasmFunc g).
Definition set_wasmFunc (x : WasmFunction) (g : WasmGenerator) : WasmGenerator :=
  mkGenerator (wasmModule_ g) (functionMap_ g) (localMap_ g) (blockMap_ g)
              (blockIndices_ g) (currentFunction_ g) (errorMessage_ g) x.

(** The constructor; the memory sizes are the defaults of [WasmModule],
    declared in the absent header. *)
Definition init (memorySize memoryMaxSize : Z) : WasmGenerator :=
  mkGenerator (mkWasmModule [] ∅ memorySize memoryMaxSize) ∅ ∅ ∅ ∅ None ""
              (mkWasmFunction "" [] VOID [] []).

(** *** Computations of the lowerer: state passing *)

Definition G (A : Type) : Type := WasmGenerator -> A * WasmGenerator.

Definition ret {A} (a : A) : G A := fun g => (a, g).
Definition bind {A B} (c : G A) (k : A -> G B) : G B :=
  fun g => let '(a, g') := c g in k a g'.
Definition get : G WasmGenerator := fun g => (g, g).
Definition modify (f : WasmGenerator -> WasmGenerator) : G unit := fun g => (tt, f g).

Declare Scope gen_scope.
Delimit Scope gen_scope with gen.
Notation "x <- c ;; k" := (bind c (fun x => k))
  (at level 100, c at next level, right associativity) : gen_scope.
Notation "c ;; k" := (bind c (fun _ => k))
  (at level 100, right associativity) : gen_scope.
Local Open Scope gen_scope.

Definition setError (msg : string) : G unit := modify (set_errorMessage msg).

(** [instructions.push_back]. *)
Definition push (i : WasmInstruction) : G unit :=
  modify (fun g =>
    let w := wasmFunc g in
    set_wasmFunc (mkWasmFunction (name w) (params w) (returnType w) (locals w)
                                 (instructions w ++ [i])) g).

(** [wasmFunc.locals.push_back]. *)
Definition pushLocal (t : WasmType) : G unit :=
  modify (fun g =>
    let w := wasmFunc g in
    set_wasmFunc (mkWasmFunction (name w) (params w) (returnType w) (locals w ++ [t])
                                 (instructions w)) g).

Definition convertLLVMType (t : Ty) : WasmType :=
  match t with
  | IR.I32 => I32
  | Void => VOID
  | _ => I32
  end.

(** [assignLocalIndex]; the value is always an instruction. *)
Definition assignLocalIndex (value : InstId) (t : WasmType) : G Z :=
  g <- get ;;
  match localMap_ g !! value with
  | Some idx => ret idx
  | None =>
      let index := u32 (Z.of_nat (length (params (wasmFunc g)) + length (locals (wasmFunc g)))) in
      pushLocal t ;;
      modify (fun g => set_localMap (<[value := index]> (localMap_ g)) g) ;;
      ret index
  end.

(** [getLocalIndex]: the index recorded for the value, [0] when there is
    none. *)
Definition getLocalIndex (value : Value) : G Z := fun g =>
  (match value with
   | InstValue id =>
       match localMap_ g !! id with
       | Some idx => idx
       | None => 0
       end
   | _ => 0
   end, g).

(** *** Reading the IR through pointers *)

(** An [Instruction*]: the instruction and the block that holds it, which
    [getParent] reads. *)
Record InstRef := mkInstRef {
  ir_parent : BlockId;
  ir_inst : Inst
}.

Definition instRefs (b : BasicBlock) : list InstRef :=
  map (mkInstRef (bb_id b)) (bb_insts b).

Definition allInstRefs (m : Module) : list InstRef :=
  concat (map (fun f => concat (map instRefs (fn_blocks f))) (functions m)).

(** The instruction a value points to. *)
Definition instOf (m : Module) (v : Value) : option InstRef :=
  match v with
  | InstValue id => List.find (fun r => Nat.eqb (i_id (ir_inst r)) id) (allInstRefs m)
  | _ => None
  end.

Definition opcodeOf (m : Module) (v : Value) : option Opcode :=
  (fun r => i_op (ir_inst r)) <$> instOf m v.

(** [isa<ConstantInt>] with [getZExtValue]. *)
Definition asConstantInt (v : Value) : option Z :=
  match v with
  | ConstantInt n => Some (Int32.unsigned n)
  | ConstantBit b => Some (Int32.of_bool b)
  | _ => None
  end.

(** [isa<LoadInst>] with [getPointerOperand]. *)
Definition asLoad (m : Module) (v : Value) : option Value :=
  match opcodeOf m v with
  | Some (Load p) => Some p
  | _ => None
  end.

(** [isa<Instruction>]. *)
Definition isInstruction (v : Value) : bool :=
  match v with InstValue _ => true | _ => false end.

Definition isCmpInst (o : Opcode) : bool :=
  match o with ICmp _ _ _ => true | _ => false end.

Definition getOpcodeName (o : Opcode) : string :=
  match o with
  | Alloca => "alloca" | Load _ => "load" | Store _ _ => "store"
  | BinaryOperator Add _ _ => "add" | BinaryOperator Sub _ _ => "sub"
  | BinaryOperator Mul _ _ => "mul" | BinaryOperator SDiv _ _ => "sdiv"
  | BinaryOperator UDiv _ _ => "udiv" | BinaryOperator (OtherBinOp n) _ _ => n
  | ICmp _ _ _ => "icmp" | ZExt _ => "zext" | IntToPtr _ => "inttoptr"
  | PtrToInt _ => "ptrtoint" | BitCast _ => "bitcast" | PHI => "phi"
  | Call _ _ => "call" | Ret _ => "ret" | Br _ => "br" | CondBr _ _ _ => "br"
  | Unreachable => "unreachable"
  end.

(** [blockPositions]: the position of each block of the function; a block
    looked up with [operator[]] that is not there reads as [0]. *)
Definition blockPositions (f : Function) : gmap nat nat :=
  fold_left (fun acc '(i, b) => <[bb_id b := i]> acc)
            (imap (fun i b => (i, b)) (fn_blocks f)) ∅.

Definition positionOf (positions : gmap nat nat) (b : BlockId) : nat :=
  default 0%nat (positions !! b).

(** The counting loop [for (i = from + 1; i < to; ++i) depth++]. *)
Definition countBetween (from to : nat) : Z :=
  u32 (Z.of_nat (length (seq (from + 1) (to - (from + 1))))).

Section Conversion.

(** The [llvm::Module] the instruction pointers lead into. *)
Variable m : Module.

(** Push an operand: a constant, the slot of a load, or the local of
    another instruction. *)
Definition pushConstLoadInst (v : Value) : G unit :=
  match asConstantInt v with
  | Some z => push (op1 I32_CONST z)
  | None =>
      match asLoad m v with
      | Some ptr => localIdx <- getLocalIndex ptr ;; push (op1 GET_LOCAL localIdx)
      | None =>
          if isInstruction v
          then localIdx <- getLocalIndex v ;; push (op1 GET_LOCAL localIdx)
          else ret tt
      end
  end.

(** Push an operand: a constant or the slot of a load, nothing else. *)
Definition pushConstLoad (v : Value) : G unit :=
  match asConstantInt v with
  | Some z => push (op1 I32_CONST z)
  | None =>
      match asLoad m v with
      | Some ptr => localIdx <- getLocalIndex ptr ;; push (op1 GET_LOCAL localIdx)
      | None => ret tt
      end
  end.

Definition convertArithmeticInstruction (inst : Inst) : G bool :=
  match i_op inst with
  | BinaryOperator op lhs rhs =>
      pushConstLoadInst lhs ;;
      pushConstLoadInst rhs ;;
      match op with
      | OtherBinOp n =>
          setError ("Unsupported arithmetic operation: " +:+ n) ;; ret false
      | _ =>
          push (op0 match op with
                    | Add => I32_ADD | Sub => I32_SUB | Mul => I32_MUL
                    | SDiv => I32_DIV_S | _ => I32_DIV_U
                    end) ;;
          resultIdx <- assignLocalIndex (i_id inst) (convertLLVMType (getType (i_op inst))) ;;
          push (op1 SET_LOCAL resultIdx) ;;
          ret true
      end
  | _ => ret true
  end.

Definition compareOpcode (p : Predicate) : option WasmOpcode :=
  match p with
  | ICMP_EQ => Some I32_EQ | ICMP_NE => Some I32_NE
  | ICMP_SLT => Some I32_LT_S | ICMP_ULT => Some I32_LT_U
  | ICMP_SGT => Some I32_GT_S | ICMP_UGT => Some I32_GT_U
  | ICMP_SLE => Some I32_LE_S | ICMP_ULE => Some I32_LE_U
  | ICMP_SGE => Some I32_GE_S | ICMP_UGE => Some I32_GE_U
  | FCMP_OTHER => None
  end.

Definition convertCompareInstruction (inst : Inst) : G bool :=
  match i_op inst with
  | ICmp p lhs rhs =>
      pushConstLoad lhs ;;
      pushConstLoad rhs ;;
      match compareOpcode p with
      | Some o => push (op0 o) ;; ret true
      | None => setError "Unsupported comparison operation" ;; ret false
      end
  | _ => ret true
  end.

(** The opcode a conditional branch emits for its [icmp] condition. *)
Definition branchCompareOpcode (p : Predicate) : WasmOpcode :=
  match p with
  | ICMP_EQ => I32_EQ | ICMP_NE => I32_NE
  | ICMP_SLT => I32_LT_S | ICMP_SGT => I32_GT_S
  | ICMP_SLE => I32_LE_S | ICMP_SGE => I32_GE_S
  | _ => I32_EQ
  end.

(** Push an operand of a branch condition: the slot of a load or a
    constant. *)
Definition pushLoadConst (v : Value) : G unit :=
  match asLoad m v with
  | Some ptr => localIdx <- getLocalIndex ptr ;; push (op1 GET_LOCAL localIdx)
  | None =>
      match asConstantInt v with
      | Some z => push (op1 I32_CONST z)
      | None => ret tt
      end
  end.

Definition convertBranchInstruction (inst : InstRef) : G bool :=
  match i_op (ir_inst inst) with
  | Br target =>
      g <- get ;;
      match blockMap_ g !! ir_parent inst with
      | Some depth => push (op1 BR depth)
      | None => ret tt
      end ;;
      ret true
  | CondBr condition trueTarget falseTarget =>
      match opcodeOf m condition with
      | Some (ICmp p left_ right_) =>
          pushLoadConst left_ ;;
          pushLoadConst right_ ;;
          push (op0 (branchCompareOpcode p))
      | Some (Load ptr) =>
          localIdx <- getLocalIndex ptr ;;
          push (op1 GET_LOCAL localIdx) ;;
          push (op1 I32_CONST 0) ;;
          push (op0 I32_NE)
      | Some (ZExt src) =>
          match asLoad m src with
          | Some ptr => localIdx <- getLocalIndex ptr ;; push (op1 GET_LOCAL localIdx)
          | None => localIdx <- getLocalIndex src ;; push (op1 GET_LOCAL localIdx)
          end ;;
          push (op1 I32_CONST 0) ;;
          push (op0 I32_NE)
      | _ => ret tt
      end ;;
      g <- get ;;
      let positions :=
        match currentFunction_ g with
        | Some f => blockPositions f
        | None => ∅
        end in
      let currentPos := positionOf positions (ir_parent inst) in
      let truePos := positionOf positions trueTarget in
      let falsePos := positionOf positions falseTarget in
      (if (falsePos =? currentPos + 1)%nat then
         let depth := if (currentPos + 1 <? truePos)%nat
                      then countBetween currentPos truePos else 0 in
         push (op1 BR_IF depth)
       else if (truePos =? currentPos + 1)%nat then
         push (op1 I32_CONST 0) ;;
         push (op0 I32_EQ) ;;
         let depth := if (currentPos + 1 <? falsePos)%nat
                      then countBetween currentPos falsePos else 0 in
         push (op1 BR_IF depth)
       else push (op1 BR_IF 0)) ;;
      ret true
  | _ => ret true
  end.

Definition convertCallInstruction (inst : Inst) : G bool :=
  match i_op inst with
  | Call calledFunc args =>
      fold_right (fun arg k =>
                    match asConstantInt arg with
                    | Some z => push (op1 I32_CONST z) ;; k
                    | None => k
                    end) (ret tt) args ;;
      g <- get ;;
      match functionMap_ g !! calledFunc with
      | Some idx => push (op1 CALL idx)
      | None => ret tt
      end ;;
      ret true
  | _ => ret true
  end.

Definition convertReturnInstruction (inst : Inst) : G bool :=
  match i_op inst with
  | Ret retValue =>
      match retValue ≫= asConstantInt with
      | Some z => push (op1 I32_CONST z)
      | None => ret tt
      end ;;
      push (op0 RETURN) ;;
      ret true
  | _ => ret true
  end.

(** The address of a load or a store: the operand of an [inttoptr]
    instruction is re-emitted, any other pointer is read as a local. *)
Definition pushAddress (ptrOperand : Value) : G unit :=
  match opcodeOf m ptrOperand with
  | Some (IntToPtr addrOperand) =>
      match instOf m addrOperand with
      | Some binOp =>
          match i_op (ir_inst binOp) with
          | BinaryOperator _ _ _ =>
              convertArithmeticInstruction (ir_inst binOp) ;; ret tt
          | Load ptr =>
              localIdx <- getLocalIndex ptr ;; push (op1 GET_LOCAL localIdx)
          | _ => ret tt
          end
      | None =>
          match asConstantInt addrOperand with
          | Some z => push (op1 I32_CONST z)
          | None => ret tt
          end
      end
  | _ =>
      localIdx <- getLocalIndex ptrOperand ;;
      push (op1 GET_LOCAL localIdx)
  end.

Definition convertMemoryInstruction (inst : Inst) : G bool :=
  match i_op inst with
  | Load ptrOperand =>
      pushAddress ptrOperand ;;
      push (op0 I32_LOAD) ;;
      ret true
  | Store value ptrOperand =>
      pushAddress ptrOperand ;;
      (* a constant, a load, a zext or any other instruction *)
      pushConstLoadInst value ;;
      push (op0 I32_STORE) ;;
      ret true
  | _ => ret true
  end.

Definition convertPhiInstruction (inst : Inst) : G bool :=
  resultIdx <- getLocalIndex (InstValue (i_id inst)) ;;
  push (op1 GET_LOCAL resultIdx) ;;
  ret true.

Definition convertIntToPtrInstruction (inst : Inst) : G bool :=
  match i_op inst with
  | IntToPtr operand =>
      match asConstantInt operand with
      | Some z => push (op1 I32_CONST z)
      | None =>
          match asLoad m operand with
          | Some ptr => localIdx <- getLocalIndex ptr ;; push (op1 GET_LOCAL localIdx)
          | None =>
              match instOf m operand with
              | Some binOp =>
                  match i_op (ir_inst binOp) with
                  | BinaryOperator _ _ _ =>
                      convertArithmeticInstruction (ir_inst binOp) ;; ret tt
                  | _ => ret tt
                  end
              | None => ret tt
              end
          end
      end ;;
      ret true
  | _ => ret true
  end.

Definition convertPtrToIntInstruction (inst : Inst) : G bool :=
  match i_op inst with
  | PtrToInt operand => pushConstLoad operand ;; ret true
  | _ => ret true
  end.

Definition convertBitCastInstruction (inst : Inst) : G bool :=
  match i_op inst with
  | BitCast operand => pushConstLoad operand ;; ret true
  | _ => ret true
  end.

Definition convertInstruction (inst : InstRef) : G bool :=
  let i := ir_inst inst in
  match i_op i with
  | BinaryOperator _ _ _ => convertArithmeticInstruction i
  | ICmp _ _ _ => convertCompareInstruction i
  | Br _ | CondBr _ _ _ => convertBranchInstruction inst
  | Call _ _ => convertCallInstruction i
  | Ret _ => convertReturnInstruction i
  | Load _ | Store _ _ => convertMemoryInstruction i
  | Alloca => ret true
  | IntToPtr _ => convertIntToPtrInstruction i
  | PtrToInt _ => convertPtrToIntInstruction i
  | BitCast _ => convertBitCastInstruction i
  | ZExt op =>
      ok <-
        match instOf m op with
        | Some cmp =>
            match i_op (ir_inst cmp) with
            | ICmp _ _ _ => convertCompareInstruction (ir_inst cmp)
            | Load ptr =>
                localIdx <- getLocalIndex ptr ;;
                push (op1 GET_LOCAL localIdx) ;; ret true
            | _ =>
                localIdx <- getLocalIndex op ;;
                push (op1 GET_LOCAL localIdx) ;; ret true
            end
        | None =>
            match asConstantInt op with
            | Some z => push (op1 I32_CONST z) ;; ret true
            | None =>
                if isInstruction op
                then localIdx <- getLocalIndex op ;;
                     push (op1 GET_LOCAL localIdx) ;; ret true
                else setError "Unsupported ZExt operand" ;; ret false
            end
        end ;;
      if negb ok then ret false
      else
        resultIdx <- assignLocalIndex (i_id i) (convertLLVMType (getType (i_op i))) ;;
        push (op1 SET_LOCAL resultIdx) ;;
        ret true
  | PHI => convertPhiInstruction i
  | Unreachable =>
      setError ("Unsupported LLVM instruction: " +:+ getOpcodeName (i_op i)) ;;
      ret false
  end.

(** A loop that stops at the first failure. *)
Fixpoint allOf {A} (l : list A) (body : A -> G bool) : G bool :=
  match l with
  | [] => ret true
  | a :: rest => ok <- body a ;; if ok then allOf rest body else ret false
  end.

Definition convertBasicBlock (blk : BasicBlock) : G bool :=
  allOf (instRefs blk) convertInstruction.

Fixpoint forEach {A} (l : list A) (body : A -> G unit) : G unit :=
  match l with
  | [] => ret tt
  | a :: rest => body a ;; forEach rest body
  end.

Definition allInsts (f : Function) : list Inst := concat (map bb_insts (fn_blocks f)).

(** First pass of [convertFunction]: a local for every [alloca]. *)
Definition assignAllocas (f : Function) : G unit :=
  forEach (allInsts f) (fun inst =>
    if isAlloca inst then assignLocalIndex (i_id inst) I32 ;; ret tt else ret tt).

Definition getsAssignedLocal (o : Opcode) : bool :=
  match o with
  | BinaryOperator _ _ _ | ICmp _ _ _ | ZExt _ | IntToPtr _ | PtrToInt _
  | BitCast _ | PHI => true
  | _ => false
  end.

(** Second pass: the other value-producing instructions; [localIndex]
    is the counter local to [convertFunction]. *)
Fixpoint assignLocals (l : list Inst) (localIndex : Z) : G Z :=
  match l with
  | [] => ret localIndex
  | inst :: rest =>
      if getsAssignedLocal (i_op inst) then
        assignLocalIndex (i_id inst) (convertLLVMType (getType (i_op inst))) ;;
        assignLocals rest localIndex
      else if negb (bool_decide (getType (i_op inst) = Void)) then
        let localType := convertLLVMType (getType (i_op inst)) in
        if negb (bool_decide (localType = VOID)) then
          pushLocal localType ;;
          modify (fun g => set_localMap (<[i_id inst := localIndex]> (localMap_ g)) g) ;;
          assignLocals rest (u32 (localIndex + 1))
        else assignLocals rest localIndex
      else assignLocals rest localIndex
  end.

(** The branch depth recorded for a block before it is converted. *)
Definition recordDepths (positions : gmap nat nat) (blk : BasicBlock) : G unit :=
  let currentPos := positionOf positions (bb_id blk) in
  forEach (bb_insts blk) (fun inst =>
    match i_op inst with
    | Br target =>
        let targetPos := positionOf positions target in
        if (currentPos + 1 <? targetPos)%nat then
          let depth := countBetween currentPos targetPos in
          modify (fun g => set_blockMap (<[bb_id blk := depth]> (blockMap_ g)) g)
        else ret tt
    | _ => ret tt
    end).

Definition recordBlockIndices (f : Function) : G unit :=
  forEach (imap (fun i b => (i, b)) (fn_blocks f)) (fun '(i, b) =>
    modify (fun g => set_blockIndices (<[bb_id b := u32 (Z.of_nat i)]> (blockIndices_ g)) g)).

(** [convertFunction].  Every function of the module has the type
    [i32 ()], so there is no parameter and the result is [i32]. *)
Definition convertFunction (func : Function) : G bool :=
  modify (set_localMap ∅) ;;
  modify (set_blockMap ∅) ;;
  modify (set_blockIndices ∅) ;;
  modify (set_currentFunction (Some func)) ;;
  modify (set_wasmFunc (mkWasmFunction (fn_name func) [] (convertLLVMType IR.I32) [] [])) ;;
  modify (set_localMap ∅) ;;
  assignAllocas func ;;
  recordBlockIndices func ;;
  assignLocals (allInsts func) 0 ;;
  let positions := blockPositions func in
  ok <- allOf (fn_blocks func) (fun blk =>
          recordDepths positions blk ;;
          convertBasicBlock blk) ;;
  if negb ok then ret false
  else
    modify (fun g =>
      let wm := wasmModule_ g in
      let fs := wm_functions wm ++ [wasmFunc g] in
      set_wasmModule
        (mkWasmModule fs (<[fn_name func := (length fs - 1)%nat]> (functionIndices wm))
                      (memorySize wm) (memoryMaxSize wm)) g) ;;
    ret true.

End Conversion.

Definition definedFunctions (m : Module) : list (FuncId * Function) :=
  filter (fun '(_, f) => isDeclaration f = false)
         (imap (fun i f => (i, f)) (functions m)).

(** [generateWasm]; the module pointer is not null. *)
Definition generateWasm (m : Module) : G bool :=
  modify (set_functionMap ∅) ;;
  modify (set_localMap ∅) ;;
  forEach (imap (fun i '(f, _) => (i, f)) (definedFunctions m)) (fun '(funcIndex, f) =>
    modify (fun g => set_functionMap (<[f := u32 (Z.of_nat funcIndex)]> (functionMap_ g)) g)) ;;
  allOf (definedFunctions m) (fun '(_, f) => convertFunction m f).

(** *** The two output formats *)

(** [generateBinary]: the magic number, the version and a stub of the
    function and code sections, as bytes. *)
Definition generateBinary (wm : WasmModule) : list Z :=
  let n := Z.of_nat (length (wm_functions wm)) mod 256 in
  [0; 97; 115; 109; 1; 0; 0; 0; 3; 1; n; 10; 1; n]
  ++ concat (map (fun _ => [1; 0]) (wm_functions wm)).

Definition decimal (z : Z) : string :=
  NilEmpty.string_of_uint (N.to_uint (Z.to_N z)).

Definition getWasmTypeString (t : WasmType) : string :=
  match t with
  | I32 => "i32" | I64 => "i64" | F32 => "f32" | F64 => "f64" | VOID => "void"
  end.

Definition getWasmOpcodeString (o : WasmOpcode) : string :=
  match o with
  | I32_CONST => "i32.const" | I32_ADD => "i32.add" | I32_SUB => "i32.sub"
  | I32_MUL => "i32.mul" | I32_DIV_S => "i32.div_s" | I32_DIV_U => "i32.div_u"
  | I32_EQ => "i32.eq" | I32_NE => "i32.ne"
  | I32_LT_S => "i32.lt_s" | I32_LT_U => "i32.lt_u"
  | I32_GT_S => "i32.gt_s" | I32_GT_U => "i32.gt_u"
  | I32_LE_S => "i32.le_s" | I32_LE_U => "i32.le_u"
  | I32_GE_S => "i32.ge_s" | I32_GE_U => "i32.ge_u"
  | GET_LOCAL => "local.get" | SET_LOCAL => "local.set"
  | CALL => "call" | RETURN => "return" | BR => "br" | BR_IF => "br_if"
  | I32_LOAD => "i32.load" | I32_STORE => "i32.store"
  end.

Definition concatStrings (l : list string) : string :=
  fold_right String.append "" l.

Definition newline : string := String (ascii_of_nat 10) "".

Definition generateInstructionWast (inst : WasmInstruction) : string :=
  getWasmOpcodeString (opcode inst)
  +:+ concatStrings (map (fun operand => " " +:+ decimal operand) (wi_operands inst)).

Definition generateFunctionWast (func : WasmFunction) : string :=
  "  (func $" +:+ name func
  +:+ concatStrings (imap (fun i t => " (param $" +:+ Cpp.to_string i +:+ " "
                                      +:+ getWasmTypeString t +:+ ")") (params func))
  +:+ (if bool_decide (returnType func = VOID) then ""
       else " (result " +:+ getWasmTypeString (returnType func) +:+ ")")
  +:+ concatStrings (imap (fun i t => " (local $" +:+ Cpp.to_string (length (params func) + i)
                                      +:+ " " +:+ getWasmTypeString t +:+ ")") (locals func))
  +:+ newline
  +:+ concatStrings (map (fun inst => "    " +:+ generateInstructionWast inst +:+ newline)
                         (instructions func))
  +:+ "  )".

Definition generateWast (wm : WasmModule) : string :=
  "(module" +:+ newline
  +:+ "  (memory " +:+ decimal (memorySize wm)
  +:+ (if 0 <? memoryMaxSize wm then " " +:+ decimal (memoryMaxSize wm) else "")
  +:+ ")" +:+ newline
  +:+ concatStrings (map (fun func => generateFunctionWast func +:+ newline) (wm_functions wm))
  +:+ ")" +:+ newline.

End Generator.

(** ** The parser ([assembly_parser.cpp]) *)

Module Parser.

Record AssemblyParser := mkParser {
  instructions_ : list Instruction;
  labels_ : gmap string nat;
  errorMessage_ : string
}.

Definition init : AssemblyParser := mkParser [] ∅ "".

Fixpoint dropWhile (p : ascii -> bool) (s : string) : string :=
  match s with
  | String a s' => if p a then dropWhile p s' else s
  | EmptyString => s
  end.

Definition isBlank (c : ascii) : bool := Cpp.eqb_ascii c " ".

(** [trim]: blanks only. *)
Definition trim (str : string) : string :=
  String.rev (dropWhile isBlank (String.rev (dropWhile isBlank str))).

Definition removeComments (line : string) : string :=
  match Cpp.find "#" line with
  | Some commentPos => String.substring 0 commentPos line
  | None => line
  end.

(** Split at a separator; [cur] is the piece being read, reversed. *)
Fixpoint splitGo (sep : ascii -> bool) (cur : string) (s : string) : list string :=
  match s with
  | EmptyString => [String.rev cur]
  | String a s' =>
      if sep a then String.rev cur :: splitGo sep "" s'
      else splitGo sep (String a cur) s'
  end.

(** The tokens [iss >> token] yields: maximal runs without white space. *)
Definition tokenize (s : string) : list string :=
  filter (fun t => t ≠ "") (splitGo Cpp.isspace "" s).

(** The lines [std::getline] yields. *)
Definition getlines (s : string) : list string :=
  match reverse (splitGo (fun c => Cpp.eqb_ascii c (ascii_of_nat 10)) "" s) with
  | "" :: rest => reverse rest
  | l => reverse l
  end.

Definition parseInstructionType (instruction : string) : InstructionType.t :=
  let upper := Cpp.map_string Cpp.toupper instruction in
  if String.eqb upper "ADD" then InstructionType.ADD
  else if String.eqb upper "SUB" then InstructionType.SUB
  else if String.eqb upper "MUL" then InstructionType.MUL
  else if String.eqb upper "DIV" then InstructionType.DIV
  else if String.eqb upper "MOV" then InstructionType.MOV
  else if String.eqb upper "CMP" then InstructionType.CMP
  else if String.eqb upper "JMP" then InstructionType.JMP
  else if String.eqb upper "JE" then InstructionType.JE
  else if String.eqb upper "JZ" then InstructionType.JE
  else if String.eqb upper "JNE" then InstructionType.JNE
  else if String.eqb upper "JNZ" then InstructionType.JNE
  else if String.eqb upper "JL" then InstructionType.JL
  else if String.eqb upper "JG" then InstructionType.JG
  else if String.eqb upper "JLE" then InstructionType.JLE
  else if String.eqb upper "JGE" then InstructionType.JGE
  else if String.eqb upper "CALL" then InstructionType.CALL
  else if String.eqb upper "RET" then InstructionType.RET
  else if String.eqb upper "PUSH" then InstructionType.PUSH
  else if String.eqb upper "POP" then InstructionType.POP
  else InstructionType.UNKNOWN.

Definition dropLast (s : string) : string :=
  String.substring 0 (String.length s - 1) s.

Definition parseOperand (operand : string) : Operand :=
  let trimmed := trim operand in
  let trimmed := if bool_decide (Cpp.back trimmed = Some ","%char)
                 then dropLast trimmed else trimmed in
  if (2 <=? String.length trimmed)%nat && Cpp.eqb_ascii (Cpp.front trimmed) "%" then
    mkOperand OperandType.REGISTER trimmed
  else if (3 <=? String.length trimmed)%nat && Cpp.eqb_ascii (Cpp.front trimmed) "("
          && bool_decide (Cpp.back trimmed = Some ")"%char) then
    mkOperand OperandType.MEMORY trimmed
  else if Cpp.all_of (fun c => Cpp.isdigit c || Cpp.eqb_ascii c "-" || Cpp.eqb_ascii c "+")
                     trimmed then
    mkOperand OperandType.IMMEDIATE trimmed
  else mkOperand OperandType.LABEL trimmed.

Definition set_error (msg : string) (p : AssemblyParser) : AssemblyParser :=
  mkParser (instructions_ p) (labels_ p) msg.

Definition push_instruction (inst : Instruction) (p : AssemblyParser) : AssemblyParser :=
  mkParser (instructions_ p ++ [inst]) (labels_ p) (errorMessage_ p).

Definition parseLine (line : string) (p : AssemblyParser) : bool * AssemblyParser :=
  let cleanLine := trim (removeComments line) in
  if String.eqb cleanLine "" then (true, p)
  else
    match tokenize cleanLine with
    | [] => (true, p)
    | firstToken :: rest =>
        if bool_decide (Cpp.back firstToken = Some ":"%char) then
          let labelName := dropLast firstToken in
          let p := mkParser (instructions_ p)
                            (<[labelName := length (instructions_ p)]> (labels_ p))
                            (errorMessage_ p) in
          match rest with
          | mnemonic :: args =>
              let type := parseInstructionType mnemonic in
              if bool_decide (type = InstructionType.UNKNOWN)
              then (false, set_error ("Unknown instruction: " +:+ mnemonic) p)
              else (true, push_instruction
                            (mkInstruction type (map parseOperand args) labelName) p)
          | [] =>
              (true, push_instruction (mkInstruction InstructionType.LABEL [] labelName) p)
          end
        else
          let type := parseInstructionType firstToken in
          if bool_decide (type = InstructionType.UNKNOWN)
          then (false, set_error ("Unknown instruction: " +:+ firstToken) p)
          else (true, push_instruction (mkInstruction type (map parseOperand rest) "") p)
    end.

Fixpoint parseLines (lines : list string) (lineNumber : nat) (p : AssemblyParser)
  : bool * AssemblyParser :=
  match lines with
  | [] => (true, p)
  | line :: rest =>
      let lineNumber := S lineNumber in
      let '(ok, p) := parseLine line p in
      if ok then parseLines rest lineNumber p
      else (false, set_error ("Error at line " +:+ Cpp.to_string lineNumber +:+ ": "
                              +:+ errorMessage_ p) p)
  end.

Definition parseString (assemblyCode : string) (p : AssemblyParser) : bool * AssemblyParser :=
  parseLines (getlines assemblyCode) 0 p.

(** [parseFile]; [content] is what opening the file gives, [None] when it
    cannot be opened. *)
Definition parseFile (filename : string) (content : option string) (p : AssemblyParser)
  : bool * AssemblyParser :=
  match content with
  | None => (false, set_error ("Failed to open file: " +:+ filename) p)
  | Some text => parseLines (getlines text) 0 p
  end.

End Parser.

(** ** The command line driver ([main.cpp]) *)

Module Driver.

(** The files, and the paths that cannot be opened for writing. *)
Record FileSystem := mkFS {
  files : gmap string string;
  unwritable : gset string
}.

Record World := mkWorld {
  fs : FileSystem;
  stdout : list string;
  stderr : list string
}.

(** How the process ends: [main] returns a code, or an exception that
    nothing catches terminates it. *)
Inductive Exit :=
| Returned (code : Z)
| Terminated (e : Cpp.Abort).

Definition print (line : string) (w : World) : World :=
  mkWorld (fs w) (stdout w ++ [line]) (stderr w).
Definition printErr (line : string) (w : World) : World :=
  mkWorld (fs w) (stdout w) (stderr w ++ [line]).

(** [std::ofstream file(filename)] followed by the write: [None] when the
    file cannot be opened. *)
Definition writeFile (filename content : string) (f : FileSystem) : option FileSystem :=
  if bool_decide (filename ∈ unwritable f) then None
  else Some (mkFS (<[filename := content]> (files f)) (unwritable f)).

Definition bytesToString (l : list Z) : string :=
  fold_right (fun b s => String (ascii_of_nat (Z.to_nat b)) s) "" l.

(** [writeWasmToFile] and [writeWastToFile]: the result, the generator's
    error message after the call, and the file system. *)
Definition writeWasmToFile (g : Generator.WasmGenerator) (filename : string)
           (f : FileSystem) : bool * Generator.WasmGenerator * FileSystem :=
  let binary := Generator.generateBinary (Generator.wasmModule_ g) in
  match writeFile filename (bytesToString binary) f with
  | None => (false, Generator.set_errorMessage ("Failed to open file: " +:+ filename) g, f)
  | Some f' => (true, g, f')
  end.

Definition writeWastToFile (g : Generator.WasmGenerator) (filename : string)
           (f : FileSystem) : bool * Generator.WasmGenerator * FileSystem :=
  let wast := Generator.generateWast (Generator.wasmModule_ g) in
  match writeFile filename wast f with
  | None => (false, Generator.set_errorMessage ("Failed to open file: " +:+ filename) g, f)
  | Some f' => (true, g, f')
  end.

Definition printUsage (programName : string) (w : World) : World :=
  print "If output files are not specified, the input file name is used to generate .wasm/.wat."
    (print "  -h, --help     Show this help"
      (print "  --wast <file>  Output WebAssembly text"
        (print "  --wasm <file>  Output WebAssembly binary"
          (print ("Usage: " +:+ programName +:+ " [--wasm file] [--wast file] <input file>") w)))).

Definition deriveOutputName (inputFile extension : string) : string :=
  let base := match Cpp.find_last_of "." inputFile with
              | None => inputFile
              | Some dotPos => String.substring 0 dotPos inputFile
              end in
  base +:+ extension.

Record Options := mkOptions {
  inputFile : string;
  wasmFile : string;
  wastFile : string
}.

(** The argument loop: the options read, or the exit it ends in. *)
Fixpoint parseArgs (programName : string) (args : list string) (o : Options) (w : World)
  : (Options + Z) * World :=
  match args with
  | [] => (inl o, w)
  | arg :: rest =>
      if String.eqb arg "-h" || String.eqb arg "--help" then
        (inr 0, printUsage programName w)
      else if String.eqb arg "--wasm" then
        match rest with
        | [] => (inr 1, printErr "Error: --wasm option requires an output file name" w)
        | file :: rest' =>
            parseArgs programName rest' (mkOptions (inputFile o) file (wastFile o)) w
        end
      else if String.eqb arg "--wast" then
        match rest with
        | [] => (inr 1, printErr "Error: --wast option requires an output file name" w)
        | file :: rest' =>
            parseArgs programName rest' (mkOptions (inputFile o) (wasmFile o) file) w
        end
      else if negb (String.eqb arg "") && Cpp.eqb_ascii (Cpp.front arg) "-" then
        (inr 1, printUsage programName (printErr ("Error: unknown option: " +:+ arg) w))
      else parseArgs programName rest (mkOptions arg (wasmFile o) (wastFile o)) w
  end.

Section Main.

(** The default memory sizes of a [WasmModule], from the absent
    header. *)
Variables memorySize memoryMaxSize : Z.

(** What follows the argument loop, from parsing to the two outputs. *)
Definition compile (o : Options) (w : World) : Exit * World :=
  let w := print ("Parsing Assembly file: " +:+ inputFile o) w in
  let '(parsed, parser) :=
    Parser.parseFile (inputFile o) (files (fs w) !! inputFile o) Parser.init in
  if negb parsed then
    (Returned 1, printErr ("Parse error: " +:+ Parser.errorMessage_ parser) w)
  else
    match Lifter.liftToLLVM (Parser.instructions_ parser) Lifter.init with
    | Lifter.Abnormal e => (Terminated e, w)
    | Lifter.Normal false lifter =>
        (Returned 1,
         printErr ("Assembly lifter error: " +:+ Lifter.errorMessage_ lifter) w)
    | Lifter.Normal true lifter =>
        let '(generated, g) :=
          Generator.generateWasm (Lifter.module_ lifter)
                                 (Generator.init memorySize memoryMaxSize) in
        if negb generated then
          (Returned 1,
           printErr ("WebAssembly generation error: " +:+ Generator.errorMessage_ g) w)
        else
          let wasmStep :=
            if String.eqb (wasmFile o) "" then (true, g, w)
            else
              let w := print ("Outputting WebAssembly binary: " +:+ wasmFile o) w in
              let '(ok, g, f) := writeWasmToFile g (wasmFile o) (fs w) in
              (ok, g, mkWorld f (stdout w) (stderr w)) in
          let '(ok, g, w) := wasmStep in
          if negb ok then
            (Returned 1,
             printErr ("WebAssembly binary output error: " +:+ Generator.errorMessage_ g) w)
          else
            let wastStep :=
              if String.eqb (wastFile o) "" then (true, g, w)
              else
                let w := print ("Outputting WebAssembly text: " +:+ wastFile o) w in
                let '(ok, g, f) := writeWastToFile g (wastFile o) (fs w) in
                (ok, g, mkWorld f (stdout w) (stderr w)) in
            let '(ok, g, w) := wastStep in
            if negb ok then
              (Returned 1,
               printErr ("WebAssembly text output error: " +:+ Generator.errorMessage_ g) w)
            else
              (Returned 0,
               print "WebAssembly conversion completed."
                 (print "----------------------------------------"
                   (print (Generator.generateWast (Generator.wasmModule_ g))
                     (print "----------------------------------------"
                       (print "Generated WebAssembly text:" w)))))
    end.

(** [main]; [argv] starts with the program name. *)
Definition main (argv : list string) (w : World) : Exit * World :=
  match argv with
  | [] => (Returned 1, printUsage "" w)
  | [programName] => (Returned 1, printUsage programName w)
  | programName :: args =>
      match parseArgs programName args (mkOptions "" "" "") w with
      | (inr code, w) => (Returned code, w)
      | (inl o, w) =>
          if String.eqb (inputFile o) "" then
            (Returned 1,
             printUsage programName (printErr "Error: input file is not specified" w))
          else
            let '(o, w) :=
              if String.eqb (wasmFile o) "" && String.eqb (wastFile o) "" then
                let wasm := deriveOutputName (inputFile o) ".wasm" in
                let wat := deriveOutputName (inputFile o) ".wat" in
                (mkOptions (inputFile o) wasm wat,
                 print ("Output files are not specified, using " +:+ wasm
                        +:+ " and " +:+ wat) w)
              else (o, w) in
            compile o w
      end
  end.

End Main.

End Driver.

(** ** What is observed of a lifter state *)

Module LifterView.
Import IR Lifter.

(** The block a reference leads to. *)
Definition lookupBlock (m : Module) (r : BlockRef) : option BasicBlock :=
  functions m !! parent r ≫= findBlock (block r).

Definition withInsts (g : list Inst -> list Inst) (b : BasicBlock) : BasicBlock :=
  mkBlock (bb_id b) (bb_name b) (g (bb_insts b)).

(** The instructions of the builder's block, slot allocations left out:
    these are all inserted at the front of the entry block. *)
Definition body (s : AssemblyLifter) : list Inst :=
  match builder_ s ≫= lookupBlock (module_ s) with
  | Some b => filter (fun i => isAlloca i = false) (bb_insts b)
  | None => []
  end.

(** The builder has an insertion block and the module holds it. *)
Definition positioned (s : AssemblyLifter) : Prop :=
  is_Some (builder_ s ≫= lookupBlock (module_ s)).

#[global] Instance positioned_dec s : Decision (positioned s).
Proof. unfold positioned. apply _. Defined.

(** [s'] is [s] with [new] appended to the builder's block, the builder
    and the tables of blocks and functions untouched. *)
Record extends (s s' : AssemblyLifter) (new : list Inst) : Prop := mkExtends {
  ext_body : body s' = body s ++ new;
  ext_builder : builder_ s' = builder_ s;
  ext_blocks : blocks_ s' = blocks_ s;
  ext_functions : functions_ s' = functions_ s;
  ext_error : errorMessage_ s' = errorMessage_ s;
  ext_counter : fallthroughCounter_ s' = fallthroughCounter_ s;
  ext_positioned : positioned s';
  ext_next : (nextInst (module_ s) <= nextInst (module_ s'))%nat
}.

(** What [POP] appends whatever its operand: the load of the stack
    pointer, the load through it and the pointer moved up by four. *)
Definition popSequence (k : nat) (sp : Value) : list Inst :=
  [ mkInst k "stack_ptr_val" (Load sp);
    mkInst (k + 1) "stack_addr" (IntToPtr (InstValue k));
    mkInst (k + 2) "stack_val" (Load (InstValue (k + 1)));
    mkInst (k + 3) "new_stack_ptr" (BinaryOperator Add (InstValue k) (ConstantInt 4));
    mkInst (k + 4) "" (Store (InstValue (k + 3)) sp) ]%nat.

(** One value per flag. *)
Record Flags (A : Type) := mkFlags { ZF : A; LT : A; GT : A; LE : A; GE : A }.
Arguments mkFlags {A}. Arguments ZF {A}. Arguments LT {A}.
Arguments GT {A}. Arguments LE {A}. Arguments GE {A}.

(** The slot table with the five flag slots entered, [ZF] first. *)
Definition withFlags (slots : Flags Value) (regs : gmap string Value) : gmap string Value :=
  <["FLAG_GE" := GE slots]> (<["FLAG_LE" := LE slots]> (<["FLAG_GT" := GT slots]>
    (<["FLAG_LT" := LT slots]> (<["FLAG_ZF" := ZF slots]> regs)))).

(** What [CMP] appends: the five comparisons, then for each flag the
    zero extension and the store into the flag's slot. *)
Definition compareCode (n : nat) (l r : Value) (z w : Flags nat) (slots : Flags Value)
  : list Inst :=
  [ mkInst n "cmp_eq" (ICmp ICMP_EQ l r);
    mkInst (n + 1) "cmp_lt" (ICmp ICMP_SLT l r);
    mkInst (n + 2) "cmp_gt" (ICmp ICMP_SGT l r);
    mkInst (n + 3) "cmp_le" (ICmp ICMP_SLE l r);
    mkInst (n + 4) "cmp_ge" (ICmp ICMP_SGE l r);
    mkInst (ZF z) "zf_int" (ZExt (InstValue n));
    mkInst (ZF w) "" (Store (InstValue (ZF z)) (ZF slots));
    mkInst (LT z) "lt_int" (ZExt (InstValue (n + 1)));
    mkInst (LT w) "" (Store (InstValue (LT z)) (LT slots));
    mkInst (GT z) "gt_int" (ZExt (InstValue (n + 2)));
    mkInst (GT w) "" (Store (InstValue (GT z)) (GT slots));
    mkInst (LE z) "le_int" (ZExt (InstValue (n + 3)));
    mkInst (LE w) "" (Store (InstValue (LE z)) (LE slots));
    mkInst (GE z) "ge_int" (ZExt (InstValue (n + 4)));
    mkInst (GE w) "" (Store (InstValue (GE z)) (GE slots)) ]%nat.

(** What [CMP] appends when both operands are integer constants: the
    builder has folded the comparisons and the extensions. *)
Definition foldedCode (a b : Z) (w : Flags nat) (slots : Flags Value) : list Inst :=
  [ mkInst (ZF w) "" (Store (ConstantInt (Int32.of_bool (a =? b))) (ZF slots));
    mkInst (LT w) "" (Store (ConstantInt (Int32.of_bool (a <? b))) (LT slots));
    mkInst (GT w) "" (Store (ConstantInt (Int32.of_bool (b <? a))) (GT slots));
    mkInst (LE w) "" (Store (ConstantInt (Int32.of_bool (a <=? b))) (LE slots));
    mkInst (GE w) "" (Store (ConstantInt (Int32.of_bool (b <=? a))) (GE slots)) ].

Definition bothConstant (l r : Value) : bool :=
  match l, r with
  | ConstantInt _, ConstantInt _ => true
  | _, _ => false
  end.

End LifterView.

(** ** What is observed of the main loop of the lifter *)

Module LoopView.
Import IR Lifter.
Local Open Scope lift_scope.

(** The loop of [liftToLLVM] run over the instructions before a given
    one: the locals it arrives with, [None] once an instruction fails. *)
Fixpoint liftPrefix (callTargets : gmap string bool) (instructions : list Instruction)
         (i : nat) (l : Locals) : M (option Locals) :=
  match instructions with
  | [] => ret (Some l)
  | inst :: rest =>
      l' <- openLabel callTargets inst l ;;
      ok <- liftInstruction inst i ;;
      if ok then liftPrefix callTargets rest (S i) l' else ret None
  end.

(** [name] is the label operand of some [CALL] of the stream. *)
Definition isCallOperand (instructions : list Instruction) (name : string) : bool :=
  existsb (fun inst => isCallSink inst && String.eqb (op_value (operand inst 0)) name)
          instructions.

Inductive Opening :=
| OpensFunction (name : string)
| OpensBlock (name : string)
| Continues.

(** What the instruction at position [i] of the stream opens, read off
    the stream alone. *)
Definition opening (instructions : list Instruction) (i : nat) (inst : Instruction)
  : Opening :=
  let name := label inst in
  if String.eqb name "" then
    if (i =? 0)%nat then OpensFunction "main" else Continues
  else if String.eqb name "main" || String.eqb name "start"
          || isCallOperand instructions name || (i =? 0)%nat
  then OpensFunction name
  else OpensBlock name.

(** The function [f] of the module ends with the empty block [b] named
    [name]. *)
Definition endsWithEmptyBlock (m : Module) (f : FuncId) (b : BlockId) (name : string)
  : Prop :=
  ∃ fn, functions m !! f = Some fn ∧ last (fn_blocks fn) = Some (mkBlock b name []).

(** A name cut to the length a value of a function may bear. *)
Definition cut (name : string) : string := String.substring 0 MaxNameSize name.

(** [given] is the name a value created under [name] gets in a function
    whose symbol table is [t]: [name] itself, cut to the length allowed,
    when no value of the function bears it; otherwise that name followed by
    the first number, beyond those the table has handed out, that makes a
    name no value bears. *)
Definition namedAfter (t : ValueSymbolTable) (name given : string) : Prop :=
  vmap t !! given = None
  ∧ match vmap t !! cut name with
    | None => given = cut name
    | Some _ =>
        ∃ k, (LastUnique t < k)%nat
             ∧ given = cut name +:+ Cpp.to_string k
             ∧ forall j, (LastUnique t < j < k)%nat ->
                 is_Some (vmap t !! (cut name +:+ Cpp.to_string j))
    end.

(** The fresh block [b], last of the function [f] of [m'] and empty, was
    created under [name] when the symbol table of [f] was [t]: it bears the
    name that follows from [t], and the symbol table of [f] in [m'] holds it
    under that name. *)
Definition freshBlock (t : ValueSymbolTable) (m' : Module) (f : FuncId) (b : BlockId)
           (name : string) : Prop :=
  ∃ given,
    endsWithEmptyBlock m' f b given
    ∧ namedAfter t name given
    ∧ vmap (getValueSymbolTable m' f) = <[given := BlockValue b]> (vmap t).

(** The step from [l] and [s] to [l'] and [s'] opens what [o] says.  A
    function is opened with a fresh block created under its own name, which
    is its entry block when the function had no block, the tables of blocks
    and slots empty; the function is the one [functions_] holds under the
    name, or a new one, without blocks and with an empty symbol table.  A
    block is opened in the current function, the one of the loop and of the
    builder, and is either the one a jump has already entered in the table
    of blocks or a fresh one created under the label. *)
Definition opened (o : Opening) (l : Locals) (s : AssemblyLifter)
           (l' : Locals) (s' : AssemblyLifter) : Prop :=
  match o with
  | OpensFunction name =>
      ∃ f fn,
        l' = mkLocals (Some f) false
        ∧ functions_ s' !! name = Some f
        ∧ functions (module_ s') !! f = Some fn
        ∧ fn_name fn = name
        ∧ match functions_ s !! name with
          | Some f0 =>
              f = f0
              ∧ freshBlock (getValueSymbolTable (module_ s) f) (module_ s') f
                           (nextBlock (module_ s)) name
          | None =>
              f = length (functions (module_ s))
              ∧ fn_blocks fn = [mkBlock (nextBlock (module_ s)) (cut name) []]
              ∧ vmap (getValueSymbolTable (module_ s') f)
                = {[ cut name := BlockValue (nextBlock (module_ s)) ]}
          end
        ∧ builder_ s' = Some (mkRef f (nextBlock (module_ s)))
        ∧ blocks_ s' = ∅
        ∧ registers_ s' = ∅
  | OpensBlock name =>
      ∃ f r,
        currentFunc l = Some f
        ∧ parent <$> builder_ s = Some f
        ∧ l' = l
        ∧ parent r = f
        ∧ builder_ s' = Some r
        ∧ blocks_ s' !! name = Some r
        ∧ match blocks_ s !! name with
          | Some r0 => r = r0 ∧ module_ s' = module_ s
          | None => block r = nextBlock (module_ s)
                    ∧ freshBlock (getValueSymbolTable (module_ s) f) (module_ s') f
                                 (block r) name
          end
  | Continues => l' = l ∧ s' = s
  end.

(** The table of functions names functions of the module. *)
Definition tablesAgree (s : AssemblyLifter) : Prop :=
  map_Forall (fun name g => fn_name <$> functions (module_ s) !! g = Some name)
             (functions_ s).

(** The builder and the table of blocks are inside the function [f] of
    the module. *)
Definition inFunction (f : FuncId) (s : AssemblyLifter) : Prop :=
  parent <$> builder_ s = Some f
  ∧ is_Some (functions (module_ s) !! f)
  ∧ map_Forall (fun _ r => parent r = f) (blocks_ s)
  ∧ tablesAgree s.

(** The computation stays inside [f], and what it returns satisfies
    [φ]. *)
Definition stays {A} (f : FuncId) (c : M A) (φ : A -> Prop) : Prop :=
  forall s, inFunction f s ->
    match c s with
    | Normal a s' => inFunction f s' ∧ φ a
    | Abnormal _ => True
    end.

(** What holds when the loop is about to handle instruction [i]. *)
Definition loopInvariant (i : nat) (l : Locals) (s : AssemblyLifter) : Prop :=
  if (i =? 0)%nat then l = mkLocals None true ∧ s = Lifter.init
  else isFirstLabel l = false ∧ ∃ f, currentFunc l = Some f ∧ inFunction f s.

End LoopView.

(** ** What is observed of a generator state *)

Module GeneratorView.
Import IR Wasm Generator.

(** The local index recorded for a value, if any. *)
Definition recorded (g : WasmGenerator) (v : Value) : option Z :=
  match v with
  | InstValue id => localMap_ g !! id
  | _ => None
  end.

(** The code of the function under construction. *)
Definition code (g : WasmGenerator) : list WasmInstruction := instructions (wasmFunc g).

(** The generator with the instructions [l] at the end of the code of the
    function under construction, and nothing else changed. *)
Definition pushedAll (l : list WasmInstruction) (g : WasmGenerator) : WasmGenerator :=
  mkGenerator (wasmModule_ g) (functionMap_ g) (localMap_ g) (blockMap_ g)
              (blockIndices_ g) (currentFunction_ g) (errorMessage_ g)
              (mkWasmFunction (name (wasmFunc g)) (params (wasmFunc g))
                              (returnType (wasmFunc g)) (locals (wasmFunc g))
                              (code g ++ l)).

(** The generator with one more instruction in the function under
    construction. *)
Definition pushed (i : WasmInstruction) (g : WasmGenerator) : WasmGenerator :=
  pushedAll [i] g.

(** The computation adds instructions that satisfy [P] to the code of the
    function under construction, and removes none. *)
Definition appendsOnly {A} (P : WasmInstruction -> Prop) (c : G A) : Prop :=
  forall g, ∃ extra, code (snd (c g)) = code g ++ extra ∧ Forall P extra.









(** The computation returns [a] from every state. *)
Definition always {A} (c : G A) (a : A) : Prop := forall g, fst (c g) = a.


End GeneratorView.

(** ** What is observed of a run of the command line *)

Module DriverView.
Import Driver.

(** The components of a run, in the order [compile] calls them. *)
Inductive Component :=
| ParserComponent
| LifterComponent
| LowererComponent
| BinaryOutput
| TextOutput.

(** The output [file] is asked for and cannot be opened. *)
Definition cannotWrite (file : string) (f : FileSystem) : bool :=
  negb (String.eqb file "") && bool_decide (file ∈ unwritable f).

Section Run.

Variables memorySize memoryMaxSize : Z.

(** The module the lowerer hands to the outputs, when the parser, the
    lifter and the lowerer all succeed. *)
Definition generatedModule (o : Options) (w : World) : option Wasm.WasmModule :=
  let '(parsed, parser) :=
    Parser.parseFile (inputFile o) (files (fs w) !! inputFile o) Parser.init in
  if parsed then
    match Lifter.liftToLLVM (Parser.instructions_ parser) Lifter.init with
    | Lifter.Normal true lifter =>
        let '(generated, g) :=
          Generator.generateWasm (Lifter.module_ lifter)
                                 (Generator.init memorySize memoryMaxSize) in
        if generated then Some (Generator.wasmModule_ g) else None
    | _ => None
    end
  else None.

(** The first component that fails, each one run on what the ones before
    it produced; the lifter fails when it returns false and when it
    throws. *)
Definition firstFailure (o : Options) (w : World) : option Component :=
  let '(parsed, parser) :=
    Parser.parseFile (inputFile o) (files (fs w) !! inputFile o) Parser.init in
  if parsed then
    match Lifter.liftToLLVM (Parser.instructions_ parser) Lifter.init with
    | Lifter.Normal true lifter =>
        if fst (Generator.generateWasm (Lifter.module_ lifter)
                                       (Generator.init memorySize memoryMaxSize))
        then if cannotWrite (wasmFile o) (fs w) then Some BinaryOutput
             else if cannotWrite (wastFile o) (fs w) then Some TextOutput
             else None
        else Some LowererComponent
    | _ => Some LifterComponent
    end
  else Some ParserComponent.

End Run.

(** What the argument loop reads off the arguments: the options, or the
    code the run stops with. *)
Fixpoint readArguments (args : list string) (o : Options) : Options + Z :=
  match args with
  | [] => inl o
  | arg :: rest =>
      if String.eqb arg "-h" || String.eqb arg "--help" then inr 0
      else if String.eqb arg "--wasm" then
        match rest with
        | [] => inr 1
        | file :: rest' => readArguments rest' (mkOptions (inputFile o) file (wastFile o))
        end
      else if String.eqb arg "--wast" then
        match rest with
        | [] => inr 1
        | file :: rest' => readArguments rest' (mkOptions (inputFile o) (wasmFile o) file)
        end
      else if negb (String.eqb arg "") && Cpp.eqb_ascii (Cpp.front arg) "-" then inr 1
      else readArguments rest (mkOptions arg (wasmFile o) (wastFile o))
  end.

(** What a command line asks for, read off the command line alone: the
    options the components are run with, the output names derived from the
    input name when none is given, or the code of a run that stops in its
    arguments (no argument at all, a request for help, an option without
    its file name, an unknown option, no input file). *)
Definition request (argv : list string) : Options + Z :=
  match argv with
  | [] | [_] => inr 1
  | _ :: args =>
      match readArguments args (mkOptions "" "" "") with
      | inr code => inr code
      | inl o =>
          if String.eqb (inputFile o) "" then inr 1
          else if String.eqb (wasmFile o) "" && String.eqb (wastFile o) ""
               then inl (mkOptions (inputFile o)
                                   (deriveOutputName (inputFile o) ".wasm")
                                   (deriveOutputName (inputFile o) ".wat"))
               else inl o
      end
  end.


End DriverView.

(** ** Sample programs *)

Module Samples.
Import IR Lifter.

Definition reg (name : string) : Operand := mkOperand OperandType.REGISTER name.
Definition imm (text : string) : Operand := mkOperand OperandType.IMMEDIATE text.
Definition mem (text : string) : Operand := mkOperand OperandType.MEMORY text.
Definition lbl (name : string) : Operand := mkOperand OperandType.LABEL name.

(** The instructions the parser reads from a source text. *)
Definition parse (source : string) : list Instruction :=
  Parser.instructions_ (snd (Parser.parseString source Parser.init)).

(** Parsing and lifting with a fresh lifter. *)
Definition lift (source : string) : Outcome bool :=
  liftToLLVM (parse source) init.

Definition stateOf {A} (o : Outcome A) : AssemblyLifter :=
  match o with
  | Normal _ s => s
  | Abnormal _ => init
  end.

Definition moduleOf (source : string) : Module := module_ (stateOf (lift source)).

(** The lowered functions of a module: name and instructions. *)
Definition lower (m : Module) : bool * list (string * list Wasm.WasmInstruction) :=
  let '(ok, g) := Generator.generateWasm m (Generator.init 1 0) in
  (ok, map (fun f => (Wasm.name f, Wasm.instructions f))
           (Wasm.wm_functions (Generator.wasmModule_ g))).

(** The operations of a block of a function, by position. *)
Definition blockOps (m : Module) (function : string) (position : nat) : list Opcode :=
  match findFunction function m with
  | Some f =>
      match fn_blocks f !! position with
      | Some b => map i_op (bb_insts b)
      | None => []
      end
  | None => []
  end.

(** The instructions of a block of a function, by position. *)
Definition blockInsts (m : Module) (function : string) (position : nat) : list Inst :=
  match findFunction function m with
  | Some f =>
      match fn_blocks f !! position with
      | Some b => bb_insts b
      | None => []
      end
  | None => []
  end.



(** The names of the blocks of a function, in order. *)
Definition blocksOf (m : Module) (function : string) : list string :=
  match findFunction function m with
  | Some f => blockNames f
  | None => []
  end.

(** A world with one source file, and paths that cannot be written. *)
Definition world (path source : string) (locked : gset string) : Driver.World :=
  Driver.mkWorld (Driver.mkFS {[ path := source ]} locked) [] [].

(** The lifter once the label line [main:] has opened the function. *)
Definition atMain : AssemblyLifter :=
  stateOf (openLabel ∅ (mkInstruction InstructionType.LABEL [] "main")
                     (mkLocals None true) init).

(** [atMain] after the operand [%eax] has been evaluated. *)
Definition afterEax : AssemblyLifter := stateOf (getOperandValue (reg "%eax") atMain).

Definition popImmediate : Instruction :=
  mkInstruction InstructionType.POP [imm "5"] "".

Definition cmpEaxFive : Instruction :=
  mkInstruction InstructionType.CMP [reg "%eax"; imm "5"] "".

(** [1] and [2] differ, so [JNE] ought to reach [differ] and return 20. *)
Definition jneSource : string :=
"main:
  MOV %eax, 1
  CMP %eax, 2
  JNE differ
  MOV %eax, 10
  RET
differ:
  MOV %eax, 20
  RET".

Definition movFromMemorySource : string :=
"main:
  MOV %eax, (%ebx)
  RET".

(** An instruction after the return of the entry block. *)
Definition afterReturnSource : string :=
"main:
  RET
  MOV %eax, 1".

(** A memory operand that is neither a sum, a register nor a number. *)
Definition badAddressSource : string :=
"main:
  MOV %eax, (foo)
  RET".

(** A backward jump. *)
Definition loopSource : string :=
"main:
  MOV %eax, 1
loop:
  ADD %eax, 1
  JMP loop".

(** A jump over two blocks: [a] is block 1 and [b] block 3 of [main]. *)
Definition forwardSource : string :=
"main:
  CMP %eax, 0
  JE a
  CMP %eax, 1
  JE b
  RET
a:
  JMP b
b:
  RET".

(** A store to a constant address. *)
Definition constantAddressSource : string :=
"main:
  MOV (100), 1
  RET".

(** An unlabelled first instruction, then the first label of the text. *)
Definition prologueSource : string :=
"  MOV %eax, 1
foo:
  RET".

(** The three instructions the parser reads in [prologueSource]. *)
Definition movEaxOne : Instruction :=
  mkInstruction InstructionType.MOV [reg "%eax"; imm "1"] "".

Definition fooLabel : Instruction :=
  mkInstruction InstructionType.LABEL [] "foo".

Definition plainRet : Instruction :=
  mkInstruction InstructionType.RET [] "".

(** The label [main] twice: the second opens the function again, with a
    second block created under the same name. *)
Definition twoMainsSource : string :=
"main:
  RET
main:
  RET".

(** A label met after two comparisons of registers, the second of which
    has made the symbol table hand out numbers. *)
Definition renamedLabelSource : string :=
"main:
  CMP %eax, %ebx
  CMP %eax, %ebx
cmp_eq:
  RET".

(** A program that lifts and lowers. *)
Definition returnOneSource : string :=
"main:
  MOV %eax, 1
  RET".

(** A directory holding [prog.s] where [prog.wat] cannot be opened. *)
Definition lockedTextWorld : Driver.World :=
  world "prog.s" returnOneSource {[ "prog.wat" ]}.

End Samples.

(** ** What is observed of a parser state *)

Module ParserView.
Import Parser.

(** The table of labels leads to instructions that carry the label. *)
Definition labelsPoint (p : AssemblyParser) : Prop :=
  forall name i, labels_ p !! name = Some i ->
    ∃ inst, instructions_ p !! i = Some inst ∧ label inst = name.

(** Every character of the string is a blank. *)
Definition blanks (s : string) : Prop := Cpp.all_of isBlank s = true.

End ParserView.

(** ** What is observed of the lifter as a whole *)

Module LifterExtraView.
Import IR Lifter.

(** The operand counts each instruction type is lifted with. *)
Definition acceptsOperandCount (t : InstructionType.t) (n : nat) : bool :=
  match t with
  | InstructionType.ADD | InstructionType.SUB
  | InstructionType.MUL | InstructionType.DIV => (2 <=? n)%nat
  | InstructionType.MOV | InstructionType.CMP => (n =? 2)%nat
  | InstructionType.JMP | InstructionType.JE | InstructionType.JNE
  | InstructionType.JL | InstructionType.JG | InstructionType.JLE
  | InstructionType.JGE | InstructionType.CALL
  | InstructionType.PUSH | InstructionType.POP => (n =? 1)%nat
  | InstructionType.RET | InstructionType.LABEL => true
  | InstructionType.UNKNOWN => false
  end.

(** The blocks of each function have distinct identities, all handed out
    by the module's counter. *)
Definition wellNumbered (m : Module) : Prop :=
  forall f fn, functions m !! f = Some fn ->
    NoDup (map bb_id (fn_blocks fn))
    ∧ Forall (fun b => (bb_id b < nextBlock m)%nat) (fn_blocks fn).

(** The computation keeps a property of the module. *)
Definition keepsModule (J : Module -> Prop) {A} (c : M A) : Prop :=
  forall s, J (module_ s) ->
    match c s with
    | Normal _ s' => J (module_ s')
    | Abnormal _ => True
    end.

(** What [PUSH] appends once its operand is evaluated: the load of the
    stack pointer, the pointer moved down by four and stored back, and the
    store of the value through the new pointer. *)
Definition pushSequence (k : nat) (sp value : Value) : list Inst :=
  [ mkInst k "stack_ptr_val" (Load sp);
    mkInst (k + 1) "new_stack_ptr" (BinaryOperator Sub (InstValue k) (ConstantInt 4));
    mkInst (k + 2) "" (Store (InstValue (k + 1)) sp);
    mkInst (k + 3) "stack_addr" (IntToPtr (InstValue (k + 1)));
    mkInst (k + 4) "" (Store value (InstValue (k + 3))) ]%nat.

(** The flag read by the conditional jumps that go to their target when
    the flag is set. *)
Definition jumpFlag (t : InstructionType.t) : option string :=
  match t with
  | InstructionType.JE => Some "ZF"
  | InstructionType.JL => Some "LT"
  | InstructionType.JG => Some "GT"
  | InstructionType.JLE => Some "LE"
  | InstructionType.JGE => Some "GE"
  | _ => None
  end.

(** What such a jump appends: the load of the flag, its comparison with
    zero and the branch, to [target] when the flag is not zero and to
    [fall] when it is. *)
Definition jumpCode (n : nat) (flag : string) (slot : Value) (target fall : BlockId)
  : list Inst :=
  [ mkInst n (flag +:+ "_val") (Load slot);
    mkInst (n + 1) (flag +:+ "_nz") (ICmp ICMP_NE (InstValue n) (ConstantInt 0));
    mkInst (n + 2) "" (CondBr (InstValue (n + 1)) target fall) ]%nat.

(** The instructions of the block [r], slot allocations left out. *)
Definition bodyAt (s : AssemblyLifter) (r : BlockRef) : list Inst :=
  match LifterView.lookupBlock (module_ s) r with
  | Some b => filter (fun i => isAlloca i = false) (bb_insts b)
  | None => []
  end.

(** The computation returns from every state, with a result and a state
    that satisfy [Q]. *)
Definition ensures {A} (c : M A) (Q : A -> AssemblyLifter -> Prop) : Prop :=
  forall s, ∃ a s', c s = Normal a s' ∧ Q a s'.

(** The block ends in a terminator. *)
Definition terminated (b : BasicBlock) : Prop := is_Some (getTerminator b).

(** A block of the module after close-out next to the block it was: the
    same block, or the block with instructions appended and a terminator
    at its end. *)
Definition closes (b b' : BasicBlock) : Prop :=
  bb_id b' = bb_id b
  ∧ bb_name b' = bb_name b
  ∧ (b' = b ∨ (terminated b' ∧ ∃ extra, bb_insts b' = bb_insts b ++ extra)).

(** The functions of a module with instructions appended to the block
    [b] of the function [f]. *)
Definition appended (f : FuncId) (b : BlockId) (extra : list Inst) (fs : list Function)
  : list Function :=
  alter (mapBlock b (fun l => l ++ extra)) f fs.

(** The symbol tables once a value of the function [f] has been named. *)
Definition tablesAfter (f : FuncId) (name : string) (V : Value)
           (tables : gmap nat ValueSymbolTable) : gmap nat ValueSymbolTable :=
  snd (setName f name V (mkModule [] 0%nat 0%nat tables)).

Definition closesModule (m m' : Module) : Prop :=
  Forall2 (fun fn fn' => Forall2 closes (fn_blocks fn) (fn_blocks fn'))
          (functions m) (functions m').

End LifterExtraView.

(** ** What is observed of the lowerer as a whole *)

Module GeneratorExtraView.
Import IR Wasm Generator.

(** The computation leaves the module built so far and the name of the
    function under construction as they are. *)
Definition keepsHeader {A} (c : G A) : Prop :=
  forall g, wasmModule_ (snd (c g)) = wasmModule_ g
            ∧ name (wasmFunc (snd (c g))) = name (wasmFunc g).

(** The nesting depth of parentheses after reading [s] from depth [d];
    [None] when a closing parenthesis has no opening one. *)
Fixpoint depthAfter (d : nat) (s : string) : option nat :=
  match s with
  | EmptyString => Some d
  | String c s' =>
      if Cpp.eqb_ascii c "(" then depthAfter (S d) s'
      else if Cpp.eqb_ascii c ")" then
        match d with
        | O => None
        | S d' => depthAfter d' s'
        end
      else depthAfter d s'
  end.

(** Every parenthesis of the text is closed, none is closed that was not
    opened. *)
Definition balanced (s : string) : Prop := depthAfter 0 s = Some 0%nat.

(** The string has no parenthesis. *)
Definition plain (s : string) : Prop :=
  Cpp.all_of (fun c => negb (Cpp.eqb_ascii c "(") && negb (Cpp.eqb_ascii c ")")) s = true.

End GeneratorExtraView.

(** ** What is observed of the command line as a whole *)

Module DriverExtraView.
Import Driver.

(** The files after an output asked for under [file] has been written;
    no output is asked for under the empty name. *)
Definition written (file content : string) (fs : gmap string string) : gmap string string :=
  if String.eqb file "" then fs else <[file := content]> fs.

(** An argument that is no option: it does not start with a dash. *)
Definition positional (arg : string) : Prop := Cpp.front arg ≠ "-"%char.

End DriverExtraView.

(** ** More sample inputs *)

Module MoreSamples.
Import Samples.

(** A text whose third line starts with a token that is no instruction. *)
Definition unknownMnemonicSource : string :=
"main:
  MOV %eax, 1
  FOO %eax
  RET".

(** A [MOV] with one operand. *)
Definition movOneOperand : Instruction :=
  mkInstruction InstructionType.MOV [reg "%eax"] "".

Definition jumpIfEqual : Instruction :=
  mkInstruction InstructionType.JE [lbl "done"] "".

Definition jumpAlways : Instruction :=
  mkInstruction InstructionType.JMP [lbl "done"] "".

Definition pushFive : Instruction :=
  mkInstruction InstructionType.PUSH [imm "5"] "".

(** Two modules of one function each. *)
Definition oneEmptyFunction : Wasm.WasmModule :=
  Wasm.mkWasmModule [Wasm.mkWasmFunction "a" [] Wasm.I32 [] []] ∅ 1 0.

Definition oneReturningFunction : Wasm.WasmModule :=
  Wasm.mkWasmModule
    [Wasm.mkWasmFunction "b" [] Wasm.I32 [Wasm.I32]
       [Wasm.op1 Wasm.I32_CONST 7; Wasm.op0 Wasm.RETURN]] ∅ 1 0.

(** The options of a run on [prog.s] with both outputs named. *)
Definition bothOutputs : Driver.Options :=
  Driver.mkOptions "prog.s" "prog.wasm" "prog.wat".

(** A directory holding [prog.s], every path writable. *)
Definition openWorld : Driver.World := world "prog.s" returnOneSource ∅.

End MoreSamples.

(** * Properties *)

(** ** What the builder appends to its block *)

Module LifterFacts.
Import IR Lifter LifterView.
Local Open Scope lift_scope.

Lemma findBlock_mapBlock b e g fn :
  findBlock b (mapBlock e g fn)
  = if Nat.eqb b e then withInsts g <$> findBlock b fn else findBlock b fn.
Proof.
  unfold findBlock, mapBlock. simpl.
  induction (fn_blocks fn) as [|blk l IH]; simpl.
  - by destruct (Nat.eqb b e).
  - destruct (Nat.eqb (bb_id blk) e) eqn:He; simpl.
    + destruct (Nat.eqb (bb_id blk) b) eqn:Hb.
      * apply Nat.eqb_eq in He, Hb. subst.
        rewrite Nat.eqb_refl. reflexivity.
      * exact IH.
    + destruct (Nat.eqb (bb_id blk) b) eqn:Hb.
      * apply Nat.eqb_eq in Hb. subst. rewrite He. reflexivity.
      * exact IH.
Qed.

Lemma lookupBlock_onBlock m r g r' :
  lookupBlock (onBlock r g m) r'
  = if decide (r' = r) then withInsts g <$> lookupBlock m r' else lookupBlock m r'.
Proof.
  unfold lookupBlock, onBlock.
  destruct r as [f e], r' as [f' b]. cbn [functions parent block].
  destruct (decide (f' = f)) as [->|Hf].
  - rewrite list_lookup_alter_eq.
    destruct (functions m !! f) as [fn|] eqn:Hfn; cbn [fmap option_fmap option_map mbind option_bind].
    + rewrite findBlock_mapBlock.
      destruct (Nat.eqb b e) eqn:Hbe.
      * apply Nat.eqb_eq in Hbe. subst. by rewrite decide_True.
      * apply Nat.eqb_neq in Hbe. rewrite decide_False; [done|congruence].
    + by destruct (decide _).
  - rewrite list_lookup_alter_ne by done.
    rewrite decide_False; [done|congruence].
Qed.

Lemma extends_refl s : positioned s -> extends s s [].
Proof. intros. split; auto. by rewrite app_nil_r. Qed.

Lemma extends_trans s1 s2 s3 a b :
  extends s1 s2 a -> extends s2 s3 b -> extends s1 s3 (a ++ b).
Proof.
  intros [] []. split; try congruence; try lia.
  rewrite app_assoc. congruence.
Qed.

Lemma body_insert s r g m' :
  functions m' = functions (module_ s) ->
  body (set_module (onBlock r g m') s)
  = match builder_ s ≫= lookupBlock (module_ s) with
    | Some b =>
        filter (fun i => isAlloca i = false)
               (if decide (builder_ s = Some r) then g (bb_insts b) else bb_insts b)
    | None => []
    end.
Proof.
  intros Hf. unfold body. cbn [builder_ module_ set_module].
  destruct (builder_ s) as [cur|]; [|done]. cbn [mbind option_bind].
  rewrite lookupBlock_onBlock.
  assert (lookupBlock m' cur = lookupBlock (module_ s) cur) as ->
    by (unfold lookupBlock; by rewrite Hf).
  destruct (decide (cur = r)) as [->|Hne].
  - destruct (lookupBlock _ r); [|done]. by rewrite decide_True.
  - destruct (lookupBlock _ cur); [|done]. rewrite decide_False by congruence. done.
Qed.

Lemma positioned_insert s r g m' :
  functions m' = functions (module_ s) ->
  positioned s -> positioned (set_module (onBlock r g m') s).
Proof.
  intros Hf. unfold positioned. cbn [builder_ module_ set_module].
  destruct (builder_ s) as [cur|]; [|done]. cbn [mbind option_bind].
  rewrite lookupBlock_onBlock.
  assert (lookupBlock m' cur = lookupBlock (module_ s) cur) as ->
    by (unfold lookupBlock; by rewrite Hf).
  intros [b Hb]. rewrite Hb. destruct (decide _); eauto.
Qed.

(** Naming a value changes the symbol tables only. *)
Lemma body_named s f name v m :
  body (set_module (named f name v m) s) = body (set_module m s).
Proof. reflexivity. Qed.

Lemma positioned_named s f name v m :
  positioned (set_module m s) -> positioned (set_module (named f name v m) s).
Proof. exact id. Qed.

Lemma lookupBlock_named f name v m r :
  lookupBlock (named f name v m) r = lookupBlock m r.
Proof. reflexivity. Qed.

(** An instruction created through the builder lands at the end of the
    builder's block and gets the next identity. *)
Lemma emit_spec name op s :
  positioned s -> op ≠ Alloca ->
  ∃ s', emit name op s = Normal (InstValue (nextInst (module_ s))) s'
        ∧ extends s s' [mkInst (nextInst (module_ s)) name op]
        ∧ registers_ s' = registers_ s
        ∧ nextInst (module_ s') = S (nextInst (module_ s)).
Proof.
  intros Hpos Hop. unfold emit, bind, GetInsertBlock, insertAt.
  destruct (builder_ s) as [cur|] eqn:Hcur.
  2:{ destruct Hpos as [? Hp]. by rewrite Hcur in Hp. }
  eexists. split; [reflexivity|].
  split; [|by split].
  split; try reflexivity.
  - rewrite body_named, body_insert by done. unfold body.
    rewrite Hcur. cbn [mbind option_bind].
    destruct Hpos as [b Hb]. rewrite Hcur in Hb. cbn in Hb. rewrite Hb.
    rewrite decide_True by done.
    rewrite filter_app. f_equal.
    rewrite filter_cons_True; [done|].
    unfold isAlloca. cbn. by destruct op.
  - by apply positioned_named, positioned_insert.
  - cbn. lia.
Qed.

Lemma lookupBlock_same_functions m m' r :
  functions m' = functions m -> lookupBlock m' r = lookupBlock m r.
Proof. unfold lookupBlock. by intros ->. Qed.

Lemma findBlock_nonempty b fn blk :
  findBlock b fn = Some blk -> isDeclaration fn = false.
Proof. unfold findBlock, isDeclaration. by destruct (fn_blocks fn). Qed.

(** A slot is looked up or created without a trace in the builder's
    block: a new [alloca] goes to the front of the entry block. *)
Lemma getOrCreateRegister_spec name s :
  positioned s ->
  ∃ r s', getOrCreateRegister name s = Normal r s'
          ∧ extends s s' []
          ∧ registers_ s' = <[name := r]> (registers_ s)
          ∧ (nextInst (module_ s') <= S (nextInst (module_ s)))%nat.
Proof.
  intros Hpos. unfold getOrCreateRegister, bind, get.
  destruct (registers_ s !! name) as [reg|] eqn:Hreg.
  { exists reg, s. split; [done|]. split; [by apply extends_refl|].
    split; [by rewrite insert_id|lia]. }
  pose proof Hpos as [b Hb].
  destruct (builder_ s) as [cur|] eqn:Hcur; [|done].
  cbn in Hb. assert (lookupBlock (module_ s) cur = Some b) as Hl by done.
  unfold lookupBlock in Hb.
  destruct (functions (module_ s) !! parent cur) as [fn|] eqn:Hfn; [|done].
  cbn in Hb. pose proof (findBlock_nonempty _ _ _ Hb) as Hne.
  unfold ret at 1. cbn beta iota.
  unfold functionEmpty at 1. rewrite Hfn, Hne. cbn [negb].
  unfold functionFront. rewrite Hfn.
  destruct (fn_blocks fn) as [|b0 bs] eqn:Hbs.
  { unfold isDeclaration in Hne. by rewrite Hbs in Hne. }
  unfold insertAt, modify, SetInsertPoint, modify, ret.
  eexists _, _. split; [reflexivity|].
  split; [|split; [reflexivity|cbn; lia]].
  split; try reflexivity.
  - rewrite app_nil_r. unfold body.
    cbn [builder_ module_ set_builder set_registers set_module].
    rewrite Hcur. cbn [mbind option_bind].
    rewrite lookupBlock_named, lookupBlock_onBlock.
    rewrite (lookupBlock_same_functions (module_ s)) by done.
    rewrite Hl.
    destruct (decide _); [|done].
    cbn [fmap option_fmap option_map withInsts bb_insts].
    by rewrite filter_cons_False.
  - cbn. by symmetry.
  - unfold positioned.
    cbn [builder_ module_ set_builder set_registers set_module].
    cbn [mbind option_bind]. rewrite lookupBlock_named, lookupBlock_onBlock.
    rewrite (lookupBlock_same_functions (module_ s)) by done.
    rewrite Hl. destruct (decide _); eauto.
  - cbn. lia.
Qed.

(** The part of [POP] before the destination is looked at, followed by
    any continuation [k]. *)
Lemma pop_prefix s :
  positioned s ->
  ∃ sp n s',
    extends s s' (popSequence n sp)
    ∧ registers_ s' = <["STACK_PTR" := sp]> (registers_ s)
    ∧ ∀ A (k : Value -> M A),
        (stackPtr <- getOrCreateRegister "STACK_PTR" ;;
         stackValue <- CreateLoad stackPtr "stack_ptr_val" ;;
         stackAddr <- CreateIntToPtr stackValue "stack_addr" ;;
         value <- CreateLoad stackAddr "stack_val" ;;
         newStackPtr <- CreateBinOp Add stackValue (ConstantInt 4) "new_stack_ptr" ;;
         CreateStore newStackPtr stackPtr ;;
         k value) s = k (InstValue (n + 2)%nat) s'.
Proof.
  intros Hpos.
  destruct (getOrCreateRegister_spec "STACK_PTR" s Hpos)
    as (sp & s0 & Heq & Hext & Hregs & _).
  pose proof (ext_positioned _ _ _ Hext) as Hp0.
  set (n := nextInst (module_ s0)).
  destruct (emit_spec "stack_ptr_val" (Load sp) s0 Hp0)
    as (s1 & Heq1 & Hext1 & Hregs1 & Hn1); [done|].
  pose proof (ext_positioned _ _ _ Hext1) as Hp1.
  destruct (emit_spec "stack_addr" (IntToPtr (InstValue n)) s1 Hp1)
    as (s2 & Heq2 & Hext2 & Hregs2 & Hn2); [done|].
  pose proof (ext_positioned _ _ _ Hext2) as Hp2.
  destruct (emit_spec "stack_val" (Load (InstValue (n + 1)%nat)) s2 Hp2)
    as (s3 & Heq3 & Hext3 & Hregs3 & Hn3); [done|].
  pose proof (ext_positioned _ _ _ Hext3) as Hp3.
  destruct (emit_spec "new_stack_ptr"
              (BinaryOperator Add (InstValue n) (ConstantInt 4)) s3 Hp3)
    as (s4 & Heq4 & Hext4 & Hregs4 & Hn4); [done|].
  pose proof (ext_positioned _ _ _ Hext4) as Hp4.
  destruct (emit_spec "" (Store (InstValue (n + 3)%nat) sp) s4 Hp4)
    as (s5 & Heq5 & Hext5 & Hregs5 & Hn5); [done|].
  assert (nextInst (module_ s1) = n + 1)%nat as E1 by (subst n; lia).
  assert (nextInst (module_ s2) = n + 2)%nat as E2 by lia.
  assert (nextInst (module_ s3) = n + 3)%nat as E3 by lia.
  assert (nextInst (module_ s4) = n + 4)%nat as E4 by lia.
  rewrite E1 in *. rewrite E2 in *. rewrite E3 in *. rewrite E4 in *.
  fold n in Heq1, Hext1.
  exists sp, n, s5. split; [|split; [congruence|]].
  - pose proof (extends_trans _ _ _ _ _ Hext
      (extends_trans _ _ _ _ _ Hext1
        (extends_trans _ _ _ _ _ Hext2
          (extends_trans _ _ _ _ _ Hext3
            (extends_trans _ _ _ _ _ Hext4 Hext5))))) as Hall.
    exact Hall.
  - intros A k. unfold bind at 1. rewrite Heq.
    unfold bind at 1, CreateLoad at 1. rewrite Heq1.
    unfold bind at 1, CreateIntToPtr at 1. rewrite Heq2.
    unfold bind at 1, CreateLoad at 1. rewrite Heq3.
    unfold bind at 1, CreateBinOp at 1. rewrite Heq4.
    unfold bind at 1, CreateStore at 1. rewrite Heq5.
    reflexivity.
Qed.

(** C9. A [POP] whose single operand is not a register lifts without
    error: it appends the load of the stack pointer, the load through it
    and the stack pointer moved up by four, writes no slot but
    [STACK_PTR] and leaves the error message alone; a register operand,
    from the same state, appends the same instructions followed by one
    store of the loaded value into the register's slot. *)
Theorem pop_non_register_discards s inst o :
  positioned s ->
  inst_type inst = InstructionType.POP ->
  operands inst = [o] ->
  op_type o ≠ OperandType.REGISTER ->
  ∃ sp n s',
    liftStackInstruction inst s = Normal true s'
    ∧ body s' = body s ++ popSequence n sp
    ∧ registers_ s' = <["STACK_PTR" := sp]> (registers_ s)
    ∧ errorMessage_ s' = errorMessage_ s
    ∧ ∀ dest, ∃ slot j s'',
        liftStackInstruction
          (mkInstruction InstructionType.POP
                         [mkOperand OperandType.REGISTER dest] (label inst)) s
        = Normal true s''
        ∧ body s'' = body s' ++ [mkInst j "" (Store (InstValue (n + 2)%nat) slot)]
        ∧ registers_ s'' = <[dest := slot]> (registers_ s').
Proof.
  intros Hpos Htype Hops Hkind.
  destruct (pop_prefix s Hpos) as (sp & n & s' & Hext & Hregs & Hrun).
  exists sp, n, s'. split; [|split; [apply Hext|split; [done|split; [apply Hext|]]]].
  - unfold liftStackInstruction, operand. rewrite Htype, Hops.
    rewrite decide_False by done. rewrite decide_True by done.
    cbn [length Nat.eqb negb lookup list_lookup default id].
    destruct (decide (op_type o = OperandType.REGISTER)); [done|].
    rewrite (Hrun _ (fun _ => (ret tt ;; ret true))). reflexivity.
  - intros dest.
    pose proof (ext_positioned _ _ _ Hext) as Hp.
    destruct (getOrCreateRegister_spec dest s' Hp)
      as (slot & s1 & Heq1 & Hext1 & Hregs1 & _).
    pose proof (ext_positioned _ _ _ Hext1) as Hp1.
    destruct (emit_spec "" (Store (InstValue (n + 2)%nat) slot) s1 Hp1)
      as (s2 & Heq2 & Hext2 & Hregs2 & _); [done|].
    exists slot, (nextInst (module_ s1)), s2. split; [|split].
    + unfold liftStackInstruction, operand. cbn [inst_type operands].
      rewrite decide_False by done. rewrite decide_True by done.
      cbn [length Nat.eqb negb lookup list_lookup default id op_type op_value].
      destruct (decide (OperandType.REGISTER = OperandType.REGISTER)); [|done].
      rewrite (Hrun _ (fun value =>
                 (reg <- getOrCreateRegister dest ;;
                  CreateStore value reg ;; ret tt) ;; ret true)).
      unfold bind at 1. unfold bind at 1. rewrite Heq1.
      unfold bind at 1, CreateStore. rewrite Heq2. reflexivity.
    + rewrite (ext_body _ _ _ Hext2), (ext_body _ _ _ Hext1).
      by rewrite app_nil_r.
    + congruence.
Qed.

Lemma CreateICmp_emit p l r name :
  bothConstant l r = false -> CreateICmp p l r name = emit name (ICmp p l r).
Proof. by destruct l, r. Qed.

Lemma setFlagRegister_spec flag v s :
  positioned s ->
  ∃ slot w s',
    setFlagRegister flag v s = Normal tt s'
    ∧ extends s s' [mkInst w "" (Store v slot)]
    ∧ registers_ s' = <["FLAG_" +:+ flag := slot]> (registers_ s).
Proof.
  intros Hpos. unfold setFlagRegister, getFlagRegister.
  destruct (getOrCreateRegister_spec ("FLAG_" +:+ flag) s Hpos)
    as (slot & s0 & Heq & Hext & Hregs & _).
  pose proof (ext_positioned _ _ _ Hext) as Hp0.
  destruct (emit_spec "" (Store v slot) s0 Hp0)
    as (s1 & Heq1 & Hext1 & Hregs1 & _); [done|].
  exists slot, (nextInst (module_ s0)), s1. split; [|split].
  - unfold bind at 1. rewrite Heq. unfold bind at 1, CreateStore.
    by rewrite Heq1.
  - exact (extends_trans _ _ _ _ _ Hext Hext1).
  - congruence.
Qed.

(** One flag written from a comparison instruction. *)
Lemma writeFlag_spec flag name c s :
  positioned s ->
  ∃ slot z w s',
    (x <- CreateZExt (InstValue c) name ;; setFlagRegister flag x) s = Normal tt s'
    ∧ extends s s' [mkInst z name (ZExt (InstValue c)); mkInst w "" (Store (InstValue z) slot)]
    ∧ registers_ s' = <["FLAG_" +:+ flag := slot]> (registers_ s).
Proof.
  intros Hpos.
  destruct (emit_spec name (ZExt (InstValue c)) s Hpos)
    as (s0 & Heq & Hext & Hregs & _); [done|].
  pose proof (ext_positioned _ _ _ Hext) as Hp0.
  destruct (setFlagRegister_spec flag (InstValue (nextInst (module_ s))) s0 Hp0)
    as (slot & w & s1 & Heq1 & Hext1 & Hregs1).
  exists slot, (nextInst (module_ s)), w, s1. split; [|split].
  - unfold bind at 1, CreateZExt. by rewrite Heq.
  - exact (extends_trans _ _ _ _ _ Hext Hext1).
  - congruence.
Qed.

(** One flag written from a folded comparison. *)
Lemma writeFolded_spec flag name b s :
  positioned s ->
  ∃ slot w s',
    (x <- CreateZExt (ConstantBit b) name ;; setFlagRegister flag x) s = Normal tt s'
    ∧ extends s s' [mkInst w "" (Store (ConstantInt (Int32.of_bool b)) slot)]
    ∧ registers_ s' = <["FLAG_" +:+ flag := slot]> (registers_ s).
Proof.
  intros Hpos.
  destruct (setFlagRegister_spec flag (ConstantInt (Int32.of_bool b)) s Hpos)
    as (slot & w & s1 & Heq1 & Hext1 & Hregs1).
  by exists slot, w, s1.
Qed.

(** C6. A [CMP] with two operands that evaluate writes the five flags:
    it appends the comparisons [EQ], [SLT], [SGT], [SLE], [SGE] of the
    two operand values, and for each, in the order [ZF], [LT], [GT],
    [LE], [GE], the zero extension to 32 bits and the store into the
    slot registered under [FLAG_ZF], [FLAG_LT], [FLAG_GT], [FLAG_LE],
    [FLAG_GE].  When both operands are integer constants the builder has
    already evaluated comparison and extension, and the five stores
    carry the resulting constants. *)
Theorem compare_sets_five_flags s inst o0 o1 l r s1 s2 :
  operands inst = [o0; o1] ->
  getOperandValue o0 s = Normal (Some l) s1 ->
  getOperandValue o1 s1 = Normal (Some r) s2 ->
  positioned s2 ->
  ∃ slots s',
    liftCompareInstruction inst s = Normal true s'
    ∧ registers_ s' = withFlags slots (registers_ s2)
    ∧ errorMessage_ s' = errorMessage_ s2
    ∧ match l, r with
      | ConstantInt a, ConstantInt b =>
          ∃ w, body s' = body s2 ++ foldedCode a b w slots
      | _, _ =>
          ∃ z w, body s' = body s2 ++ compareCode (nextInst (module_ s2)) l r z w slots
      end.
Proof.
  intros Hops Hl Hr Hpos.
  unfold liftCompareInstruction, operand. rewrite Hops.
  cbn [length Nat.eqb negb lookup list_lookup default id].
  unfold bind at 1. rewrite Hl. unfold bind at 1. rewrite Hr. cbn beta iota.
  destruct (bothConstant l r) eqn:Hboth.
  - destruct l as [a| | | | |]; try discriminate.
    destruct r as [b| | | | |]; try discriminate.
    unfold CreateICmp, Int32.icmp. unfold bind at 1 2 3 4 5, ret at 1 2 3 4 5.
    destruct (writeFolded_spec "ZF" "zf_int" (a =? b) s2 Hpos)
      as (zf & w1 & t1 & E1 & X1 & R1).
    pose proof (ext_positioned _ _ _ X1) as P1.
    destruct (writeFolded_spec "LT" "lt_int" (a <? b) t1 P1)
      as (lt & w2 & t2 & E2 & X2 & R2).
    pose proof (ext_positioned _ _ _ X2) as P2.
    destruct (writeFolded_spec "GT" "gt_int" (b <? a) t2 P2)
      as (gt & w3 & t3 & E3 & X3 & R3).
    pose proof (ext_positioned _ _ _ X3) as P3.
    destruct (writeFolded_spec "LE" "le_int" (a <=? b) t3 P3)
      as (le & w4 & t4 & E4 & X4 & R4).
    pose proof (ext_positioned _ _ _ X4) as P4.
    destruct (writeFolded_spec "GE" "ge_int" (b <=? a) t4 P4)
      as (ge & w5 & t5 & E5 & X5 & R5).
    exists (mkFlags zf lt gt le ge), t5.
    split; [|split; [|split]].
    + unfold bind at 1. rewrite E1. unfold bind at 1. rewrite E2.
      unfold bind at 1. rewrite E3. unfold bind at 1. rewrite E4.
      unfold bind at 1. rewrite E5. reflexivity.
    + rewrite R5, R4, R3, R2, R1. reflexivity.
    + rewrite (ext_error _ _ _ X5), (ext_error _ _ _ X4), (ext_error _ _ _ X3),
        (ext_error _ _ _ X2). apply X1.
    + exists (mkFlags w1 w2 w3 w4 w5).
      pose proof (extends_trans _ _ _ _ _ X1
        (extends_trans _ _ _ _ _ X2
          (extends_trans _ _ _ _ _ X3
            (extends_trans _ _ _ _ _ X4 X5)))) as Hall.
      apply Hall.
  - rewrite !(CreateICmp_emit _ l r) by done.
    set (n := nextInst (module_ s2)).
    destruct (emit_spec "cmp_eq" (ICmp ICMP_EQ l r) s2 Hpos)
      as (u1 & F1 & Y1 & G1 & N1); [done|].
    pose proof (ext_positioned _ _ _ Y1) as Q1.
    destruct (emit_spec "cmp_lt" (ICmp ICMP_SLT l r) u1 Q1)
      as (u2 & F2 & Y2 & G2 & N2); [done|].
    pose proof (ext_positioned _ _ _ Y2) as Q2.
    destruct (emit_spec "cmp_gt" (ICmp ICMP_SGT l r) u2 Q2)
      as (u3 & F3 & Y3 & G3 & N3); [done|].
    pose proof (ext_positioned _ _ _ Y3) as Q3.
    destruct (emit_spec "cmp_le" (ICmp ICMP_SLE l r) u3 Q3)
      as (u4 & F4 & Y4 & G4 & N4); [done|].
    pose proof (ext_positioned _ _ _ Y4) as Q4.
    destruct (emit_spec "cmp_ge" (ICmp ICMP_SGE l r) u4 Q4)
      as (u5 & F5 & Y5 & G5 & N5); [done|].
    pose proof (ext_positioned _ _ _ Y5) as Q5.
    assert (nextInst (module_ u1) = n + 1)%nat as M1 by (subst n; lia).
    assert (nextInst (module_ u2) = n + 2)%nat as M2 by lia.
    assert (nextInst (module_ u3) = n + 3)%nat as M3 by lia.
    assert (nextInst (module_ u4) = n + 4)%nat as M4 by lia.
    rewrite M1 in F2, Y2. rewrite M2 in F3, Y3. rewrite M3 in F4, Y4.
    rewrite M4 in F5, Y5. fold n in F1, Y1.
    destruct (writeFlag_spec "ZF" "zf_int" n u5 Q5)
      as (zf & z1 & w1 & t1 & E1 & X1 & R1).
    pose proof (ext_positioned _ _ _ X1) as P1.
    destruct (writeFlag_spec "LT" "lt_int" (n + 1)%nat t1 P1)
      as (lt & z2 & w2 & t2 & E2 & X2 & R2).
    pose proof (ext_positioned _ _ _ X2) as P2.
    destruct (writeFlag_spec "GT" "gt_int" (n + 2)%nat t2 P2)
      as (gt & z3 & w3 & t3 & E3 & X3 & R3).
    pose proof (ext_positioned _ _ _ X3) as P3.
    destruct (writeFlag_spec "LE" "le_int" (n + 3)%nat t3 P3)
      as (le & z4 & w4 & t4 & E4 & X4 & R4).
    pose proof (ext_positioned _ _ _ X4) as P4.
    destruct (writeFlag_spec "GE" "ge_int" (n + 4)%nat t4 P4)
      as (ge & z5 & w5 & t5 & E5 & X5 & R5).
    exists (mkFlags zf lt gt le ge), t5.
    assert (registers_ u5 = registers_ s2) as R0 by congruence.
    split; [|split; [|split]].
    + unfold bind at 1. rewrite F1. unfold bind at 1. rewrite F2.
      unfold bind at 1. rewrite F3. unfold bind at 1. rewrite F4.
      unfold bind at 1. rewrite F5.
      unfold bind at 1. rewrite E1. unfold bind at 1. rewrite E2.
      unfold bind at 1. rewrite E3. unfold bind at 1. rewrite E4.
      unfold bind at 1. rewrite E5. reflexivity.
    + rewrite R5, R4, R3, R2, R1, R0. reflexivity.
    + rewrite (ext_error _ _ _ X5), (ext_error _ _ _ X4), (ext_error _ _ _ X3),
        (ext_error _ _ _ X2), (ext_error _ _ _ X1), (ext_error _ _ _ Y5),
        (ext_error _ _ _ Y4), (ext_error _ _ _ Y3), (ext_error _ _ _ Y2).
      apply Y1.
    + assert (∃ z w, body t5 = body s2 ++ compareCode n l r z w (mkFlags zf lt gt le ge))
        as Hgoal.
      { exists (mkFlags z1 z2 z3 z4 z5), (mkFlags w1 w2 w3 w4 w5).
        pose proof (extends_trans _ _ _ _ _ Y1
          (extends_trans _ _ _ _ _ Y2
            (extends_trans _ _ _ _ _ Y3
              (extends_trans _ _ _ _ _ Y4
                (extends_trans _ _ _ _ _ Y5
                  (extends_trans _ _ _ _ _ X1
                    (extends_trans _ _ _ _ _ X2
                      (extends_trans _ _ _ _ _ X3
                        (extends_trans _ _ _ _ _ X4 X5))))))))) as Hall.
        apply Hall. }
      destruct l, r; try exact Hgoal; discriminate.
Qed.

(** The theorem on [POP 5] right after the label [main:]. *)
Lemma pop_non_register_discards_witness :
  positioned Samples.atMain
  ∧ ∃ sp n s',
      liftStackInstruction Samples.popImmediate Samples.atMain = Normal true s'
      ∧ body s' = body Samples.atMain ++ popSequence n sp
      ∧ registers_ s' = <["STACK_PTR" := sp]> (registers_ Samples.atMain)
      ∧ errorMessage_ s' = errorMessage_ Samples.atMain.
Proof.
  assert (positioned Samples.atMain) as Hpos by (vm_compute; eauto).
  split; [exact Hpos|].
  destruct (pop_non_register_discards Samples.atMain Samples.popImmediate
              (Samples.imm "5") Hpos eq_refl eq_refl)
    as (sp & n & s' & H1 & H2 & H3 & H4 & _).
  { discriminate. }
  exists sp, n, s'. auto.
Defined.

(** The theorem on [CMP %eax, 5] right after the label [main:]. *)
Lemma compare_sets_five_flags_witness :
  getOperandValue (Samples.reg "%eax") Samples.atMain
  = Normal (Some (InstValue 1)) Samples.afterEax
  ∧ getOperandValue (Samples.imm "5") Samples.afterEax
    = Normal (Some (ConstantInt 5)) Samples.afterEax
  ∧ positioned Samples.afterEax
  ∧ ∃ slots s' z w,
      liftCompareInstruction Samples.cmpEaxFive Samples.atMain = Normal true s'
      ∧ registers_ s' = withFlags slots (registers_ Samples.afterEax)
      ∧ body s' = body Samples.afterEax
                  ++ compareCode (nextInst (module_ Samples.afterEax))
                       (InstValue 1) (ConstantInt 5) z w slots.
Proof.
  assert (getOperandValue (Samples.reg "%eax") Samples.atMain
          = Normal (Some (InstValue 1)) Samples.afterEax) as H0
    by (vm_compute; reflexivity).
  assert (getOperandValue (Samples.imm "5") Samples.afterEax
          = Normal (Some (ConstantInt 5)) Samples.afterEax) as H1
    by (vm_compute; reflexivity).
  assert (positioned Samples.afterEax) as Hpos by (vm_compute; eauto).
  split; [exact H0|]. split; [exact H1|]. split; [exact Hpos|].
  destruct (compare_sets_five_flags Samples.atMain Samples.cmpEaxFive
              (Samples.reg "%eax") (Samples.imm "5") _ _ _ _ eq_refl H0 H1 Hpos)
    as (slots & s' & E & R & _ & z & w & B).
  exists slots, s', z, w. auto.
Defined.

End LifterFacts.

(** ** The lifter on the sample programs *)

Module LifterRuns.
Import IR Lifter Samples.

(** C1. [JNE] sends control to the fallthrough block when the flag slot
    holds zero: in the lifted sample the entry block ends in a conditional
    branch on [FLAG_ZF == 0] whose true successor is [fallthrough_0] and
    whose false successor is [differ], and running [main], where the
    compared values 1 and 2 differ and the slot holds 0, returns the value
    of the fallthrough path, 10. *)
Theorem jne_falls_through_on_zero_flag :
  lift jneSource = Normal true (stateOf (lift jneSource))
  ∧ blocksOf (moduleOf jneSource) "main" = ["main"; "differ"; "fallthrough_0"]
  ∧ registers_ (stateOf (lift jneSource)) !! "FLAG_ZF" = Some (InstValue 9)
  ∧ drop 23 (blockInsts (moduleOf jneSource) "main" 0)
    = [ mkInst 23 "ZF_val" (Load (InstValue 9));
        mkInst 24 "ZF_z" (ICmp ICMP_EQ (InstValue 23) (ConstantInt 0));
        mkInst 25 "" (CondBr (InstValue 24) 2 1) ]
  ∧ (∃ rho, Exec.steps Exec.start (take 25 (blockInsts (moduleOf jneSource) "main" 0))
            = Some rho
            ∧ Exec.slots rho !! 9%nat = Some 0
            ∧ Exec.transfer rho (CondBr (InstValue 24) 2 1) = Some (Exec.Goto 2))
  ∧ Exec.callByName 100 (moduleOf jneSource) "main" = Some 10.
Proof.
  split; [vm_compute; reflexivity|].
  split; [vm_compute; reflexivity|].
  split; [vm_compute; reflexivity|].
  split; [vm_compute; reflexivity|].
  split; [|vm_compute; reflexivity].
  eexists. split; [vm_compute; reflexivity|].
  split; vm_compute; reflexivity.
Qed.

(** C2. [MOV %eax, (%ebx)] lifts to a load of the slot of [%ebx] and a
    store of that value, the address, into the slot of [%eax]: no cast to a
    pointer and no load through it. *)
Theorem mov_register_from_memory_stores_address :
  lift movFromMemorySource = Normal true (stateOf (lift movFromMemorySource))
  ∧ blockInsts (moduleOf movFromMemorySource) "main" 0
    = [ mkInst 2 "%eax" Alloca;
        mkInst 0 "%ebx" Alloca;
        mkInst 1 "reg_val" (Load (InstValue 0));
        mkInst 3 "" (Store (InstValue 1) (InstValue 2));
        mkInst 4 "eax_val" (Load (InstValue 2));
        mkInst 5 "" (Ret (Some (InstValue 4))) ].
Proof. split; vm_compute; reflexivity. Qed.

(** C3. [liftToLLVM] returns true on a stream whose lifted function the
    verifier reports as broken: the entry block of [main] carries
    instructions after its first return. *)
Theorem lift_succeeds_on_broken_function :
  lift afterReturnSource = Normal true (stateOf (lift afterReturnSource))
  ∧ errorMessage_ (stateOf (lift afterReturnSource)) = ""
  ∧ verifyModule (moduleOf afterReturnSource) = [("main", true)]
  ∧ Samples.blockOps (moduleOf afterReturnSource) "main" 0
    = [ Alloca; Load (InstValue 0); Ret (Some (InstValue 1));
        Store (ConstantInt 1) (InstValue 0); Load (InstValue 0);
        Ret (Some (InstValue 4)) ].
Proof.
  split; [vm_compute; reflexivity|].
  split; [vm_compute; reflexivity|].
  split; vm_compute; reflexivity.
Qed.

(** C8. The memory operand [(foo)] matches none of the address forms, and
    lifting it does not fail by value: [std::stoi] throws
    [std::invalid_argument], which nothing catches, so [liftToLLVM] does
    not return and the process is terminated. *)
Theorem bad_address_throws :
  lift badAddressSource = Abnormal Cpp.StdInvalidArgument
  ∧ fst (Driver.main 1 0 ["asm2wasm"; "bad.s"] (world "bad.s" badAddressSource ∅))
    = Driver.Terminated Cpp.StdInvalidArgument.
Proof. split; vm_compute; reflexivity. Qed.

End LifterRuns.

(** ** The lowerer *)

Module GeneratorFacts.
Import IR Wasm Generator GeneratorView.
Local Open Scope gen_scope.

Lemma always_ret {A} (a : A) : always (ret a) a.
Proof. by intros g. Qed.

Lemma always_unit (c : G unit) : always c tt.
Proof. intros g. by destruct (fst (c g)). Qed.

Lemma always_bind_any {A B} (c : G A) (k : A -> G B) b :
  (forall x, always (k x) b) -> always (bind c k) b.
Proof. intros H g. unfold bind. destruct (c g) as [a g']. apply H. Qed.

Lemma always_bind {A B} (c : G A) (k : A -> G B) a b :
  always c a -> always (k a) b -> always (bind c k) b.
Proof.
  intros Hc Hk g. unfold bind. specialize (Hc g).
  destruct (c g) as [a' g']. simpl in Hc. subst. apply Hk.
Qed.

Ltac always_step :=
  first
    [ apply always_ret
    | apply always_unit
    | apply always_bind_any; intros
    | match goal with
      | |- always (match ?x with _ => _ end) _ => destruct x
      end ].

Lemma convertArithmeticInstruction_always m inst :
  ∃ b, always (convertArithmeticInstruction m inst) b.
Proof.
  unfold convertArithmeticInstruction.
  destruct (i_op inst); try (eexists; apply always_ret).
  destruct op; eexists; repeat always_step.
Qed.

Lemma convertCompareInstruction_always m inst :
  ∃ b, always (convertCompareInstruction m inst) b.
Proof.
  unfold convertCompareInstruction.
  destruct (i_op inst); try (eexists; apply always_ret).
  destruct (compareOpcode p); eexists; repeat always_step.
Qed.

Lemma convertBranchInstruction_always m inst :
  always (convertBranchInstruction m inst) true.
Proof.
  unfold convertBranchInstruction.
  destruct (i_op (ir_inst inst)); repeat always_step.
Qed.

(** Whether an instruction converts does not depend on the state of the
    generator, so not on the locals that have been assigned. *)
Lemma convertInstruction_always m inst :
  ∃ b, always (convertInstruction m inst) b.
Proof.
  unfold convertInstruction.
  destruct (i_op (ir_inst inst)) eqn:Hop;
    try (eexists; apply always_ret).
  - eexists. unfold convertMemoryInstruction. rewrite Hop. repeat always_step.
  - eexists. unfold convertMemoryInstruction. rewrite Hop. repeat always_step.
  - apply convertArithmeticInstruction_always.
  - apply convertCompareInstruction_always.
  - (* zext *)
    destruct (instOf m v) as [cmp|] eqn:Hcmp.
    + destruct (i_op (ir_inst cmp)) eqn:Hc.
      all: try solve [eexists; eapply always_bind; [solve [repeat always_step]|];
                      cbn [negb]; repeat always_step].
      destruct (convertCompareInstruction_always m (ir_inst cmp)) as [b Hb].
      destruct b.
      * eexists. cbv beta iota. eapply always_bind; [exact Hb|]. cbn [negb]. repeat always_step.
      * eexists. cbv beta iota. eapply always_bind; [exact Hb|]. cbn [negb]. repeat always_step.
    + destruct (asConstantInt v); [|destruct (isInstruction v)].
      all: eexists; eapply always_bind; [repeat always_step|]; cbn [negb];
        repeat always_step.
  - eexists. unfold convertIntToPtrInstruction. rewrite Hop. repeat always_step.
  - eexists. unfold convertPtrToIntInstruction. rewrite Hop. repeat always_step.
  - eexists. unfold convertBitCastInstruction. rewrite Hop. repeat always_step.
  - eexists. unfold convertCallInstruction. rewrite Hop. repeat always_step.
  - eexists. unfold convertReturnInstruction. rewrite Hop. repeat always_step.
  - eexists. apply convertBranchInstruction_always.
  - eexists. apply convertBranchInstruction_always.
Qed.

(** *** The branch depths are written by [convertFunction] alone *)
















(** *** Positions and depths *)







Lemma push_pushed i g : push i g = (tt, pushed i g).
Proof. reflexivity. Qed.

Lemma pushedAll_pushedAll l l' g : pushedAll l' (pushedAll l g) = pushedAll (l ++ l') g.
Proof. unfold pushedAll, code. cbn. by rewrite <- app_assoc. Qed.

Lemma asLoad_not_constant m w v : asLoad m w = Some v -> asConstantInt w = None.
Proof. unfold asLoad, opcodeOf, instOf. by destruct w. Qed.

Lemma asLoad_instOf m w v :
  asLoad m w = Some v <-> ∃ r, instOf m w = Some r ∧ i_op (ir_inst r) = Load v.
Proof.
  unfold asLoad, opcodeOf. destruct (instOf m w) as [r|]; cbn.
  - split.
    + destruct (i_op (ir_inst r)) eqn:Hop; try discriminate.
      intros [= ->]. by exists r.
    + intros (r' & [= <-] & ->). done.
  - split; [done|]. by intros (r & ? & _).
Qed.

(** C10.  For a value that has no local index recorded, [getLocalIndex]
    returns 0 and leaves the generator as it is; whether an instruction
    converts is fixed by the instruction alone, whatever locals are
    recorded; and wherever the local of such a value is read for an
    operand, the instruction that reaches the code of the function is
    [local.get 0], and nothing else changes: as an operand that is an
    instruction and no load, as the pointer of a loaded operand (of an
    arithmetic instruction, a comparison, a store, a cast or the comparison
    of a branch), as the address of a memory access (the pointer itself
    when it is no [inttoptr] instruction, the pointer of the load under an
    [inttoptr]), as the result of a [phi], as the pointer of the load under
    an [inttoptr] instruction, as the operand of a [zext] and as the
    condition of a conditional branch. *)
Theorem missing_local_reads_as_zero m g v :
  recorded g v = None ->
  getLocalIndex v g = (0, g)
  ∧ (forall inst, ∃ ok, forall g', fst (convertInstruction m inst g') = ok)
  ∧ (asConstantInt v = None -> asLoad m v = None -> isInstruction v = true ->
     pushConstLoadInst m v g = (tt, pushed (op1 GET_LOCAL 0) g))
  ∧ (forall w, asLoad m w = Some v ->
     pushConstLoadInst m w g = (tt, pushed (op1 GET_LOCAL 0) g)
     ∧ pushConstLoad m w g = (tt, pushed (op1 GET_LOCAL 0) g)
     ∧ pushLoadConst m w g = (tt, pushed (op1 GET_LOCAL 0) g))
  ∧ ((forall a, opcodeOf m v ≠ Some (IntToPtr a)) ->
     pushAddress m v g = (tt, pushed (op1 GET_LOCAL 0) g))
  ∧ (forall w a, opcodeOf m w = Some (IntToPtr a) -> asLoad m a = Some v ->
     pushAddress m w g = (tt, pushed (op1 GET_LOCAL 0) g))
  ∧ (forall b inst, i_op inst = PHI -> v = InstValue (i_id inst) ->
     convertInstruction m (mkInstRef b inst) g = (true, pushed (op1 GET_LOCAL 0) g))
  ∧ (forall b inst w, i_op inst = IntToPtr w -> asLoad m w = Some v ->
     convertInstruction m (mkInstRef b inst) g = (true, pushed (op1 GET_LOCAL 0) g))
  ∧ (forall b inst w,
       i_op inst = ZExt w ->
       asLoad m w = Some v
       ∨ (w = v ∧ isInstruction v = true
          ∧ forall r, instOf m v = Some r ->
              isCmpInst (i_op (ir_inst r)) = false ∧ asLoad m v = None) ->
       convertInstruction m (mkInstRef b inst) g
       = (true,
          pushed (op1 SET_LOCAL
                      (fst (assignLocalIndex (i_id inst) Wasm.I32
                              (pushed (op1 GET_LOCAL 0) g))))
                 (snd (assignLocalIndex (i_id inst) Wasm.I32
                         (pushed (op1 GET_LOCAL 0) g)))))
  ∧ (forall b inst cond ifTrue ifFalse,
       i_op inst = CondBr cond ifTrue ifFalse ->
       opcodeOf m cond = Some (Load v)
       ∨ (∃ src, opcodeOf m cond = Some (ZExt src)
                 ∧ (asLoad m src = Some v ∨ (asLoad m src = None ∧ src = v))) ->
       ∃ rest,
         convertInstruction m (mkInstRef b inst) g
         = (true, pushedAll ([op1 GET_LOCAL 0; op1 I32_CONST 0; op0 I32_NE] ++ rest) g)).
Proof.
  intros Hnone.
  assert (getLocalIndex v g = (0, g)) as Hget.
  { unfold getLocalIndex. unfold recorded in Hnone.
    destruct v; try done. by rewrite Hnone. }
  split; [exact Hget|]. split.
  { intros inst. destruct (convertInstruction_always m inst) as [ok Hok].
    exists ok. exact Hok. }
  split.
  { intros Hc Hl Hi. unfold pushConstLoadInst. rewrite Hc, Hl, Hi.
    unfold bind. by rewrite Hget. }
  split.
  { intros w Hl. pose proof (asLoad_not_constant m w v Hl) as Hc.
    unfold pushConstLoadInst, pushConstLoad, pushLoadConst.
    rewrite Hc, Hl. unfold bind. by rewrite Hget. }
  split.
  { intros Hptr. unfold pushAddress.
    destruct (opcodeOf m v) as [o|] eqn:Ho.
    + destruct o; try (unfold bind; by rewrite Hget). by destruct (Hptr v0).
    + unfold bind. by rewrite Hget. }
  split.
  { intros w a Hw Ha. apply asLoad_instOf in Ha as (r & Hr & Hop).
    unfold pushAddress. rewrite Hw, Hr, Hop. unfold bind. by rewrite Hget. }
  split.
  { intros b inst Hop ->. unfold convertInstruction. cbn [ir_inst]. rewrite Hop.
    unfold convertPhiInstruction, bind. by rewrite Hget. }
  split.
  { intros b inst w Hop Hl. pose proof (asLoad_not_constant m w v Hl) as Hc.
    unfold convertInstruction. cbn [ir_inst]. rewrite Hop.
    unfold convertIntToPtrInstruction. rewrite Hop, Hc, Hl.
    unfold bind. by rewrite Hget. }
  split.
  { intros b inst w Hop Hcase. unfold convertInstruction. cbn [ir_inst]. rewrite Hop.
    assert ((match instOf m w with
             | Some cmp =>
                 match i_op (ir_inst cmp) with
                 | ICmp _ _ _ => convertCompareInstruction m (ir_inst cmp)
                 | Load ptr =>
                     (localIdx <- getLocalIndex ptr ;;
                      push (op1 GET_LOCAL localIdx) ;; ret true)%gen
                 | _ =>
                     (localIdx <- getLocalIndex w ;;
                      push (op1 GET_LOCAL localIdx) ;; ret true)%gen
                 end
             | None =>
                 match asConstantInt w with
                 | Some z => (push (op1 I32_CONST z) ;; ret true)%gen
                 | None =>
                     if isInstruction w
                     then (localIdx <- getLocalIndex w ;;
                           push (op1 GET_LOCAL localIdx) ;; ret true)%gen
                     else (setError "Unsupported ZExt operand" ;; ret false)%gen
                 end
             end) g = (true, pushed (op1 GET_LOCAL 0) g)) as Hoperand.
    { destruct Hcase as [Hl|(-> & Hi & Hr)].
      - apply asLoad_instOf in Hl as (r & Hr & Hload). rewrite Hr, Hload.
        unfold bind. by rewrite Hget.
      - destruct (instOf m v) as [r|] eqn:Hinst.
        + destruct (Hr r eq_refl) as [Hcmp Hl].
          assert (forall p, i_op (ir_inst r) ≠ Load p) as Hnl.
          { intros p Hp. unfold asLoad, opcodeOf in Hl. rewrite Hinst in Hl. cbn in Hl.
            by rewrite Hp in Hl. }
          destruct (i_op (ir_inst r)); try discriminate;
            try (unfold bind; by rewrite Hget). by destruct (Hnl ptr).
        + assert (asConstantInt v = None) as -> by (by destruct v).
          rewrite Hi. unfold bind. by rewrite Hget. }
    unfold bind at 1. rewrite Hoperand. cbn [negb getType convertLLVMType].
    unfold bind. destruct (assignLocalIndex _ _ _) as [idx g2]. done. }
  intros b inst cond ifTrue ifFalse Hop Hcase.
  unfold convertInstruction. cbn [ir_inst]. rewrite Hop.
  unfold convertBranchInstruction. cbn [ir_inst ir_parent]. rewrite Hop.
  assert (forall (c : G unit) (k : G bool),
            c g = (tt, pushedAll [op1 GET_LOCAL 0; op1 I32_CONST 0; op0 I32_NE] g) ->
            (forall g1, ∃ tail, k g1 = (true, pushedAll tail g1)) ->
            ∃ rest,
              (c ;; k)%gen g
              = (true, pushedAll ([op1 GET_LOCAL 0; op1 I32_CONST 0; op0 I32_NE] ++ rest) g))
    as Hsequence.
  { intros c k Hc Hk. unfold bind. rewrite Hc.
    destruct (Hk (pushedAll [op1 GET_LOCAL 0; op1 I32_CONST 0; op0 I32_NE] g))
      as (tail & ->).
    exists tail. by rewrite pushedAll_pushedAll. }
  apply Hsequence.
  - destruct Hcase as [Hl|(src & Hz & [Hl|[Hl ->]])];
      [rewrite Hl|rewrite Hz, Hl|rewrite Hz, Hl];
      unfold bind; rewrite Hget; cbv beta iota;
      repeat (rewrite push_pushed; cbv beta iota);
      unfold pushed; by rewrite !pushedAll_pushedAll.
  - intros g1. unfold bind, get.
    set (positions := match currentFunction_ g1 with
                      | Some f => blockPositions f
                      | None => ∅
                      end).
    destruct (positionOf positions ifFalse =? positionOf positions b + 1)%nat.
    { rewrite push_pushed. by eexists [_]. }
    destruct (positionOf positions ifTrue =? positionOf positions b + 1)%nat.
    { repeat (rewrite push_pushed; cbv beta iota).
      unfold pushed. rewrite !pushedAll_pushedAll. by eexists. }
    rewrite push_pushed. by eexists [_].
Qed.

(** The theorem on the constant address of [MOV (100), 1], which is no
    instruction and so never has a local. *)
Lemma missing_local_reads_as_zero_witness :
  recorded (Generator.init 1 0) (ConstantIntToPtr 100) = None
  ∧ getLocalIndex (ConstantIntToPtr 100) (Generator.init 1 0) = (0, Generator.init 1 0)
  ∧ pushAddress (Samples.moduleOf Samples.constantAddressSource) (ConstantIntToPtr 100)
      (Generator.init 1 0)
    = (tt, pushed (op1 GET_LOCAL 0) (Generator.init 1 0))
  ∧ code (pushed (op1 GET_LOCAL 0) (Generator.init 1 0)) = [op1 GET_LOCAL 0].
Proof.
  split; [reflexivity|].
  destruct (missing_local_reads_as_zero
              (Samples.moduleOf Samples.constantAddressSource)
              (Generator.init 1 0) (ConstantIntToPtr 100) eq_refl)
    as (H1 & _ & _ & _ & H5 & _).
  split; [exact H1|]. split; [|reflexivity]. apply H5. intros a. discriminate.
Defined.

(** The store of [MOV (100), 1] lowered: its address is read as local 0. *)
Example constant_address_lowered :
  Samples.lower (Samples.moduleOf Samples.constantAddressSource)
  = (true, [("main", [ op1 GET_LOCAL 0; op1 I32_CONST 1; op0 I32_STORE;
                       op1 GET_LOCAL 0; op0 I32_LOAD; op0 RETURN ])]).
Proof. vm_compute. reflexivity. Qed.

(** The forward sample lowered as a whole: the one [br] of the function
    is the one of block [a], with depth 1. *)
Example forward_branch_lowered :
  ∃ code, Samples.lower (Samples.moduleOf Samples.forwardSource) = (true, [("main", code)])
          ∧ filter (fun i => bool_decide (opcode i = BR)) code = [op1 BR 1].
Proof. eexists. split; vm_compute; reflexivity. Qed.


End GeneratorFacts.

(** ** The command line *)

Module DriverFacts.
Import Driver DriverView.









Section Run.

Variables memorySize memoryMaxSize : Z.

Local Abbreviation compile := (compile memorySize memoryMaxSize).
Local Abbreviation main := (main memorySize memoryMaxSize).
Local Abbreviation firstFailure := (firstFailure memorySize memoryMaxSize).
Local Abbreviation generatedModule := (generatedModule memorySize memoryMaxSize).






End Run.

(** What three command lines ask for: the outputs named after the input,
    help, and an option without its file name. *)
Example request_samples :
  request ["asm2wasm"; "prog.s"] = inl (mkOptions "prog.s" "prog.wasm" "prog.wat")
  ∧ request ["asm2wasm"; "prog.s"; "--help"] = inr 0
  ∧ request ["asm2wasm"; "prog.s"; "--wasm"] = inr 1.
Proof. by repeat split. Qed.


End DriverFacts.

(** ** Names made unique by a symbol table *)

Module SymbolFacts.
Import IR Lifter LoopView.

Lemma to_string_inj n m : Cpp.to_string n = Cpp.to_string m -> n = m.
Proof.
  unfold Cpp.to_string. intros H.
  apply (f_equal NilEmpty.uint_of_string) in H. rewrite !NilEmpty.usu in H.
  injection H as H. apply (f_equal Nat.of_uint) in H.
  by rewrite !DecimalNat.Unsigned.of_to in H.
Qed.

Lemma append_inj_r (base a b : string) : base +:+ a = base +:+ b -> a = b.
Proof.
  induction base as [|c base IH]; [done|].
  change (String c base +:+ a) with (String c (base +:+ a)).
  change (String c base +:+ b) with (String c (base +:+ b)).
  intros H. injection H as H. by apply IH.
Qed.

(** Of as many candidates as the table has names, plus one, one is
    free. *)
Lemma free_candidate {A} (D : gmap string A) base from :
  ∃ k, (k <= size D)%nat ∧ D !! (base +:+ Cpp.to_string (from + k)) = None.
Proof.
  set (cand := fun k => base +:+ Cpp.to_string (from + k)%nat).
  destruct (decide (Exists (fun k => D !! cand k = None) (seq 0 (S (size D)))))
    as [Hex|Hall].
  - apply Exists_exists in Hex as (k & Hk & Hfree).
    exists k. split; [|exact Hfree]. apply elem_of_seq in Hk. lia.
  - exfalso. apply not_Exists_Forall in Hall; [|intros k; apply _].
    rewrite Forall_forall in Hall.
    assert (NoDup (cand <$> seq 0 (S (size D)))) as Hnd.
    { apply NoDup_fmap_2; [|apply NoDup_seq].
      intros i j Hij. apply append_inj_r, to_string_inj in Hij. lia. }
    assert (list_to_set (C := gset string) (cand <$> seq 0 (S (size D))) ⊆ dom D) as Hsub.
    { intros x Hx. apply elem_of_list_to_set, list_elem_of_fmap in Hx as (k & -> & Hk).
      apply elem_of_dom. specialize (Hall k Hk). cbn in Hall.
      destruct (D !! cand k); [by eexists|done]. }
    apply subseteq_size in Hsub.
    rewrite size_list_to_set, length_fmap, length_seq, size_dom in Hsub by done. lia.
Qed.

(** The loop of [makeUniqueName] finds the first free candidate, when
    there is one within the bound. *)
Lemma makeUniqueName_spec fuel : forall V base t,
  (∃ k, (k <= fuel)%nat ∧ vmap t !! (base +:+ Cpp.to_string (S (LastUnique t) + k)) = None) ->
  ∃ k, (LastUnique t < k)%nat
       ∧ fst (makeUniqueName fuel V base t) = base +:+ Cpp.to_string k
       ∧ vmap t !! (base +:+ Cpp.to_string k) = None
       ∧ (forall j, (LastUnique t < j < k)%nat ->
            is_Some (vmap t !! (base +:+ Cpp.to_string j)))
       ∧ snd (makeUniqueName fuel V base t)
         = mkSymbolTable (<[base +:+ Cpp.to_string k := V]> (vmap t)) k.
Proof.
  induction fuel as [|fuel IH]; intros V base t (k & Hk & Hfree).
  - assert (k = 0%nat) as -> by lia. rewrite Nat.add_0_r in Hfree.
    exists (S (LastUnique t)). cbn [makeUniqueName]. rewrite Hfree. cbn [fst snd].
    split; [lia|]. split; [done|]. split; [done|]. split; [intros j Hj; lia|done].
  - cbn [makeUniqueName].
    destruct (vmap t !! (base +:+ Cpp.to_string (S (LastUnique t)))) as [v|] eqn:Hfirst.
    + destruct k as [|k].
      { rewrite Nat.add_0_r in Hfree. congruence. }
      destruct (IH V base (mkSymbolTable (vmap t) (S (LastUnique t))))
        as (k' & Hlt & Hname & Hnone & Hbefore & Htable).
      { exists k. split; [lia|]. cbn [vmap LastUnique].
        by replace (S (S (LastUnique t)) + k)%nat with (S (LastUnique t) + S k)%nat by lia. }
      cbn [vmap LastUnique] in *. exists k'.
      split; [lia|]. split; [exact Hname|]. split; [exact Hnone|].
      split; [|exact Htable].
      intros j Hj. destruct (decide (j = S (LastUnique t))) as [->|Hne]; [by eexists|].
      apply Hbefore. lia.
    + exists (S (LastUnique t)). cbn [fst snd].
      split; [lia|]. split; [done|]. split; [done|]. split; [intros j Hj; lia|done].
Qed.

Lemma cut_short (name : string) n :
  (String.length name <= n)%nat -> String.substring 0 n name = name.
Proof.
  revert n. induction name as [|c name IH]; intros n Hn.
  - by destruct n.
  - destruct n as [|n]; cbn [String.length] in Hn; [lia|].
    cbn [String.substring]. f_equal. apply IH. lia.
Qed.

(** What [createValueName] does, stated without its loop. *)
Lemma createValueName_spec name V t :
  namedAfter t name (fst (createValueName name V t))
  ∧ vmap (snd (createValueName name V t))
    = <[fst (createValueName name V t) := V]> (vmap t)
  ∧ (LastUnique t <= LastUnique (snd (createValueName name V t)))%nat.
Proof.
  unfold createValueName, namedAfter.
  assert ((if (MaxNameSize <? String.length name)%nat
           then String.substring 0 MaxNameSize name else name) = cut name) as ->.
  { unfold cut. destruct (Nat.ltb_spec MaxNameSize (String.length name)); [done|].
    symmetry. by apply cut_short. }
  generalize (cut name). clear name. intros name.
  destruct (vmap t !! name) as [v|] eqn:Hname.
  2:{ cbn [fst snd vmap LastUnique]. rewrite Hname. by repeat split. }
  destruct (free_candidate (vmap t) name (S (LastUnique t))) as (k & Hk & Hfree).
  destruct (makeUniqueName_spec (size (vmap t)) V name t)
    as (k' & Hlt & Hgiven & Hnone & Hbefore & Htable); [by exists k|].
  rewrite Hgiven, Htable. cbn [vmap LastUnique].
  split; [|split; [done|lia]]. split; [exact Hnone|].
  exists k'. by repeat split.
Qed.

(** A name that is free and short is the name the value gets. *)
Lemma createValueName_free name V t :
  vmap t !! cut name = None ->
  createValueName name V t
  = (cut name, mkSymbolTable (<[cut name := V]> (vmap t)) (LastUnique t)).
Proof.
  intros Hfree. unfold createValueName.
  assert ((if (MaxNameSize <? String.length name)%nat
           then String.substring 0 MaxNameSize name else name) = cut name) as ->.
  { unfold cut. destruct (Nat.ltb_spec MaxNameSize (String.length name)); [done|].
    symmetry. by apply cut_short. }
  by rewrite Hfree.
Qed.

End SymbolFacts.

(** ** The main loop of the lifter *)

Module LoopFacts.
Import IR Lifter LifterView LoopView.
Local Open Scope lift_scope.

(** *** Rules for computations that stay inside a function *)

Lemma stays_ret {A} f (a : A) (φ : A -> Prop) : φ a -> stays f (ret a) φ.
Proof. intros H s Hs. by split. Qed.

Lemma stays_bind {A B} f (c : M A) (k : A -> M B) φ ψ :
  stays f c φ -> (forall a, φ a -> stays f (k a) ψ) -> stays f (bind c k) ψ.
Proof.
  intros Hc Hk s Hs. unfold bind. specialize (Hc s Hs).
  destruct (c s) as [a s'|e]; [|done]. destruct Hc as [Hs' Ha]. by apply Hk.
Qed.

Lemma stays_weaken {A} f (c : M A) (φ ψ : A -> Prop) :
  stays f c φ -> (forall a, φ a -> ψ a) -> stays f c ψ.
Proof.
  intros Hc Hw s Hs. specialize (Hc s Hs).
  destruct (c s) as [a s'|e]; [|done]. destruct Hc as [Hs' Ha]. split; auto.
Qed.

Lemma stays_any {A} f (c : M A) φ : stays f c φ -> stays f c (fun _ => True).
Proof. intros Hc. by apply (stays_weaken f c φ). Qed.

Lemma stays_get f : stays f get (inFunction f).
Proof. intros s Hs. by split. Qed.

Lemma stays_raise {A} f e (φ : A -> Prop) : stays f (raise e) φ.
Proof. by intros s Hs. Qed.

Lemma stays_try_std {A} f (r : Cpp.Abort + A) : stays f (try_std r) (fun _ => True).
Proof. destruct r; [apply stays_raise|by apply stays_ret]. Qed.

Lemma stays_deref {A} f (p : option A) : stays f (deref p) (fun _ => True).
Proof. destruct p; [by apply stays_ret|apply stays_raise]. Qed.

Lemma stays_setError f msg : stays f (setError msg) (fun _ => True).
Proof. by intros s Hs. Qed.

Lemma stays_counter f n : stays f (modify (set_fallthroughCounter n)) (fun _ => True).
Proof. by intros s Hs. Qed.

Lemma stays_registers f (g : AssemblyLifter -> gmap string Value) :
  stays f (modify (fun s => set_registers (g s) s)) (fun _ => True).
Proof. by intros s Hs. Qed.

(** *** Changes of the module that keep the functions' names *)

Lemma alter_keeps_name (h : Function -> Function) (fs : list Function) (i g : nat) name :
  (forall fn, fn_name (h fn) = fn_name fn) ->
  fn_name <$> fs !! g = Some name ->
  fn_name <$> alter h i fs !! g = Some name.
Proof.
  intros Hh Hg. destruct (decide (i = g)) as [->|Hne].
  - rewrite list_lookup_alter_eq. destruct (fs !! g) as [fn|]; [|done].
    cbn in *. injection Hg as <-. f_equal. apply Hh.
  - by rewrite list_lookup_alter_ne.
Qed.

Lemma tablesAgree_module s m' :
  tablesAgree s ->
  (forall g name, fn_name <$> functions (module_ s) !! g = Some name ->
                  fn_name <$> functions m' !! g = Some name) ->
  tablesAgree (set_module m' s).
Proof. intros Hs Hm name g Hg. apply Hm. by apply Hs. Qed.

Lemma inFunction_module f s m' :
  inFunction f s ->
  (forall g name, fn_name <$> functions (module_ s) !! g = Some name ->
                  fn_name <$> functions m' !! g = Some name) ->
  inFunction f (set_module m' s).
Proof.
  intros (Hb & [fn Hf] & Hbs & Ht) Hm. split; [exact Hb|]. split.
  { specialize (Hm f (fn_name fn)). cbn in Hm. rewrite Hf in Hm.
    specialize (Hm eq_refl). cbn. destruct (functions m' !! f); [by eexists|discriminate]. }
  split; [exact Hbs|]. by apply tablesAgree_module.
Qed.

(** *** The primitives *)

Lemma stays_insertAt f ip front name op :
  stays f (insertAt ip front name op) (fun _ => True).
Proof.
  intros s Hs. split; [|done]. apply inFunction_module; [done|].
  intros g nm Hg. destruct ip as [r|]; [|exact Hg].
  by apply alter_keeps_name.
Qed.

Lemma stays_emit f name op : stays f (emit name op) (fun _ => True).
Proof. intros s Hs. apply (stays_insertAt f (builder_ s) false name op s Hs). Qed.

Lemma stays_createBlock f name g :
  stays f (createBlock name g) (fun r => parent r = g).
Proof.
  intros s Hs. split; [|done]. apply inFunction_module; [done|].
  intros h nm Hh. by apply alter_keeps_name.
Qed.

Lemma stays_SetInsertPoint f r :
  parent r = f -> stays f (SetInsertPoint r) (fun _ => True).
Proof.
  intros Hr s (Hb & Hf & Hbs & Ht). split; [|done].
  split; [by cbn; rewrite Hr|]. by repeat split.
Qed.

Lemma stays_GetInsertBlock f :
  stays f GetInsertBlock (fun b => parent <$> b = Some f).
Proof. intros s Hs. split; [done|]. apply Hs. Qed.

Lemma stays_insertParent f : stays f insertParent (fun g => g = f).
Proof.
  unfold insertParent. eapply stays_bind; [apply stays_GetInsertBlock|].
  intros [b|] Hb; [|apply stays_raise]. apply stays_ret. cbn in Hb. congruence.
Qed.

Lemma stays_functionEmpty f g : stays f (functionEmpty g) (fun _ => True).
Proof. by intros s Hs. Qed.

Lemma stays_functionFront f g : stays f (functionFront g) (fun _ => True).
Proof. by intros s Hs. Qed.

Lemma getOrCreateFunction_tables name s :
  tablesAgree s ->
  ∃ g s', getOrCreateFunction name s = Normal g s'
          ∧ tablesAgree s'
          ∧ functions_ s' !! name = Some g
          ∧ builder_ s' = builder_ s
          ∧ blocks_ s' = blocks_ s
          ∧ nextBlock (module_ s') = nextBlock (module_ s)
          ∧ (forall h fn, functions (module_ s) !! h = Some fn ->
                          functions (module_ s') !! h = Some fn).
Proof.
  intros Ht. unfold getOrCreateFunction, bind, get.
  destruct (functions_ s !! name) as [g|] eqn:Hg.
  { exists g, s. by repeat split. }
  eexists _, _. split; [reflexivity|]. cbn.
  split; [|split; [by rewrite lookup_insert_eq|]; repeat split; try done;
           intros h fn Hh; by apply lookup_app_l_Some].
  intros nm g. cbn. intros Hnm.
  destruct (decide (name = nm)) as [->|Hne].
  - rewrite lookup_insert_eq in Hnm. injection Hnm as <-.
    by rewrite lookup_app_r, Nat.sub_diag.
  - rewrite lookup_insert_ne in Hnm by done. specialize (Ht nm g Hnm). cbn in Ht.
    destruct (functions (module_ s) !! g) as [fn|] eqn:Hfn; [|done].
    by rewrite (lookup_app_l_Some _ _ _ _ Hfn).
Qed.

Lemma stays_getOrCreateFunction f name :
  stays f (getOrCreateFunction name) (fun _ => True).
Proof.
  intros s (Hb & [fn Hf] & Hbs & Ht).
  destruct (getOrCreateFunction_tables name s Ht)
    as (g & s' & -> & Ht' & _ & Hb' & Hbs' & _ & Hfs).
  split; [|done]. split; [by rewrite Hb'|]. split; [by rewrite (Hfs f fn Hf)|].
  split; [by rewrite Hbs'|done].
Qed.

Lemma stays_getOrCreateBlock f name :
  stays f (getOrCreateBlock name) (fun r => parent r = f).
Proof.
  unfold getOrCreateBlock. eapply stays_bind; [apply stays_get|].
  intros s (Hb & _ & Hbs & _).
  destruct (blocks_ s !! name) as [r|] eqn:Hr.
  { apply stays_ret. by apply (Hbs name r). }
  destruct (builder_ s) as [cb|]; [|done]. cbn in Hb. injection Hb as Hb.
  eapply (stays_bind _ _ _ (fun g => g = f)); [by apply stays_ret|]. intros g ->.
  eapply stays_bind; [apply stays_createBlock|]. intros r Hr'.
  eapply (stays_bind _ _ _ (fun _ => True)); [|intros _ _; apply stays_ret; exact Hr'].
  intros s1 (Hb1 & Hf1 & Hbs1 & Ht1). split; [|done].
  split; [exact Hb1|]. split; [exact Hf1|]. split; [|exact Ht1].
  cbn. apply map_Forall_insert_2; [congruence|exact Hbs1].
Qed.

Lemma stays_getOrCreateRegister f name :
  stays f (getOrCreateRegister name) (fun _ => True).
Proof.
  unfold getOrCreateRegister. eapply stays_bind; [apply stays_get|].
  intros s (Hb & _ & Hbs & _).
  destruct (registers_ s !! name); [by apply stays_ret|].
  destruct (builder_ s) as [cb|]; [|done]. cbn in Hb. injection Hb as Hb.
  eapply (stays_bind _ _ _ (fun _ => True)); [by apply stays_ret|]. intros g _.
  eapply stays_bind; [apply stays_functionEmpty|]. intros [|] _; cbn [negb].
  - eapply stays_bind; [apply stays_emit|]. intros reg _.
    eapply stays_bind; [apply stays_registers|]. intros _ _. by apply stays_ret.
  - eapply stays_bind; [apply stays_functionFront|]. intros entry _.
    eapply stays_bind; [apply stays_insertAt|]. intros reg _.
    eapply stays_bind; [apply stays_registers|]. intros _ _.
    eapply stays_bind; [by apply stays_SetInsertPoint|]. intros _ _.
    by apply stays_ret.
Qed.

(** One step through a computation built from the primitives. *)
Ltac stays_prim :=
  first
    [ apply stays_get
    | apply stays_raise
    | apply stays_try_std
    | apply stays_deref
    | apply stays_setError
    | apply stays_counter
    | apply stays_registers
    | apply stays_insertAt
    | apply stays_emit
    | apply stays_createBlock
    | apply stays_GetInsertBlock
    | apply stays_insertParent
    | apply stays_functionEmpty
    | apply stays_functionFront
    | apply stays_getOrCreateFunction
    | apply stays_getOrCreateBlock
    | apply stays_getOrCreateRegister ].

Ltac stays_step :=
  lazymatch goal with
  | |- stays _ (ret _) ?φ =>
      tryif is_evar φ
      then by apply (stays_ret _ _ (fun _ => True))
      else (apply stays_ret; cbn beta in *; first [done | congruence])
  | |- stays _ (bind _ _) _ => eapply stays_bind; [|intros ? ?]
  | |- stays _ (SetInsertPoint _) _ =>
      eapply stays_any; apply stays_SetInsertPoint; cbn beta in *; congruence
  | |- stays _ (match ?x with _ => _ end) _ => destruct x
  | |- stays _ (if ?x then _ else _) _ => destruct x
  | |- stays _ _ (fun _ => True) => first [stays_prim | eapply stays_any; stays_prim]
  | |- stays _ _ _ => stays_prim
  end.

(** *** The instructions *)

Lemma stays_CreateBinOp f op l r name : stays f (CreateBinOp op l r name) (fun _ => True).
Proof. unfold CreateBinOp. repeat stays_step. Qed.

Lemma stays_CreateICmp f p l r name : stays f (CreateICmp p l r name) (fun _ => True).
Proof. unfold CreateICmp. repeat stays_step. Qed.

Lemma stays_CreateZExt f v name : stays f (CreateZExt v name) (fun _ => True).
Proof. unfold CreateZExt. repeat stays_step. Qed.

Lemma stays_CreateIntToPtr f v name : stays f (CreateIntToPtr v name) (fun _ => True).
Proof. unfold CreateIntToPtr. repeat stays_step. Qed.

Ltac stays_create :=
  first
    [ apply stays_CreateBinOp
    | apply stays_CreateICmp
    | apply stays_CreateZExt
    | apply stays_CreateIntToPtr
    | apply stays_emit ].

Lemma stays_setFlagRegister f flag v : stays f (setFlagRegister flag v) (fun _ => True).
Proof.
  unfold setFlagRegister, getFlagRegister, CreateStore. repeat stays_step.
Qed.

Lemma stays_addTo f result v name : stays f (addTo result v name) (fun _ => True).
Proof. unfold addTo. repeat (stays_step || stays_create). Qed.

Lemma stays_calculateMemoryAddress f o :
  stays f (calculateMemoryAddress o) (fun _ => True).
Proof.
  unfold calculateMemoryAddress, CreateLoad, setError.
  repeat (stays_step || stays_create || apply stays_addTo).
Qed.

Lemma stays_getOperandValue f o : stays f (getOperandValue o) (fun _ => True).
Proof.
  unfold getOperandValue, CreateLoad.
  destruct (op_type o);
    repeat (stays_step || stays_create || apply stays_calculateMemoryAddress).
Qed.

Ltac stays_operand :=
  first
    [ stays_step
    | stays_create
    | apply stays_getOperandValue
    | apply stays_calculateMemoryAddress
    | apply stays_setFlagRegister ].

Lemma stays_liftArithmeticInstruction f inst :
  stays f (liftArithmeticInstruction inst) (fun _ => True).
Proof.
  unfold liftArithmeticInstruction, CreateStore, setError. repeat stays_operand.
Qed.

Lemma stays_liftMoveInstruction f inst :
  stays f (liftMoveInstruction inst) (fun _ => True).
Proof.
  unfold liftMoveInstruction, CreateStore, CreateLoad, setError. repeat stays_operand.
Qed.

Lemma stays_liftCompareInstruction f inst :
  stays f (liftCompareInstruction inst) (fun _ => True).
Proof.
  unfold liftCompareInstruction, setError. repeat stays_operand.
Qed.

Lemma stays_liftCallInstruction f inst :
  stays f (liftCallInstruction inst) (fun _ => True).
Proof.
  unfold liftCallInstruction, CreateCall, CreateStore, setError. repeat stays_operand.
Qed.

Lemma stays_liftReturnInstruction f inst :
  stays f (liftReturnInstruction inst) (fun _ => True).
Proof.
  unfold liftReturnInstruction, CreateRet, CreateLoad, setError. repeat stays_operand.
Qed.

Lemma stays_liftStackInstruction f inst :
  stays f (liftStackInstruction inst) (fun _ => True).
Proof.
  unfold liftStackInstruction, CreateStore, CreateLoad, setError. repeat stays_operand.
Qed.

Lemma stays_getFlagCond f name b : stays f (getFlagCond name b) (fun _ => True).
Proof. unfold getFlagCond, getFlagRegister, CreateLoad. repeat stays_operand. Qed.

Lemma stays_liftJumpInstruction f inst :
  stays f (liftJumpInstruction inst) (fun _ => True).
Proof.
  unfold liftJumpInstruction, CreateBr, CreateCondBr, setError.
  repeat (stays_operand || apply stays_getFlagCond).
Qed.

(** Lifting an instruction leaves the builder and the table of blocks in
    the function they are in. *)
Lemma stays_liftInstruction f inst i : stays f (liftInstruction inst i) (fun _ => True).
Proof.
  unfold liftInstruction.
  destruct (inst_type inst);
    first [ apply stays_liftArithmeticInstruction
          | apply stays_liftMoveInstruction
          | apply stays_liftCompareInstruction
          | apply stays_liftJumpInstruction
          | apply stays_liftCallInstruction
          | apply stays_liftReturnInstruction
          | apply stays_liftStackInstruction
          | unfold setError; repeat stays_step ].
Qed.

(** *** The call sinks *)

Lemma count_insert (callTargets : gmap string bool) k name :
  count (<[k := true]> callTargets) name = String.eqb k name || count callTargets name.
Proof.
  unfold count. destruct (String.eqb_spec k name) as [->|Hne].
  - rewrite lookup_insert_eq. by rewrite bool_decide_eq_true_2.
  - by rewrite lookup_insert_ne.
Qed.

Lemma count_fold instructions : forall (acc : gmap string bool) name,
  count (fold_left (fun callTargets inst =>
                      if isCallSink inst
                      then <[op_value (operand inst 0) := true]> callTargets
                      else callTargets) instructions acc) name
  = count acc name || isCallOperand instructions name.
Proof.
  induction instructions as [|inst rest IH]; intros acc name; cbn [fold_left].
  { by rewrite orb_false_r. }
  rewrite IH. cbn [isCallOperand existsb]. fold (isCallOperand rest name).
  destruct (isCallSink inst); cbn [andb orb]; [|done].
  rewrite count_insert.
  destruct (String.eqb (op_value (operand inst 0)) name), (count acc name); done.
Qed.

(** The set built by the first loop holds the label operands of the
    calls. *)
Lemma count_collectCallTargets instructions name :
  count (collectCallTargets instructions) name = isCallOperand instructions name.
Proof. unfold collectCallTargets. by rewrite count_fold. Qed.

(** *** Opening a block and opening a function *)

Lemma getValueSymbolTable_insert tables f t fs n b :
  getValueSymbolTable (mkModule fs n b (<[f := t]> tables)) f = t.
Proof. unfold getValueSymbolTable. cbn [symbolTables]. by rewrite lookup_insert_eq. Qed.

(** A block created under a name that is not empty gets its name from
    the symbol table of its function. *)
Lemma createBlock_fresh name f fn s :
  name ≠ "" ->
  functions (module_ s) !! f = Some fn ->
  ∃ given,
    createBlock name f s
    = Normal (mkRef f (nextBlock (module_ s)))
        (set_module
           (mkModule (alter (fun fn => mkFunction (fn_name fn)
                               (fn_blocks fn ++ [mkBlock (nextBlock (module_ s)) given []]))
                            f (functions (module_ s)))
                     (nextInst (module_ s)) (S (nextBlock (module_ s)))
                     (snd (setName f name (BlockValue (nextBlock (module_ s))) (module_ s))))
           s)
    ∧ freshBlock (getValueSymbolTable (module_ s) f)
        (mkModule (alter (fun fn => mkFunction (fn_name fn)
                            (fn_blocks fn ++ [mkBlock (nextBlock (module_ s)) given []]))
                         f (functions (module_ s)))
                  (nextInst (module_ s)) (S (nextBlock (module_ s)))
                  (snd (setName f name (BlockValue (nextBlock (module_ s))) (module_ s))))
        f (nextBlock (module_ s)) name.
Proof.
  intros Hname Hf.
  exists (fst (setName f name (BlockValue (nextBlock (module_ s))) (module_ s))).
  split; [reflexivity|].
  unfold setName. apply String.eqb_neq in Hname. rewrite Hname. cbn [fst snd].
  destruct (SymbolFacts.createValueName_spec name (BlockValue (nextBlock (module_ s)))
              (getValueSymbolTable (module_ s) f)) as (Hnamed & Hvmap & _).
  eexists. split; [|split; [exact Hnamed|]].
  - eexists. cbn [functions]. split; [by rewrite list_lookup_alter_eq, Hf|].
    cbn [fn_blocks]. by rewrite last_snoc.
  - by rewrite getValueSymbolTable_insert.
Qed.

Lemma getOrCreateBlock_spec f name s :
  name ≠ "" ->
  inFunction f s ->
  ∃ r s1,
    getOrCreateBlock name s = Normal r s1
    ∧ inFunction f s1
    ∧ parent r = f
    ∧ blocks_ s1 !! name = Some r
    ∧ match blocks_ s !! name with
      | Some r0 => r = r0 ∧ s1 = s
      | None => block r = nextBlock (module_ s)
                ∧ freshBlock (getValueSymbolTable (module_ s) f) (module_ s1) f
                             (block r) name
      end.
Proof.
  intros Hname Hs. pose proof (stays_getOrCreateBlock f name s Hs) as Hstays.
  destruct Hs as (Hb & [fn Hf] & Hbs & Ht).
  unfold getOrCreateBlock, bind, get in *.
  destruct (blocks_ s !! name) as [r|] eqn:Hr.
  { exists r, s. cbn in Hstays. destruct Hstays as [Hs Hp]. by repeat split. }
  destruct (builder_ s) as [cb|] eqn:Hcb; [|done]. cbn in Hb. injection Hb as Hb.
  unfold ret at 1 in Hstays. unfold ret at 1. cbn beta iota in *.
  rewrite Hb in *.
  destruct (createBlock_fresh name f fn s Hname Hf) as (given & Hrun & Hfresh).
  rewrite Hrun in *. cbn in Hstays. destruct Hstays as [Hs1 _].
  eexists _, _. split; [reflexivity|]. split; [exact Hs1|]. split; [done|].
  cbn. split; [by rewrite lookup_insert_eq|]. split; [done|]. exact Hfresh.
Qed.

Lemma tablesAgree_init : tablesAgree Lifter.init.
Proof. unfold tablesAgree. cbn. apply map_Forall_empty. Qed.

Lemma openFunction_spec name s :
  name ≠ "" ->
  tablesAgree s ->
  ∃ f fn s',
    (f <- getOrCreateFunction name ;;
     modify (set_blocks ∅) ;;
     modify (set_registers ∅) ;;
     funcEntry <- createBlock name f ;;
     SetInsertPoint funcEntry ;;
     ret (mkLocals (Some f) false)) s = Normal (mkLocals (Some f) false) s'
    ∧ opened (OpensFunction name) (mkLocals None true) s (mkLocals (Some f) false) s'
    ∧ functions (module_ s') !! f = Some fn
    ∧ inFunction f s'.
Proof.
  intros Hname Ht. unfold getOrCreateFunction. unfold bind at 1 2, get at 1.
  destruct (functions_ s !! name) as [f|] eqn:Hfound.
  - pose proof (Ht name f Hfound) as Hfn. cbn in Hfn.
    destruct (functions (module_ s) !! f) as [fn|] eqn:Hf; [|done].
    cbn in Hfn. injection Hfn as Hfn.
    unfold ret at 1, bind, modify.
    set (s0 := set_registers ∅ (set_blocks ∅ s)).
    destruct (createBlock_fresh name f fn s0 Hname Hf) as (given & Hrun & Hfresh).
    rewrite Hrun. cbn [SetInsertPoint modify ret].
    eexists f, _, _. split; [reflexivity|].
    assert (functions
              (mkModule (alter (fun fn0 => mkFunction (fn_name fn0)
                                  (fn_blocks fn0 ++ [mkBlock (nextBlock (module_ s)) given []]))
                               f (functions (module_ s)))
                        (nextInst (module_ s)) (S (nextBlock (module_ s)))
                        (snd (setName f name (BlockValue (nextBlock (module_ s))) (module_ s))))
            !! f
            = Some (mkFunction (fn_name fn)
                      (fn_blocks fn ++ [mkBlock (nextBlock (module_ s)) given []]))) as Hf'.
    { cbn [functions]. by rewrite list_lookup_alter_eq, Hf. }
    split; [|split; [exact Hf'|]].
    + exists f, (mkFunction (fn_name fn)
                   (fn_blocks fn ++ [mkBlock (nextBlock (module_ s)) given []])).
      split; [done|]. split; [exact Hfound|]. split; [exact Hf'|]. split; [exact Hfn|].
      rewrite Hfound. split; [split; [done|exact Hfresh]|]. by repeat split.
    + split; [done|]. split; [by eexists|]. split; [apply map_Forall_empty|].
      intros nm g Hg. cbn in *. apply alter_keeps_name; [done|]. by apply Ht.
  - unfold createFunction, bind, modify, ret.
    set (f := length (functions (module_ s))).
    set (b := nextBlock (module_ s)).
    cbn [module_ set_module set_functions set_blocks set_registers functions nextInst
         nextBlock symbolTables functions_].
    unfold createBlock, setName. apply String.eqb_neq in Hname. rewrite Hname.
    cbn [module_ set_module set_functions set_blocks set_registers functions nextInst
         nextBlock symbolTables functions_ fst snd].
    rewrite getValueSymbolTable_insert.
    rewrite (SymbolFacts.createValueName_free name (BlockValue b) emptySymbolTable)
      by apply lookup_empty.
    cbn [fst snd SetInsertPoint modify].
    assert (alter (fun fn0 => mkFunction (fn_name fn0) (fn_blocks fn0 ++ [mkBlock b (cut name) []]))
                  f (functions (module_ s) ++ [mkFunction name []]) !! f
            = Some (mkFunction name [mkBlock b (cut name) []])) as Hf'.
    { rewrite list_lookup_alter_eq. subst f. by rewrite list_lookup_middle. }
    eexists f, _, _. split; [reflexivity|].
    split; [|split; [exact Hf'|]].
    + exists f, (mkFunction name [mkBlock b (cut name) []]).
      split; [done|]. split; [by cbn; rewrite lookup_insert_eq|].
      split; [exact Hf'|]. split; [done|]. rewrite Hfound.
      split; [|by repeat split]. split; [done|]. split; [done|].
      cbn [module_ set_module set_builder]. rewrite getValueSymbolTable_insert.
      cbn [vmap emptySymbolTable]. by rewrite insert_empty.
    + split; [done|]. split; [by eexists|]. split; [apply map_Forall_empty|].
      intros nm g Hg. cbn in *.
      destruct (decide (name = nm)) as [<-|Hne].
      * rewrite lookup_insert_eq in Hg. injection Hg as <-. by rewrite Hf'.
      * rewrite lookup_insert_ne in Hg by done.
        apply alter_keeps_name; [done|].
        specialize (Ht nm g Hg). cbn in Ht.
        destruct (functions (module_ s) !! g) as [fn0|] eqn:Hg0; [|done].
        apply lookup_lt_Some in Hg0 as Hlt. by rewrite lookup_app_l, Hg0.
Qed.

(** What the head of the loop body does, and that the function it leaves
    open holds the builder. *)
Lemma openLabel_spec callTargets inst i l s :
  loopInvariant i l s ->
  ∃ l' s',
    openLabel callTargets inst l s = Normal l' s'
    ∧ opened (if String.eqb (label inst) ""
              then if (i =? 0)%nat then OpensFunction "main" else Continues
              else if String.eqb (label inst) "main" || String.eqb (label inst) "start"
                      || count callTargets (label inst) || (i =? 0)%nat
                   then OpensFunction (label inst)
                   else OpensBlock (label inst)) l s l' s'
    ∧ loopInvariant (S i) l' s'.
Proof.
  intros Hinv. unfold openLabel, startsFunction.
  assert (isFirstLabel l = (i =? 0)%nat) as Hfirst.
  { unfold loopInvariant in Hinv. destruct (i =? 0)%nat.
    - by destruct Hinv as [-> _].
    - by destruct Hinv as [-> _]. }
  assert (tablesAgree s) as Ht.
  { unfold loopInvariant in Hinv. destruct (i =? 0)%nat.
    - destruct Hinv as [_ ->]. apply tablesAgree_init.
    - destruct Hinv as (_ & f & _ & Hs). apply Hs. }
  rewrite Hfirst.
  destruct (String.eqb_spec (label inst) "") as [Hlabel|Hlabel]; cbn [negb].
  - unfold loopInvariant in Hinv. destruct (i =? 0)%nat eqn:Hi.
    + destruct Hinv as [-> ->]. cbn [currentFunc isFirstLabel andb negb].
      destruct (openFunction_spec "main" Lifter.init) as (f & fn & s' & Hrun & Hopened & Hf & Hs');
        [done|apply tablesAgree_init|].
      change (bool_decide (is_Some (None : option nat))) with false. cbn [negb andb].
      unfold bind at 1 2 in Hrun. unfold modify at 1 2 in Hrun.
      exists (mkLocals (Some f) false), s'. split; [exact Hrun|].
      split; [exact Hopened|]. cbn. split; [done|]. by exists f.
    + destruct Hinv as (Hfl & f & Hcur & Hs). rewrite Hcur. cbn.
      exists l, s. split; [done|]. split; [done|]. split; [done|]. by exists f.
  - destruct (String.eqb (label inst) "main" || String.eqb (label inst) "start"
              || count callTargets (label inst) || (i =? 0)%nat) eqn:Hstart.
    + destruct (openFunction_spec (label inst) s Hlabel Ht)
        as (f & fn & s' & Hrun & Hopened & Hf & Hs').
      exists (mkLocals (Some f) false), s'. split; [exact Hrun|]. split.
      * destruct Hopened as (f0 & fn0 & Heq & Hrest). exists f0, fn0.
        split; [exact Heq|exact Hrest].
      * cbn. split; [done|]. by exists f.
    + unfold loopInvariant in Hinv. destruct (i =? 0)%nat eqn:Hi.
      { by rewrite orb_true_r in Hstart. }
      destruct Hinv as (Hfl & f & Hcur & Hs). rewrite Hcur.
      destruct (getOrCreateBlock_spec f (label inst) s Hlabel Hs)
        as (r & s1 & Hrun & Hs1 & Hr & Hin & Hnew).
      unfold bind, ret. rewrite Hrun. cbn.
      eexists _, _. split; [reflexivity|]. split.
      * exists f, r. split; [exact Hcur|]. split; [apply Hs|].
        split; [destruct l; cbn in *; congruence|]. split; [exact Hr|].
        split; [done|]. split; [exact Hin|].
        destruct (blocks_ s !! label inst); [|exact Hnew].
        destruct Hnew as [-> ->]. done.
      * cbn. split; [done|]. exists f. split; [done|].
        destruct Hs1 as (Hb1 & Hf1 & Hbs1 & Ht1).
        split; [by cbn; rewrite Hr|]. by repeat split.
Qed.

(** *** The loop *)

(** [liftLoop] over a stream is [liftPrefix] over its first part, then
    [liftLoop] over the rest. *)
Lemma liftLoop_app callTargets pre post : forall i l s,
  liftLoop callTargets (pre ++ post) i l s
  = match liftPrefix callTargets pre i l s with
    | Normal (Some l') s' => liftLoop callTargets post (i + length pre) l' s'
    | Normal None s' => Normal false s'
    | Abnormal e => Abnormal e
    end.
Proof.
  induction pre as [|inst pre IH]; intros i l s; cbn [app liftLoop liftPrefix length].
  { by rewrite Nat.add_0_r. }
  unfold bind. destruct (openLabel callTargets inst l s) as [l1 s1|e]; [|done].
  destruct (liftInstruction inst i s1) as [[|] s2|e]; [|done..].
  rewrite IH. by replace (S i + length pre)%nat with (i + S (length pre))%nat by lia.
Qed.

Lemma liftPrefix_invariant callTargets pre : forall i l s l2 s2,
  loopInvariant i l s ->
  liftPrefix callTargets pre i l s = Normal (Some l2) s2 ->
  loopInvariant (i + length pre) l2 s2.
Proof.
  induction pre as [|inst pre IH]; intros i l s l2 s2 Hinv Hrun;
    cbn [liftPrefix length] in *.
  { rewrite Nat.add_0_r. unfold ret in Hrun. by injection Hrun as <- <-. }
  destruct (openLabel_spec callTargets inst i l s Hinv) as (l1 & s1 & Hopen & _ & Hinv1).
  unfold bind in Hrun. rewrite Hopen in Hrun.
  destruct Hinv1 as (Hfl & f & Hcur & Hs1).
  pose proof (stays_liftInstruction f inst i s1 Hs1) as Hlift.
  destruct (liftInstruction inst i s1) as [[|] s3|e]; [|done..].
  destruct Hlift as [Hs3 _].
  replace (i + S (length pre))%nat with (S i + length pre)%nat by lia.
  apply (IH (S i) l1 s3); [|exact Hrun]. cbn. split; [exact Hfl|]. by exists f.
Qed.

(** The loop that has lifted a stream has run [liftPrefix] over it. *)
Lemma liftLoop_prefix callTargets pre i l s s' :
  liftLoop callTargets pre i l s = Normal true s' ->
  ∃ l', liftPrefix callTargets pre i l s = Normal (Some l') s'.
Proof.
  intros Hrun. pose proof (liftLoop_app callTargets pre [] i l s) as Happ.
  rewrite app_nil_r, Hrun in Happ.
  destruct (liftPrefix callTargets pre i l s) as [[l'|] s1|e]; [|done..].
  cbn in Happ. injection Happ as <-. by exists l'.
Qed.

(** C5, amended: when the loop of [liftToLLVM], started on a fresh lifter,
    has lifted the instructions before an instruction of the stream, the
    head of the loop body opens what [opening] reads off the stream, and the
    loop goes on from there with the instruction itself.  A label opens a
    function exactly when it is [main] or [start], is the label operand of
    some [CALL], or is carried by the first instruction of the stream; every
    other label opens a block in the current function, the one a jump has
    entered in the table of blocks or a fresh one; an unlabelled first
    instruction opens the function [main], whose entry block is named
    [main]; any other unlabelled instruction opens nothing.  A fresh block
    bears the name of the label when no value of the function bears it, and
    that name followed by a number otherwise. *)
Theorem label_opening instructions pre inst post s :
  instructions = pre ++ inst :: post ->
  liftLoop (collectCallTargets instructions) pre 0 (mkLocals None true) Lifter.init
  = Normal true s ->
  ∃ l l' s',
    openLabel (collectCallTargets instructions) inst l s = Normal l' s'
    ∧ opened (opening instructions (length pre) inst) l s l' s'
    ∧ liftLoop (collectCallTargets instructions) instructions 0 (mkLocals None true)
               Lifter.init
      = match liftInstruction inst (length pre) s' with
        | Normal true s'' =>
            liftLoop (collectCallTargets instructions) post (S (length pre)) l' s''
        | Normal false s'' => Normal false s''
        | Abnormal e => Abnormal e
        end.
Proof.
  intros -> Hloop.
  destruct (liftLoop_prefix _ _ _ _ _ _ Hloop) as (l & Hrun).
  pose proof (liftPrefix_invariant _ pre 0 _ Lifter.init l s (conj eq_refl eq_refl) Hrun)
    as Hinv.
  destruct (openLabel_spec (collectCallTargets (pre ++ inst :: post)) inst _ l s Hinv)
    as (l' & s' & Hopen & Hopened & _).
  exists l, l', s'. split; [exact Hopen|]. split.
  { unfold opening. by rewrite <- count_collectCallTargets. }
  rewrite liftLoop_app, Hrun. cbn [liftLoop Nat.add]. unfold bind. rewrite Hopen.
  by destruct (liftInstruction inst (length pre) s') as [[|] s''|e].
Qed.

(** The theorem on the label [foo] of the prologue sample, reached after
    one instruction. *)
Lemma label_opening_witness :
  ∃ s l l' s',
    liftLoop (collectCallTargets (Samples.parse Samples.prologueSource))
             [Samples.movEaxOne] 0 (mkLocals None true) Lifter.init
    = Normal true s
    ∧ openLabel (collectCallTargets (Samples.parse Samples.prologueSource))
                Samples.fooLabel l s
      = Normal l' s'
    ∧ opened (OpensBlock "foo") l s l' s'.
Proof.
  assert (Samples.parse Samples.prologueSource
          = [Samples.movEaxOne] ++ Samples.fooLabel :: [Samples.plainRet]) as Hsplit.
  { vm_compute. reflexivity. }
  destruct (liftLoop (collectCallTargets (Samples.parse Samples.prologueSource))
                     [Samples.movEaxOne] 0 (mkLocals None true) Lifter.init)
    as [[|] s|e] eqn:Hrun; [|by vm_compute in Hrun..].
  destruct (label_opening _ _ _ _ s Hsplit Hrun) as (l & l' & s' & Hopen & Hopened & _).
  exists s, l, l', s'. split; [reflexivity|]. split; [exact Hopen|].
  replace (opening (Samples.parse Samples.prologueSource) (length [Samples.movEaxOne])
                   Samples.fooLabel)
    with (OpensBlock "foo") in Hopened by (vm_compute; reflexivity).
  exact Hopened.
Defined.

(** A label met again: the second [main:] opens the function [main] again
    and its block, created under a name the entry block bears, is named
    [main1]. *)
Example second_main_is_renamed :
  map fn_name (functions (Samples.moduleOf Samples.twoMainsSource)) = ["main"]
  ∧ Samples.blocksOf (Samples.moduleOf Samples.twoMainsSource) "main" = ["main"; "main1"].
Proof. split; vm_compute; reflexivity. Qed.

(** Instructions draw on the same numbers: after a second comparison,
    whose two loads, five results and five extensions have been renamed,
    the block of the label [cmp_eq], a name the first comparison bears, is
    named [cmp_eq13]. *)
Example label_after_renamed_instructions :
  Samples.blocksOf (Samples.moduleOf Samples.renamedLabelSource) "main"
  = ["main"; "cmp_eq13"].
Proof. vm_compute. reflexivity. Qed.

(** C5, the claim as stated fails: in the prologue sample the first
    instruction is unlabelled and [foo] is the first label of the stream;
    lifting succeeds, the only function is [main], its entry block is named
    [main], and [foo] is its second block. *)
Lemma first_label_after_prologue_opens_block :
  (∃ s, Samples.lift Samples.prologueSource = Normal true s)
  ∧ map fn_name (functions (Samples.moduleOf Samples.prologueSource)) = ["main"]
  ∧ Samples.blocksOf (Samples.moduleOf Samples.prologueSource) "main" = ["main"; "foo"]
  ∧ findFunction "foo" (Samples.moduleOf Samples.prologueSource) = None.
Proof.
  split; [eexists; vm_compute; reflexivity|].
  split; [vm_compute; reflexivity|].
  split; [vm_compute; reflexivity|].
  vm_compute; reflexivity.
Qed.

End LoopFacts.

(** ** The parser *)

Module StringFacts.

Lemma append_nil_l (s : string) : "" +:+ s = s.
Proof. reflexivity. Qed.

Lemma append_cons a (s t : string) : String a s +:+ t = String a (s +:+ t).
Proof. reflexivity. Qed.

Lemma append_nil_r (s : string) : s +:+ "" = s.
Proof. induction s as [|a s IH]; [done|]. by rewrite append_cons, IH. Qed.

Lemma append_assoc (a b c : string) : (a +:+ b) +:+ c = a +:+ b +:+ c.
Proof. induction a as [|x a IH]; [done|]. by rewrite !append_cons, IH. Qed.

Lemma rev_app_append (s t : string) : String.rev_app s t = String.rev s +:+ t.
Proof.
  revert t. induction s as [|a s IH]; intros t; [done|].
  unfold String.rev. cbn [String.rev_app]. rewrite (IH (String a t)), (IH (String a "")).
  by rewrite append_assoc.
Qed.

Lemma rev_cons a (s : string) : String.rev (String a s) = String.rev s +:+ String a "".
Proof. unfold String.rev at 1. cbn [String.rev_app]. apply rev_app_append. Qed.

Lemma rev_append (a b : string) : String.rev (a +:+ b) = String.rev b +:+ String.rev a.
Proof.
  induction a as [|x a IH].
  { by rewrite append_nil_l, append_nil_r. }
  by rewrite append_cons, !rev_cons, IH, append_assoc.
Qed.

Lemma rev_involutive (s : string) : String.rev (String.rev s) = s.
Proof.
  induction s as [|a s IH]; [done|].
  by rewrite rev_cons, rev_append, IH.
Qed.

Lemma all_of_append p (a b : string) :
  Cpp.all_of p (a +:+ b) = Cpp.all_of p a && Cpp.all_of p b.
Proof.
  induction a as [|x a IH]; [done|].
  rewrite append_cons. cbn [Cpp.all_of]. by rewrite IH, andb_assoc.
Qed.

Lemma all_of_rev p (s : string) : Cpp.all_of p (String.rev s) = Cpp.all_of p s.
Proof.
  induction s as [|a s IH]; [done|].
  rewrite rev_cons, all_of_append, IH. cbn [Cpp.all_of].
  by rewrite andb_true_r, andb_comm.
Qed.

Lemma back_append_cons (s : string) a t : Cpp.back (s +:+ String a t) = Cpp.back (String a t).
Proof.
  induction s as [|x s IH]; [done|].
  rewrite append_cons. cbn [Cpp.back]. rewrite IH.
  destruct (s +:+ String a t) eqn:Hs; [|done]. by destruct s.
Qed.

Lemma back_rev (s : string) :
  Cpp.back (String.rev s) = match s with String a _ => Some a | EmptyString => None end.
Proof. destruct s as [|a s]; [done|]. by rewrite rev_cons, back_append_cons. Qed.

Lemma front_append (a b : string) : a ≠ "" -> Cpp.front (a +:+ b) = Cpp.front a.
Proof. by destruct a. Qed.

End StringFacts.

Module ParserFacts.
Import Parser StringFacts.

(** What one line does to the parser, whatever the line. *)
Lemma parseLine_cases line p :
  parseLine line p = (true, p)
  ∨ (∃ inst,
       parseLine line p
       = (true, mkParser (instructions_ p ++ [inst])
                         (<[label inst := length (instructions_ p)]> (labels_ p))
                         (errorMessage_ p))
       ∧ inst_type inst ≠ InstructionType.UNKNOWN)
  ∨ (∃ inst,
       parseLine line p = (true, push_instruction inst p)
       ∧ inst_type inst ≠ InstructionType.UNKNOWN)
  ∨ (∃ tok lbls,
       parseLine line p
       = (false, mkParser (instructions_ p) lbls ("Unknown instruction: " +:+ tok))
       ∧ tok ∈ tokenize (trim (removeComments line))
       ∧ parseInstructionType tok = InstructionType.UNKNOWN).
Proof.
  unfold parseLine.
  destruct (String.eqb (trim (removeComments line)) ""); [by left|].
  destruct (tokenize (trim (removeComments line))) as [|firstToken rest] eqn:Htok;
    [by left|].
  destruct (bool_decide (Cpp.back firstToken = Some ":"%char)).
  - destruct rest as [|mnemonic args].
    + right. left. eexists (mkInstruction _ _ _). split; [reflexivity|]. done.
    + destruct (bool_decide (parseInstructionType mnemonic = InstructionType.UNKNOWN))
        eqn:Hty.
      * right. right. right. exists mnemonic. eexists. split; [reflexivity|].
        split; [set_solver|]. by apply bool_decide_eq_true in Hty.
      * right. left. eexists (mkInstruction _ _ _). split; [reflexivity|]. cbn.
        by apply bool_decide_eq_false in Hty.
  - destruct (bool_decide (parseInstructionType firstToken = InstructionType.UNKNOWN))
      eqn:Hty.
    + right. right. right. exists firstToken. eexists. split; [reflexivity|].
      split; [set_solver|]. by apply bool_decide_eq_true in Hty.
    + right. right. left. eexists. split; [reflexivity|]. cbn.
      by apply bool_decide_eq_false in Hty.
Qed.

Lemma parseLines_known lines : forall k p,
  Forall (fun i => inst_type i ≠ InstructionType.UNKNOWN) (instructions_ p) ->
  Forall (fun i => inst_type i ≠ InstructionType.UNKNOWN)
         (instructions_ (snd (parseLines lines k p))).
Proof.
  induction lines as [|line lines IH]; intros k p Hp; cbn [parseLines]; [done|].
  destruct (parseLine_cases line p)
    as [H|[(inst & H & Hi)|[(inst & H & Hi)|(tok & lbls & H & _)]]]; rewrite H.
  - by apply IH.
  - apply IH. cbn. apply Forall_app. split; [done|]. by constructor.
  - apply IH. cbn. apply Forall_app. split; [done|]. by constructor.
  - done.
Qed.

(** X1.  Whatever the text, and whether or not parsing succeeds, no
    instruction the parser holds afterwards has the type [UNKNOWN]: the
    lifter's answer to an unsupported instruction type is never reached
    from a parsed file.  A file that cannot be opened gives no
    instruction. *)
Theorem parsed_instructions_are_known filename content :
  Forall (fun i => inst_type i ≠ InstructionType.UNKNOWN)
         (instructions_ (snd (parseFile filename content init))).
Proof.
  destruct content as [text|]; cbn [parseFile]; [|by constructor].
  apply parseLines_known. by constructor.
Qed.

Lemma parseLines_labels lines : forall k p p',
  ParserView.labelsPoint p ->
  parseLines lines k p = (true, p') ->
  ParserView.labelsPoint p'.
Proof.
  induction lines as [|line lines IH]; intros k p p' Hp Hrun; cbn [parseLines] in Hrun.
  { by injection Hrun as <-. }
  destruct (parseLine_cases line p)
    as [H|[(inst & H & Hi)|[(inst & H & Hi)|(tok & lbls & H & _)]]];
    rewrite H in Hrun; [by eapply IH| | |done].
  - eapply IH; [|exact Hrun]. intros name i. cbn. intros Hl.
    destruct (decide (label inst = name)) as [<-|Hne].
    + rewrite lookup_insert_eq in Hl. injection Hl as <-.
      exists inst. split; [|done]. by rewrite lookup_app_r, Nat.sub_diag.
    + rewrite lookup_insert_ne in Hl by done.
      destruct (Hp name i Hl) as (x & Hx & Hn). exists x. split; [|done].
      by apply lookup_app_l_Some.
  - eapply IH; [|exact Hrun]. intros name i. cbn. intros Hl.
    destruct (Hp name i Hl) as (x & Hx & Hn). exists x. split; [|done].
    by apply lookup_app_l_Some.
Qed.

(** X2.  When a file parses, every entry of the table of labels is the index
    of an instruction that carries that label. *)
Theorem labels_point_at_labelled_instructions filename text p name i :
  parseFile filename (Some text) init = (true, p) ->
  labels_ p !! name = Some i ->
  ∃ inst, instructions_ p !! i = Some inst ∧ label inst = name.
Proof.
  intros Hrun. revert name i. change (ParserView.labelsPoint p).
  eapply parseLines_labels; [|exact Hrun]. intros name i Hl. by cbn in Hl.
Qed.

Lemma parseLines_failure lines : forall k p p',
  parseLines lines k p = (false, p') ->
  ∃ n line tok,
    lines !! n = Some line
    ∧ tok ∈ tokenize (trim (removeComments line))
    ∧ parseInstructionType tok = InstructionType.UNKNOWN
    ∧ errorMessage_ p'
      = "Error at line " +:+ Cpp.to_string (k + n + 1) +:+ ": Unknown instruction: " +:+ tok
    ∧ fst (parseLines (take n lines) k p) = true
    ∧ instructions_ p' = instructions_ (snd (parseLines (take n lines) k p)).
Proof.
  induction lines as [|line lines IH]; intros k p p' Hrun; cbn [parseLines] in Hrun;
    [done|].
  destruct (parseLine_cases line p)
    as [H|[(inst & H & Hi)|[(inst & H & Hi)|(tok & lbls & H & Htok & Hty)]]];
    rewrite H in Hrun.
  1-3: destruct (IH _ _ _ Hrun) as (n & l & tok & Hl & Htok & Hty & Hmsg & Hok & Hins);
       exists (S n), l, tok; cbn [take parseLines]; rewrite H;
       replace (k + S n + 1)%nat with (S k + n + 1)%nat by lia; done.
  exists 0%nat, line, tok. injection Hrun as <-. cbn.
  replace (k + 0 + 1)%nat with (S k) by lia. done.
Qed.

(** X3.  When a text does not parse, the message names the line, counted
    from 1, of the first line that does not parse and the token that is no
    instruction; the lines before it have been parsed and their
    instructions are kept. *)
Theorem parse_failure_names_line_and_token text p :
  parseString text init = (false, p) ->
  ∃ n line tok,
    getlines text !! n = Some line
    ∧ tok ∈ tokenize (trim (removeComments line))
    ∧ parseInstructionType tok = InstructionType.UNKNOWN
    ∧ errorMessage_ p
      = "Error at line " +:+ Cpp.to_string (n + 1) +:+ ": Unknown instruction: " +:+ tok
    ∧ fst (parseLines (take n (getlines text)) 0 init) = true
    ∧ instructions_ p = instructions_ (snd (parseLines (take n (getlines text)) 0 init)).
Proof. intros Hrun. exact (parseLines_failure _ 0%nat init p Hrun). Qed.

(** *** Comments *)

Lemma find_app_fresh c line rest :
  Cpp.find c line = None ->
  Cpp.find c (line +:+ String c rest) = Some (String.length line).
Proof.
  induction line as [|a line IH]; intros Hnone.
  { rewrite append_nil_l. cbn [Cpp.find String.length].
    unfold Cpp.eqb_ascii. by rewrite Ascii.eqb_refl. }
  rewrite append_cons. cbn [Cpp.find String.length] in *.
  destruct (Cpp.eqb_ascii a c); [done|].
  destruct (Cpp.find c line); [done|]. by rewrite IH.
Qed.

Lemma substring_app_prefix (a b : string) :
  String.substring 0 (String.length a) (a +:+ b) = a.
Proof.
  induction a as [|x a IH].
  { rewrite append_nil_l. by destruct b. }
  rewrite append_cons. cbn [String.length String.substring]. by rewrite IH.
Qed.

(** X4.  What follows a [#] on a line is ignored: a line with a comment
    appended parses as the line alone. *)
Theorem trailing_comment_is_ignored line comment p :
  Cpp.find "#" line = None ->
  parseLine (line +:+ "#" +:+ comment) p = parseLine line p.
Proof.
  intros Hnone. unfold parseLine.
  assert (removeComments (line +:+ "#" +:+ comment) = removeComments line) as ->; [|done].
  unfold removeComments. rewrite Hnone.
  change ("#" +:+ comment) with (String "#" comment).
  by rewrite find_app_fresh, substring_app_prefix.
Qed.

(** *** Trimming *)

Lemma dropWhile_split p (s : string) :
  ∃ a, s = a +:+ dropWhile p s
       ∧ Cpp.all_of p a = true
       ∧ (dropWhile p s = "" ∨ p (Cpp.front (dropWhile p s)) = false).
Proof.
  induction s as [|x s (a & Hs & Ha & Hfront)].
  { exists "". by repeat split; [left]. }
  cbn [dropWhile]. destruct (p x) eqn:Hx.
  - exists (String x a). rewrite append_cons, <- Hs. cbn [Cpp.all_of].
    by rewrite Hx, Ha.
  - exists "". repeat split. by right.
Qed.

(** X5.  [trim] takes blanks off both ends and nothing else: the string is
    what [trim] returns between two runs of blanks, and what it returns
    neither starts nor ends with a blank.  Only the blank counts; a tab
    stays. *)
Theorem trim_takes_blanks_off_both_ends s :
  ∃ a b,
    s = a +:+ trim s +:+ b
    ∧ ParserView.blanks a
    ∧ ParserView.blanks b
    ∧ isBlank (Cpp.front (trim s)) = false
    ∧ Cpp.back (trim s) ≠ Some " "%char.
Proof.
  unfold trim, ParserView.blanks.
  destruct (dropWhile_split isBlank s) as (a & Hs & Ha & Hfront).
  destruct (dropWhile_split isBlank (String.rev (dropWhile isBlank s)))
    as (b & Hr & Hb & Hback).
  set (s1 := dropWhile isBlank s) in *.
  set (r2 := dropWhile isBlank (String.rev s1)) in *.
  assert (s1 = String.rev r2 +:+ String.rev b) as Hs1.
  { by rewrite <- rev_append, <- Hr, rev_involutive. }
  exists a, (String.rev b). split; [by rewrite <- Hs1|].
  split; [done|]. split; [by rewrite all_of_rev|]. split.
  - destruct (String.rev r2) as [|x t] eqn:Hrev; [done|].
    destruct Hfront as [Hfront|Hfront].
    + rewrite Hfront in Hs1. by rewrite append_cons in Hs1.
    + by rewrite Hs1, append_cons in Hfront.
  - rewrite back_rev. destruct r2 as [|x t]; [done|].
    destruct Hback as [|Hback]; [done|]. cbn in Hback. intros [= ->]. done.
Qed.

(** The theorem on the label [differ] of the sample with [JNE]. *)
Lemma labels_point_at_labelled_instructions_witness :
  labels_ (snd (parseFile "prog.s" (Some Samples.jneSource) init)) !! "differ" = Some 6%nat
  ∧ ∃ inst,
      instructions_ (snd (parseFile "prog.s" (Some Samples.jneSource) init)) !! 6%nat
      = Some inst
      ∧ label inst = "differ".
Proof.
  assert (labels_ (snd (parseFile "prog.s" (Some Samples.jneSource) init)) !! "differ"
          = Some 6%nat) as Hlabel by (vm_compute; reflexivity).
  split; [exact Hlabel|].
  apply (labels_point_at_labelled_instructions "prog.s" Samples.jneSource _ "differ" 6);
    [vm_compute; reflexivity|exact Hlabel].
Defined.

(** The theorem on a text whose third line reads [FOO %eax]. *)
Lemma parse_failure_names_line_and_token_witness :
  fst (parseString MoreSamples.unknownMnemonicSource init) = false
  ∧ errorMessage_ (snd (parseString MoreSamples.unknownMnemonicSource init))
    = "Error at line 3: Unknown instruction: FOO"
  ∧ ∃ n line tok,
      getlines MoreSamples.unknownMnemonicSource !! n = Some line
      ∧ tok ∈ tokenize (trim (removeComments line))
      ∧ parseInstructionType tok = InstructionType.UNKNOWN
      ∧ errorMessage_ (snd (parseString MoreSamples.unknownMnemonicSource init))
        = "Error at line " +:+ Cpp.to_string (n + 1) +:+ ": Unknown instruction: " +:+ tok
      ∧ fst (parseLines (take n (getlines MoreSamples.unknownMnemonicSource)) 0 init) = true
      ∧ instructions_ (snd (parseString MoreSamples.unknownMnemonicSource init))
        = instructions_
            (snd (parseLines (take n (getlines MoreSamples.unknownMnemonicSource)) 0 init)).
Proof.
  split; [vm_compute; reflexivity|]. split; [vm_compute; reflexivity|].
  apply (parse_failure_names_line_and_token MoreSamples.unknownMnemonicSource).
  vm_compute. reflexivity.
Defined.

(** The theorem on a return followed by a comment. *)
Lemma trailing_comment_is_ignored_witness :
  parseLine ("  RET " +:+ "#" +:+ " back to the caller") init = parseLine "  RET " init.
Proof. apply trailing_comment_is_ignored. reflexivity. Defined.

End ParserFacts.

(** ** Properties of the module the lifter keeps *)

Module LifterFrame.
Import IR Lifter LifterExtraView.
Local Open Scope lift_scope.

Section Frame.

(** A property of the module that creating a function, creating a block
    and inserting an instruction keep, and that does not look at the
    symbol tables. *)
Variable J : Module -> Prop.

Hypothesis J_tables : forall m tables,
  J m -> J (mkModule (functions m) (nextInst m) (nextBlock m) tables).

Hypothesis J_function : forall m name,
  J m ->
  J (mkModule (functions m ++ [mkFunction name []]) (nextInst m) (nextBlock m)
              (symbolTables m)).

Hypothesis J_block : forall m name f,
  J m ->
  J (mkModule (alter (fun fn => mkFunction (fn_name fn)
                                  (fn_blocks fn ++ [mkBlock (nextBlock m) name []]))
                     f (functions m))
              (nextInst m) (S (nextBlock m)) (symbolTables m)).

Hypothesis J_instruction : forall m ip g,
  J m ->
  J (match ip with
     | Some r => onBlock r g (mkModule (functions m) (S (nextInst m)) (nextBlock m)
                                       (symbolTables m))
     | None => mkModule (functions m) (S (nextInst m)) (nextBlock m) (symbolTables m)
     end).

Lemma frame_ret {A} (a : A) : keepsModule J (ret a).
Proof. by intros s Hs. Qed.

Lemma frame_bind {A B} (c : M A) (k : A -> M B) :
  keepsModule J c -> (forall a, keepsModule J (k a)) -> keepsModule J (bind c k).
Proof.
  intros Hc Hk s Hs. unfold bind. specialize (Hc s Hs).
  destruct (c s) as [a s'|e]; [|done]. by apply Hk.
Qed.

Lemma frame_get : keepsModule J get.
Proof. by intros s Hs. Qed.

Lemma frame_raise {A} e : keepsModule J (@raise A e).
Proof. by intros s Hs. Qed.

Lemma frame_try_std {A} (r : Cpp.Abort + A) : keepsModule J (try_std r).
Proof. destruct r; [apply frame_raise|apply frame_ret]. Qed.

Lemma frame_deref {A} (p : option A) : keepsModule J (deref p).
Proof. destruct p; [apply frame_ret|apply frame_raise]. Qed.

Lemma frame_modify (g : AssemblyLifter -> AssemblyLifter) :
  (forall s, module_ (g s) = module_ s) -> keepsModule J (modify g).
Proof. intros Hg s Hs. cbn. by rewrite Hg. Qed.

Lemma frame_createFunction name : keepsModule J (createFunction name).
Proof.
  intros s Hs.
  exact (J_tables _ (<[length (functions (module_ s)) := emptySymbolTable]>
                       (symbolTables (module_ s)))
                  (J_function (module_ s) name Hs)).
Qed.

Lemma frame_createBlock name f : keepsModule J (createBlock name f).
Proof.
  intros s Hs.
  exact (J_tables _ (snd (setName f name (BlockValue (nextBlock (module_ s))) (module_ s)))
                  (J_block (module_ s) _ f Hs)).
Qed.

Lemma frame_insertAt ip front name op : keepsModule J (insertAt ip front name op).
Proof.
  intros s Hs. destruct ip as [r|].
  - exact (J_tables _ _ (J_instruction (module_ s) (Some r) _ Hs)).
  - exact (J_instruction (module_ s) None (fun l => l) Hs).
Qed.

Lemma frame_GetInsertBlock : keepsModule J GetInsertBlock.
Proof. by intros s Hs. Qed.

Lemma frame_functionEmpty f : keepsModule J (functionEmpty f).
Proof. by intros s Hs. Qed.

Lemma frame_functionFront f : keepsModule J (functionFront f).
Proof. by intros s Hs. Qed.

Ltac frame_step :=
  lazymatch goal with
  | |- keepsModule _ (ret _) => apply frame_ret
  | |- keepsModule _ (bind _ _) => apply frame_bind; [|intros ?]
  | |- keepsModule _ get => apply frame_get
  | |- keepsModule _ (raise _) => apply frame_raise
  | |- keepsModule _ (try_std _) => apply frame_try_std
  | |- keepsModule _ (deref _) => apply frame_deref
  | |- keepsModule _ (modify _) => apply frame_modify; intros ?; reflexivity
  | |- keepsModule _ (setError _) => apply frame_modify; intros ?; reflexivity
  | |- keepsModule _ (SetInsertPoint _) => apply frame_modify; intros ?; reflexivity
  | |- keepsModule _ (createFunction _) => apply frame_createFunction
  | |- keepsModule _ (createBlock _ _) => apply frame_createBlock
  | |- keepsModule _ (insertAt _ _ _ _) => apply frame_insertAt
  | |- keepsModule _ GetInsertBlock => apply frame_GetInsertBlock
  | |- keepsModule _ (functionEmpty _) => apply frame_functionEmpty
  | |- keepsModule _ (functionFront _) => apply frame_functionFront
  | |- keepsModule _ (match ?x with _ => _ end) => destruct x
  | |- keepsModule _ (if ?x then _ else _) => destruct x
  end.

Lemma frame_emit name op : keepsModule J (emit name op).
Proof. unfold emit. repeat frame_step. Qed.

Lemma frame_getOrCreateFunction name : keepsModule J (getOrCreateFunction name).
Proof. unfold getOrCreateFunction. repeat frame_step. Qed.

Lemma frame_getOrCreateBlock name : keepsModule J (getOrCreateBlock name).
Proof.
  unfold getOrCreateBlock. repeat (frame_step || apply frame_getOrCreateFunction).
Qed.

Lemma frame_getOrCreateRegister name : keepsModule J (getOrCreateRegister name).
Proof.
  unfold getOrCreateRegister.
  repeat (frame_step || apply frame_getOrCreateFunction || apply frame_emit).
Qed.

Lemma frame_CreateBinOp op l r name : keepsModule J (CreateBinOp op l r name).
Proof. unfold CreateBinOp. repeat (frame_step || apply frame_emit). Qed.

Lemma frame_CreateICmp p l r name : keepsModule J (CreateICmp p l r name).
Proof. unfold CreateICmp. repeat (frame_step || apply frame_emit). Qed.

Lemma frame_CreateZExt v name : keepsModule J (CreateZExt v name).
Proof. unfold CreateZExt. repeat (frame_step || apply frame_emit). Qed.

Lemma frame_CreateIntToPtr v name : keepsModule J (CreateIntToPtr v name).
Proof. unfold CreateIntToPtr. repeat (frame_step || apply frame_emit). Qed.

Ltac frame_call :=
  first
    [ frame_step
    | apply frame_emit
    | apply frame_getOrCreateFunction
    | apply frame_getOrCreateBlock
    | apply frame_getOrCreateRegister
    | apply frame_CreateBinOp
    | apply frame_CreateICmp
    | apply frame_CreateZExt
    | apply frame_CreateIntToPtr ].

Lemma frame_setFlagRegister flag v : keepsModule J (setFlagRegister flag v).
Proof. unfold setFlagRegister, getFlagRegister, CreateStore. repeat frame_call. Qed.

Lemma frame_addTo result v name : keepsModule J (addTo result v name).
Proof. unfold addTo. repeat frame_call. Qed.

Lemma frame_calculateMemoryAddress o : keepsModule J (calculateMemoryAddress o).
Proof.
  unfold calculateMemoryAddress, CreateLoad. repeat (frame_call || apply frame_addTo).
Qed.

Lemma frame_getOperandValue o : keepsModule J (getOperandValue o).
Proof.
  unfold getOperandValue, CreateLoad.
  destruct (op_type o); repeat (frame_call || apply frame_calculateMemoryAddress).
Qed.

Lemma frame_getFlagCond name b : keepsModule J (getFlagCond name b).
Proof. unfold getFlagCond, getFlagRegister, CreateLoad. repeat frame_call. Qed.

Ltac frame_lift :=
  first
    [ frame_call
    | apply frame_getOperandValue
    | apply frame_calculateMemoryAddress
    | apply frame_setFlagRegister
    | apply frame_getFlagCond ].

Lemma frame_liftInstruction inst i : keepsModule J (liftInstruction inst i).
Proof.
  unfold liftInstruction.
  destruct (inst_type inst);
    unfold liftArithmeticInstruction, liftMoveInstruction, liftCompareInstruction,
      liftJumpInstruction, liftCallInstruction, liftReturnInstruction,
      liftStackInstruction, insertParent, CreateStore, CreateLoad, CreateBr,
      CreateCondBr, CreateRet, CreateCall;
    repeat frame_lift.
Qed.

Lemma frame_openLabel callTargets inst l : keepsModule J (openLabel callTargets inst l).
Proof. unfold openLabel. repeat frame_lift. Qed.

Lemma frame_liftLoop callTargets instructions :
  forall i l, keepsModule J (liftLoop callTargets instructions i l).
Proof.
  induction instructions as [|inst rest IH]; intros i l; cbn [liftLoop];
    [apply frame_ret|].
  apply frame_bind; [apply frame_openLabel|]. intros l'.
  apply frame_bind; [apply frame_liftInstruction|]. intros [|]; [apply IH|apply frame_ret].
Qed.

End Frame.

End LifterFrame.

(** ** Close-out *)

Module CloseOutFacts.
Import IR Lifter LifterExtraView.
Local Open Scope lift_scope.

(** *** The numbering of blocks is kept by the lifter *)

Lemma mapBlock_ids b g fn :
  map bb_id (fn_blocks (mapBlock b g fn)) = map bb_id (fn_blocks fn).
Proof.
  unfold mapBlock. cbn [fn_blocks]. rewrite map_map. apply map_ext.
  intros blk. by destruct (Nat.eqb (bb_id blk) b).
Qed.

Lemma Forall_ids (P : nat -> Prop) (bs : list BasicBlock) :
  Forall (fun b => P (bb_id b)) bs <-> Forall P (map bb_id bs).
Proof.
  induction bs as [|b bs IH]; cbn [map].
  { split; constructor. }
  rewrite !Forall_cons. by rewrite IH.
Qed.

Lemma wellNumbered_tables m tables :
  wellNumbered m ->
  wellNumbered (mkModule (functions m) (nextInst m) (nextBlock m) tables).
Proof. exact id. Qed.

Lemma wellNumbered_function m name :
  wellNumbered m ->
  wellNumbered (mkModule (functions m ++ [mkFunction name []]) (nextInst m) (nextBlock m)
                         (symbolTables m)).
Proof.
  intros Hm f fn. cbn [functions nextBlock]. intros Hf.
  apply lookup_app_Some in Hf as [Hf|[_ Hf]]; [by apply (Hm f fn)|].
  destruct (f - length (functions m))%nat; [|done]. injection Hf as <-. cbn.
  split; constructor.
Qed.

Lemma wellNumbered_block m name f :
  wellNumbered m ->
  wellNumbered
    (mkModule (alter (fun fn => mkFunction (fn_name fn)
                                  (fn_blocks fn ++ [mkBlock (nextBlock m) name []]))
                     f (functions m))
              (nextInst m) (S (nextBlock m)) (symbolTables m)).
Proof.
  intros Hm g fn. cbn [functions nextBlock]. intros Hg.
  destruct (decide (f = g)) as [->|Hne].
  - rewrite list_lookup_alter_eq in Hg.
    destruct (functions m !! g) as [fn0|] eqn:Hfn0; [|done].
    cbn in Hg. injection Hg as <-. cbn [fn_blocks].
    destruct (Hm g fn0 Hfn0) as [Hnd Hlt]. split.
    + rewrite map_app. cbn [map bb_id]. apply NoDup_app. split; [done|].
      split; [|apply NoDup_singleton].
      intros id Hid Heq%list_elem_of_singleton.
      apply list_elem_of_fmap in Hid as (blk & Hb & Hblk).
      rewrite Forall_forall in Hlt. specialize (Hlt blk Hblk). cbn in *. lia.
    + apply Forall_app. split; [|by repeat constructor; cbn; lia].
      eapply Forall_impl; [exact Hlt|]. cbn. intros. lia.
  - rewrite list_lookup_alter_ne in Hg by done.
    destruct (Hm g fn Hg) as [Hnd Hlt]. split; [done|].
    eapply Forall_impl; [exact Hlt|]. cbn. intros. lia.
Qed.

Lemma wellNumbered_instruction m ip g :
  wellNumbered m ->
  wellNumbered
    (match ip with
     | Some r => onBlock r g (mkModule (functions m) (S (nextInst m)) (nextBlock m)
                                       (symbolTables m))
     | None => mkModule (functions m) (S (nextInst m)) (nextBlock m) (symbolTables m)
     end).
Proof.
  intros Hm. destruct ip as [r|]; [|exact Hm].
  intros f fn. unfold onBlock. cbn [functions nextBlock]. intros Hf.
  destruct (decide (parent r = f)) as [<-|Hne].
  - rewrite list_lookup_alter_eq in Hf.
    destruct (functions m !! parent r) as [fn0|] eqn:Hfn0; [|done].
    cbn in Hf. injection Hf as <-.
    destruct (Hm _ fn0 Hfn0) as [Hnd Hlt]. rewrite mapBlock_ids. split; [done|].
    apply (Forall_ids (fun id => (id < nextBlock m)%nat)). rewrite mapBlock_ids.
    by apply (Forall_ids (fun id => (id < nextBlock m)%nat)).
  - rewrite list_lookup_alter_ne in Hf by done. by apply (Hm f fn).
Qed.

(** The loop of the lifter keeps the blocks of each function distinct. *)
Lemma liftLoop_wellNumbered callTargets instructions i l :
  keepsModule wellNumbered (liftLoop callTargets instructions i l).
Proof.
  apply LifterFrame.frame_liftLoop.
  - apply wellNumbered_tables.
  - apply wellNumbered_function.
  - apply wellNumbered_block.
  - apply wellNumbered_instruction.
Qed.

(** *** Blocks next to the blocks they were *)

Lemma closes_refl b : closes b b.
Proof. split; [done|]. split; [done|]. by left. Qed.

Lemma closes_trans b1 b2 b3 : closes b1 b2 -> closes b2 b3 -> closes b1 b3.
Proof.
  intros (Hid & Hname & H12) (Hid' & Hname' & H23).
  split; [congruence|]. split; [congruence|].
  destruct H23 as [->|(Ht & extra & He)]; [done|]. right. split; [done|].
  destruct H12 as [->|(_ & extra' & He')]; [by exists extra|].
  exists (extra' ++ extra). by rewrite He, He', app_assoc.
Qed.

Lemma closes_terminated b b' : closes b b' -> terminated b -> terminated b'.
Proof. intros (_ & _ & [->|[Ht _]]); done. Qed.

Lemma closesBlocks_refl bs : Forall2 closes bs bs.
Proof. induction bs; constructor; [apply closes_refl|done]. Qed.

Lemma closesBlocks_trans bs1 bs2 bs3 :
  Forall2 closes bs1 bs2 -> Forall2 closes bs2 bs3 -> Forall2 closes bs1 bs3.
Proof.
  intros H12. revert bs3. induction H12 as [|b1 b2 l1 l2 Hb H12 IH]; intros bs3 H23.
  { by inversion H23. }
  inversion H23 as [|? b3 ? l3 Hb' H23']; subst. constructor; [|by apply IH].
  by eapply closes_trans.
Qed.

Lemma closesBlocks_ids bs bs' : Forall2 closes bs bs' -> map bb_id bs' = map bb_id bs.
Proof.
  induction 1 as [|b b' l l' (Hid & _) H IH]; [done|]. cbn [map]. by rewrite Hid, IH.
Qed.

Lemma closesBlocks_terminated bs bs' :
  Forall2 closes bs bs' -> Forall terminated bs -> Forall terminated bs'.
Proof.
  induction 1 as [|b b' l l' Hb H IH]; [done|]. intros [Ht Hl]%Forall_cons.
  constructor; [by eapply closes_terminated|by apply IH].
Qed.

Lemma closesBlocks_find bs bs' b blk' :
  Forall2 closes bs bs' ->
  List.find (fun x => Nat.eqb (bb_id x) b) bs' = Some blk' ->
  ∃ blk, List.find (fun x => Nat.eqb (bb_id x) b) bs = Some blk ∧ closes blk blk'.
Proof.
  induction 1 as [|x x' l l' Hx H IH]; [done|]. cbn [List.find].
  destruct Hx as (Hid & Hx). rewrite Hid.
  destruct (Nat.eqb (bb_id x) b); [|exact IH].
  intros [= <-]. exists x. by split.
Qed.

Lemma find_NoDup (bs : list BasicBlock) blk :
  NoDup (map bb_id bs) -> blk ∈ bs ->
  List.find (fun x => Nat.eqb (bb_id x) (bb_id blk)) bs = Some blk.
Proof.
  induction bs as [|x bs IH]; cbn [map List.find]; [by intros _ ?%elem_of_nil|].
  intros [Hx Hnd]%NoDup_cons [->|Hin]%elem_of_cons.
  { by rewrite Nat.eqb_refl. }
  destruct (Nat.eqb (bb_id x) (bb_id blk)) eqn:Heq; [|by apply IH].
  apply Nat.eqb_eq in Heq. exfalso. apply Hx. rewrite Heq.
  apply list_elem_of_fmap. by exists blk.
Qed.

Lemma closesModule_refl m : closesModule m m.
Proof.
  unfold closesModule. induction (functions m) as [|fn l IH]; constructor; [|done].
  apply closesBlocks_refl.
Qed.

Lemma closesModule_trans m1 m2 m3 :
  closesModule m1 m2 -> closesModule m2 m3 -> closesModule m1 m3.
Proof.
  unfold closesModule. generalize (functions m1), (functions m2), (functions m3).
  intros l1 l2 l3 H12. revert l3.
  induction H12 as [|f1 f2 l1 l2 Hf H12 IH]; intros l3 H23.
  { by inversion H23. }
  inversion H23 as [|? f3 ? l3' Hf' H23']; subst. constructor; [|by apply IH].
  by eapply closesBlocks_trans.
Qed.

(** *** Appending to a block *)

Lemma appended_appended f b e1 e2 fs :
  appended f b e2 (appended f b e1 fs) = appended f b (e1 ++ e2) fs.
Proof.
  unfold appended. revert f. induction fs as [|fn fs IH]; intros [|f]; cbn; [done|done| |].
  - f_equal. unfold mapBlock. cbn. f_equal. rewrite map_map. apply map_ext.
    intros blk. destruct (Nat.eqb (bb_id blk) b) eqn:Hb; cbn; rewrite Hb; [|done].
    by rewrite app_assoc.
  - f_equal. apply IH.
Qed.

Lemma terminated_snoc id name l extra i :
  last extra = Some i -> isTerminator (i_op i) = true ->
  terminated (mkBlock id name (l ++ extra)).
Proof.
  intros Hlast Hterm. unfold terminated, getTerminator. cbn.
  destruct extra as [|x extra _] using rev_ind; [done|].
  rewrite app_assoc, last_snoc. rewrite last_snoc in Hlast. injection Hlast as ->.
  by rewrite Hterm.
Qed.

Lemma mapBlock_closes b extra i (bs : list BasicBlock) :
  last extra = Some i -> isTerminator (i_op i) = true ->
  Forall2 closes bs
    (map (fun blk => if Nat.eqb (bb_id blk) b
                     then mkBlock (bb_id blk) (bb_name blk) (bb_insts blk ++ extra)
                     else blk) bs).
Proof.
  intros Hlast Hterm. induction bs as [|blk bs IH]; cbn [map]; constructor; [|done].
  destruct (Nat.eqb (bb_id blk) b); [|apply closes_refl].
  split; [done|]. split; [done|]. right. split; [|by eexists].
  by eapply terminated_snoc.
Qed.

Lemma closesFunctions_refl (fs : list Function) :
  Forall2 (fun fn fn' => Forall2 closes (fn_blocks fn) (fn_blocks fn')) fs fs.
Proof. induction fs; constructor; [apply closesBlocks_refl|done]. Qed.

Lemma appended_closes f b extra i fs :
  last extra = Some i -> isTerminator (i_op i) = true ->
  Forall2 (fun fn fn' => Forall2 closes (fn_blocks fn) (fn_blocks fn'))
          fs (appended f b extra fs).
Proof.
  intros Hlast Hterm. unfold appended. revert f.
  induction fs as [|fn fs IH]; intros f; [constructor|].
  destruct f as [|f]; cbn.
  - constructor; [by eapply mapBlock_closes|apply closesFunctions_refl].
  - constructor; [apply closesBlocks_refl|apply IH].
Qed.

Lemma appended_found f b extra i fs fn' blk' :
  last extra = Some i -> isTerminator (i_op i) = true ->
  appended f b extra fs !! f = Some fn' ->
  findBlock b fn' = Some blk' ->
  terminated blk'.
Proof.
  intros Hlast Hterm. unfold appended. rewrite list_lookup_alter_eq.
  destruct (fs !! f) as [fn|]; [|done]. cbn. intros [= <-].
  rewrite LifterFacts.findBlock_mapBlock, Nat.eqb_refl.
  destruct (findBlock b fn) as [blk|]; [|done]. cbn. intros [= <-].
  by eapply terminated_snoc.
Qed.

Lemma insertAt_appended f b name op s :
  insertAt (Some (mkRef f b)) false name op s
  = Normal (InstValue (nextInst (module_ s)))
      (set_module
         (mkModule (appended f b [mkInst (nextInst (module_ s)) name op]
                             (functions (module_ s)))
                   (S (nextInst (module_ s))) (nextBlock (module_ s))
                   (tablesAfter f name (InstValue (nextInst (module_ s)))
                                (symbolTables (module_ s)))) s).
Proof. reflexivity. Qed.

(** *** One block, one function, the module *)

Lemma closeBlock_spec f entry b s :
  ∃ s',
    closeBlock f entry b s = Normal tt s'
    ∧ closesModule (module_ s) (module_ s')
    ∧ (forall fn' blk', functions (module_ s') !! f = Some fn' ->
                        findBlock b fn' = Some blk' -> terminated blk').
Proof.
  unfold closeBlock, bind, get.
  destruct (functions (module_ s) !! f ≫= findBlock b) as [blk|] eqn:Hblk.
  2:{ exists s. split; [done|]. split; [apply closesModule_refl|].
      intros fn' blk' Hfn' Hb'. rewrite Hfn' in Hblk. cbn in Hblk. congruence. }
  destruct (getTerminator blk) as [t|] eqn:Hterm.
  { exists s. split; [done|]. split; [apply closesModule_refl|].
    intros fn' blk' Hfn' Hb'. rewrite Hfn' in Hblk. cbn in Hblk.
    assert (blk' = blk) as -> by congruence. unfold terminated. by rewrite Hterm. }
  destruct (bool_decide (entry = Some b)).
  - destruct (registers_ s !! "%eax") as [reg|].
    + unfold ret. rewrite insertAt_appended. cbn -[appended insertAt tablesAfter].
      rewrite insertAt_appended. cbn -[appended insertAt tablesAfter].
      rewrite appended_appended.
      eexists. split; [reflexivity|]. cbn -[appended tablesAfter]. split.
      * eapply appended_closes; [reflexivity|done].
      * intros fn' blk'. eapply appended_found; [reflexivity|done].
    + rewrite insertAt_appended. unfold modify, ret. cbn -[appended insertAt tablesAfter].
      rewrite insertAt_appended. cbn -[appended insertAt tablesAfter].
      rewrite insertAt_appended. cbn -[appended insertAt tablesAfter].
      rewrite !appended_appended.
      eexists. split; [reflexivity|]. cbn -[appended tablesAfter]. split.
      * eapply appended_closes; [reflexivity|done].
      * intros fn' blk'. eapply appended_found; [reflexivity|done].
  - rewrite insertAt_appended. unfold ret.
    eexists. split; [reflexivity|]. cbn -[appended tablesAfter]. split.
    + eapply appended_closes; [reflexivity|done].
    + intros fn' blk'. eapply appended_found; [reflexivity|done].
Qed.

Lemma closesModule_lookup m m' f fn' :
  closesModule m m' -> functions m' !! f = Some fn' ->
  ∃ fn, functions m !! f = Some fn ∧ Forall2 closes (fn_blocks fn) (fn_blocks fn').
Proof.
  unfold closesModule. intros H Hf.
  destruct (Forall2_lookup_r _ _ _ _ _ H Hf) as (fn & Hfn & Hc). by exists fn.
Qed.

Lemma closeBlocks_spec f entry ids : forall s,
  ∃ s',
    forEach ids (closeBlock f entry) s = Normal tt s'
    ∧ closesModule (module_ s) (module_ s')
    ∧ (forall fn' b blk', functions (module_ s') !! f = Some fn' -> b ∈ ids ->
                          findBlock b fn' = Some blk' -> terminated blk').
Proof.
  induction ids as [|b ids IH]; intros s; cbn [forEach].
  { exists s. split; [done|]. split; [apply closesModule_refl|].
    by intros fn' b blk' _ ?%elem_of_nil. }
  destruct (closeBlock_spec f entry b s) as (s1 & Hrun1 & Hc1 & Hdone1).
  destruct (IH s1) as (s' & Hrun & Hc & Hdone).
  exists s'. unfold bind. rewrite Hrun1. split; [exact Hrun|].
  split; [by eapply closesModule_trans|].
  intros fn' b' blk' Hfn' [->|Hin]%elem_of_cons Hb'; [|by eapply Hdone].
  destruct (closesModule_lookup _ _ _ _ Hc Hfn') as (fn1 & Hfn1 & Hcl).
  destruct (closesBlocks_find _ _ _ _ Hcl Hb') as (blk1 & Hblk1 & Hcb).
  eapply closes_terminated; [exact Hcb|]. by eapply Hdone1.
Qed.

Lemma closeFunction_spec f s :
  ∃ s',
    closeFunction f s = Normal tt s'
    ∧ closesModule (module_ s) (module_ s')
    ∧ (forall fn fn', functions (module_ s) !! f = Some fn ->
                      NoDup (map bb_id (fn_blocks fn)) ->
                      functions (module_ s') !! f = Some fn' ->
                      Forall terminated (fn_blocks fn')).
Proof.
  unfold closeFunction, bind, get.
  destruct (functions (module_ s) !! f) as [fn|] eqn:Hfn.
  2:{ exists s. split; [done|]. split; [apply closesModule_refl|]. done. }
  destruct (isDeclaration fn) eqn:Hdecl.
  { exists s. split; [done|]. split; [apply closesModule_refl|].
    intros fn0 fn' [= <-] _ Hfn'. rewrite Hfn in Hfn'. injection Hfn' as <-.
    unfold isDeclaration in Hdecl. by destruct (fn_blocks fn). }
  destruct (closeBlocks_spec f (bb_id <$> getEntryBlock fn) (map bb_id (fn_blocks fn)) s)
    as (s' & Hrun & Hc & Hdone).
  exists s'. split; [exact Hrun|]. split; [exact Hc|].
  intros fn0 fn' [= <-] Hnd Hfn'.
  destruct (closesModule_lookup _ _ _ _ Hc Hfn') as (fn1 & Hfn1 & Hcl).
  rewrite Hfn in Hfn1. injection Hfn1 as <-.
  pose proof (closesBlocks_ids _ _ Hcl) as Hids.
  apply Forall_forall. intros blk' Hin.
  apply (Hdone fn' (bb_id blk') blk' Hfn').
  - rewrite <- Hids. apply list_elem_of_fmap. by exists blk'.
  - unfold findBlock. apply find_NoDup; [by rewrite Hids|done].
Qed.

Lemma closeFunctions_spec fs : forall s,
  ∃ s',
    forEach fs closeFunction s = Normal tt s'
    ∧ closesModule (module_ s) (module_ s')
    ∧ (forall f fn fn', f ∈ fs ->
                        functions (module_ s) !! f = Some fn ->
                        NoDup (map bb_id (fn_blocks fn)) ->
                        functions (module_ s') !! f = Some fn' ->
                        Forall terminated (fn_blocks fn')).
Proof.
  induction fs as [|f fs IH]; intros s; cbn [forEach].
  { exists s. split; [done|]. split; [apply closesModule_refl|].
    by intros f fn fn' ?%elem_of_nil. }
  destruct (closeFunction_spec f s) as (s1 & Hrun1 & Hc1 & Hdone1).
  destruct (IH s1) as (s' & Hrun & Hc & Hdone).
  exists s'. unfold bind. rewrite Hrun1. split; [exact Hrun|].
  split; [by eapply closesModule_trans|].
  intros g fn fn' Hin Hfn Hnd Hfn'.
  destruct (closesModule_lookup _ _ _ _ Hc Hfn') as (fn1 & Hfn1 & Hcl).
  destruct (closesModule_lookup _ _ _ _ Hc1 Hfn1) as (fn0 & Hfn0 & Hcl0).
  rewrite Hfn in Hfn0. injection Hfn0 as <-.
  apply elem_of_cons in Hin as [->|Hin].
  - eapply closesBlocks_terminated; [exact Hcl|]. by eapply Hdone1.
  - eapply (Hdone g fn1 fn' Hin Hfn1); [|done].
    by rewrite (closesBlocks_ids _ _ Hcl0).
Qed.

(** Close-out never throws; it leaves each block as it is or appends to
    it up to a terminator; and when the blocks of each function are
    distinct, every block of the module ends in a terminator
    afterwards. *)
Lemma closeOut_spec s :
  ∃ s',
    closeOut s = Normal tt s'
    ∧ closesModule (module_ s) (module_ s')
    ∧ (wellNumbered (module_ s) ->
       forall f fn', functions (module_ s') !! f = Some fn' ->
                     Forall terminated (fn_blocks fn')).
Proof.
  unfold closeOut, bind, get.
  destruct (closeFunctions_spec (seq 0 (length (functions (module_ s)))) s)
    as (s' & Hrun & Hc & Hdone).
  exists s'. split; [exact Hrun|]. split; [exact Hc|].
  intros Hwn f fn' Hfn'.
  destruct (closesModule_lookup _ _ _ _ Hc Hfn') as (fn & Hfn & Hcl).
  apply (Hdone f fn fn'); [|done|by apply (Hwn f fn)|done].
  apply elem_of_seq. apply lookup_lt_Some in Hfn. lia.
Qed.

End CloseOutFacts.

(** ** The lifter as a whole *)

Module LifterExtras.
Import IR Lifter LifterView LoopView LifterExtraView.
Local Open Scope lift_scope.

(** X6.  [liftToLLVM] fails exactly as its main loop fails: when the loop
    returns false so does [liftToLLVM], in the same state; when the loop
    throws, [liftToLLVM] throws; and when the loop succeeds [liftToLLVM]
    returns true, close-out having left each block as it was or appended
    instructions to it up to a terminator.  Neither close-out nor the
    verification that follows it ever turns a success into a failure. *)
Theorem lift_result_is_loop_result instructions s :
  match liftLoop (collectCallTargets instructions) instructions 0 (mkLocals None true)
                 (set_fallthroughCounter 0 s) with
  | Normal true s1 =>
      ∃ s2, liftToLLVM instructions s = Normal true s2
            ∧ closesModule (module_ s1) (module_ s2)
  | Normal false s1 => liftToLLVM instructions s = Normal false s1
  | Abnormal e => liftToLLVM instructions s = Abnormal e
  end.
Proof.
  unfold liftToLLVM, bind, modify.
  destruct (liftLoop _ _ _ _ _) as [[|] s1|e]; [|done..]. cbn [negb].
  destruct (CloseOutFacts.closeOut_spec s1) as (s2 & Hrun & Hc & _).
  exists s2. by rewrite Hrun.
Qed.

(** X7.  When [liftToLLVM] returns true, on a lifter whose blocks are distinct
    (a fresh lifter is one), every block of every function of the module
    ends in a terminator. *)
Theorem lifted_blocks_end_in_terminators instructions s s' :
  wellNumbered (module_ s) ->
  liftToLLVM instructions s = Normal true s' ->
  forall fn blk, fn ∈ functions (module_ s') -> blk ∈ fn_blocks fn -> terminated blk.
Proof.
  intros Hwn Hrun fn blk Hfn Hblk.
  unfold liftToLLVM, bind, modify in Hrun.
  pose proof (CloseOutFacts.liftLoop_wellNumbered (collectCallTargets instructions)
                instructions 0 (mkLocals None true) (set_fallthroughCounter 0 s) Hwn) as Hloop.
  destruct (liftLoop _ _ _ _ _) as [[|] s1|e]; [|done..]. cbn [negb] in Hrun.
  destruct (CloseOutFacts.closeOut_spec s1) as (s2 & Hrun2 & _ & Hdone).
  rewrite Hrun2 in Hrun. cbn in Hrun. injection Hrun as <-.
  apply list_elem_of_lookup in Hfn as [f Hf].
  specialize (Hdone Hloop f fn Hf). rewrite Forall_forall in Hdone. by apply Hdone.
Qed.

(** X8.  The set of call sinks built by the first loop of [liftToLLVM] holds
    exactly the operands of the [CALL] instructions that have a single
    operand, of label kind. *)
Theorem call_sinks_are_call_operands instructions name :
  is_Some (collectCallTargets instructions !! name)
  <-> ∃ inst o, inst ∈ instructions
                ∧ inst_type inst = InstructionType.CALL
                ∧ operands inst = [o]
                ∧ op_type o = OperandType.LABEL
                ∧ op_value o = name.
Proof.
  pose proof (LoopFacts.count_collectCallTargets instructions name) as Hcount.
  unfold count in Hcount. split.
  - intros Hsome. rewrite bool_decide_eq_true_2 in Hcount by done.
    symmetry in Hcount. unfold isCallOperand in Hcount.
    apply existsb_exists in Hcount as (inst & Hin & Hinst).
    apply andb_true_iff in Hinst as [Hsink Hname].
    unfold isCallSink in Hsink.
    apply andb_true_iff in Hsink as [Hsink Hlabel].
    apply andb_true_iff in Hsink as [Htype Hlen].
    apply bool_decide_eq_true in Htype, Hlabel. apply Nat.eqb_eq in Hlen.
    apply String.eqb_eq in Hname.
    destruct (operands inst) as [|o [|? ?]] eqn:Hops; try discriminate.
    exists inst, o. unfold operand in Hlabel, Hname. rewrite Hops in Hlabel, Hname.
    cbn in Hlabel, Hname. split; [by apply list_elem_of_In|]. done.
  - intros (inst & o & Hin & Htype & Hops & Hlabel & Hname).
    assert (isCallOperand instructions name = true) as Hop.
    { unfold isCallOperand. apply existsb_exists. exists inst.
      split; [by apply list_elem_of_In|].
      unfold isCallSink, operand. rewrite Hops. cbn.
      rewrite !bool_decide_eq_true_2 by done. cbn. by apply String.eqb_eq. }
    rewrite Hop in Hcount. by apply bool_decide_eq_true in Hcount.
Qed.

(** X9.  Lifting an instruction, whatever it is and whether or not it
    succeeds, leaves the builder inside the function it was in, enters
    only blocks of that function in the table of blocks, and keeps the
    table of functions naming functions of the module. *)
Theorem lifting_stays_in_function f inst i s ok s' :
  inFunction f s ->
  liftInstruction inst i s = Normal ok s' ->
  inFunction f s'.
Proof.
  intros Hs Hrun. pose proof (LoopFacts.stays_liftInstruction f inst i s Hs) as H.
  rewrite Hrun in H. apply H.
Qed.

(** X10.  An instruction with a number of operands its type is not lifted
    with fails by value: [liftInstruction] returns false and changes
    nothing but the error message, which it sets.  Arithmetic takes any
    number from two on, [RET] any number. *)
Theorem wrong_operand_count_fails_by_value inst i s :
  acceptsOperandCount (inst_type inst) (length (operands inst)) = false ->
  ∃ msg, liftInstruction inst i s = Normal false (set_errorMessage msg s) ∧ msg ≠ "".
Proof.
  unfold acceptsOperandCount, liftInstruction, liftArithmeticInstruction,
    liftMoveInstruction, liftCompareInstruction, liftJumpInstruction,
    liftCallInstruction, liftStackInstruction.
  destruct (inst_type inst) eqn:Htype; intros Hcount; try discriminate;
    try (rewrite Hcount; cbn [negb]; eexists; split; [reflexivity|done]).
  all: try (apply Nat.leb_gt in Hcount; apply Nat.ltb_lt in Hcount; rewrite Hcount;
            eexists; split; [reflexivity|done]).
  eexists. split; [reflexivity|done].
Qed.

(** *** Computations that always return *)

Lemma ensures_ret {A} (a : A) (Q : A -> AssemblyLifter -> Prop) :
  (forall s, Q a s) -> ensures (ret a) Q.
Proof. intros H s. by exists a, s. Qed.

Lemma ensures_bind {A B} (c : M A) (k : A -> M B) Q :
  ensures c (fun _ _ => True) -> (forall a, ensures (k a) Q) -> ensures (bind c k) Q.
Proof.
  intros Hc Hk s. destruct (Hc s) as (a & s1 & Hrun & _).
  destruct (Hk a s1) as (b & s' & Hrun' & HQ).
  exists b, s'. unfold bind. by rewrite Hrun.
Qed.

Lemma ensures_any {A} (c : M A) Q : ensures c Q -> ensures c (fun _ _ => True).
Proof. intros Hc s. destruct (Hc s) as (a & s' & Hrun & _). by exists a, s'. Qed.

Lemma getOrCreateFunction_returns name :
  ensures (getOrCreateFunction name) (fun _ _ => True).
Proof.
  intros s. unfold getOrCreateFunction, bind, get.
  destruct (functions_ s !! name); by eexists _, _.
Qed.

Lemma register_tail ip front name (x : M unit) :
  (forall s, ∃ s', x s = Normal tt s' ∧ registers_ s' = registers_ s) ->
  ensures (reg <- insertAt ip front name Alloca ;;
           modify (fun s => set_registers (<[name := reg]> (registers_ s)) s) ;;
           x ;;
           ret reg)
          (fun reg s' => registers_ s' !! name = Some reg).
Proof.
  intros Hx s. unfold bind, insertAt, modify, ret.
  match goal with
  | |- context [x ?t] => destruct (Hx t) as (s' & -> & Hregs)
  end.
  eexists _, _. split; [reflexivity|]. rewrite Hregs. cbn. by rewrite lookup_insert_eq.
Qed.

(** X11.  [getOrCreateRegister] never fails; it enters the slot it returns in
    the table of slots under the register's name, so that asking again,
    right away, returns the same slot and changes nothing. *)
Theorem register_slot_is_created_once name s :
  ∃ slot s',
    getOrCreateRegister name s = Normal slot s'
    ∧ registers_ s' !! name = Some slot
    ∧ getOrCreateRegister name s' = Normal slot s'.
Proof.
  assert (forall slot s', registers_ s' !! name = Some slot ->
                          getOrCreateRegister name s' = Normal slot s') as Hagain.
  { intros slot s' Hslot. unfold getOrCreateRegister, bind, get. by rewrite Hslot. }
  assert (∃ slot s', getOrCreateRegister name s = Normal slot s'
                     ∧ registers_ s' !! name = Some slot) as (slot & s' & Hrun & Hslot).
  { unfold getOrCreateRegister. unfold bind at 1, get at 1.
    destruct (registers_ s !! name) as [reg|] eqn:Hreg; [by exists reg, s|].
    clear Hreg. generalize (builder_ s). intros cb. revert s.
    change (ensures
              (currentFunc <-
                 match cb with
                 | Some cb => ret (parent cb)
                 | None =>
                     f <- getOrCreateFunction "main" ;;
                     empty <- functionEmpty f ;;
                     (if empty
                      then entry <- createBlock "entry" f ;; SetInsertPoint entry
                      else front <- functionFront f ;;
                           match front with
                           | Some b => SetInsertPoint b
                           | None => ret tt
                           end) ;;
                     ret f
                 end ;;
               empty <- functionEmpty currentFunc ;;
               if negb empty then
                 entryBlock <- functionFront currentFunc ;;
                 reg <- insertAt entryBlock true name Alloca ;;
                 modify (fun s => set_registers (<[name := reg]> (registers_ s)) s) ;;
                 match cb with
                 | Some cb => SetInsertPoint cb
                 | None => ret tt
                 end ;;
                 ret reg
               else
                 reg <- emit name Alloca ;;
                 modify (fun s => set_registers (<[name := reg]> (registers_ s)) s) ;;
                 ret reg)
              (fun reg s' => registers_ s' !! name = Some reg)).
    apply ensures_bind.
    - destruct cb as [cb|]; [by apply ensures_ret|].
      eapply ensures_any. apply ensures_bind; [apply getOrCreateFunction_returns|].
      intros f. apply ensures_bind; [by intros s; eexists _, _|].
      intros empty. apply ensures_bind; [|intros _; by apply (ensures_ret f (fun _ _ => True))].
      destruct empty.
      + apply ensures_bind; [by intros s; eexists _, _|]. intros entry s. by eexists _, _.
      + apply ensures_bind; [by intros s; eexists _, _|].
        intros [b|] s; by eexists _, _.
    - intros currentFunc. apply ensures_bind; [by intros s; eexists _, _|].
      intros [|]; cbn [negb].
      + intros s. unfold bind, emit, GetInsertBlock, insertAt, modify, ret.
        eexists _, _. split; [reflexivity|]. cbn. by rewrite lookup_insert_eq.
      + apply ensures_bind; [by intros s; eexists _, _|]. intros entryBlock.
        apply register_tail. intros s. destruct cb; by eexists. }
  exists slot, s'. split; [done|]. split; [done|]. by apply Hagain.
Qed.

(** *** The stack *)

(** X12.  A [PUSH] whose operand evaluates lifts to the operand's evaluation
    followed by: the load of the stack pointer, the subtraction of four,
    the store of the new pointer into [STACK_PTR], the cast of the new
    pointer and the store of the value through it.  The stack grows
    downwards and the value lands at the new top. *)
Theorem push_stores_below_the_stack_pointer s inst o v s1 :
  inst_type inst = InstructionType.PUSH ->
  operands inst = [o] ->
  getOperandValue o s = Normal (Some v) s1 ->
  positioned s1 ->
  ∃ sp n s',
    liftStackInstruction inst s = Normal true s'
    ∧ body s' = body s1 ++ pushSequence n sp v
    ∧ registers_ s' = <["STACK_PTR" := sp]> (registers_ s1)
    ∧ errorMessage_ s' = errorMessage_ s1.
Proof.
  intros Htype Hops Hv Hpos.
  destruct (LifterFacts.getOrCreateRegister_spec "STACK_PTR" s1 Hpos)
    as (sp & s0 & Heq & Hext & Hregs & _).
  pose proof (ext_positioned _ _ _ Hext) as Hp0.
  set (n := nextInst (module_ s0)).
  destruct (LifterFacts.emit_spec "stack_ptr_val" (Load sp) s0 Hp0)
    as (t1 & Heq1 & Hext1 & Hregs1 & Hn1); [done|].
  pose proof (ext_positioned _ _ _ Hext1) as Hp1.
  destruct (LifterFacts.emit_spec "new_stack_ptr"
              (BinaryOperator Sub (InstValue n) (ConstantInt 4)) t1 Hp1)
    as (t2 & Heq2 & Hext2 & Hregs2 & Hn2); [done|].
  pose proof (ext_positioned _ _ _ Hext2) as Hp2.
  destruct (LifterFacts.emit_spec "" (Store (InstValue (n + 1)%nat) sp) t2 Hp2)
    as (t3 & Heq3 & Hext3 & Hregs3 & Hn3); [done|].
  pose proof (ext_positioned _ _ _ Hext3) as Hp3.
  destruct (LifterFacts.emit_spec "stack_addr" (IntToPtr (InstValue (n + 1)%nat)) t3 Hp3)
    as (t4 & Heq4 & Hext4 & Hregs4 & Hn4); [done|].
  pose proof (ext_positioned _ _ _ Hext4) as Hp4.
  destruct (LifterFacts.emit_spec "" (Store v (InstValue (n + 3)%nat)) t4 Hp4)
    as (t5 & Heq5 & Hext5 & Hregs5 & Hn5); [done|].
  assert (nextInst (module_ t1) = n + 1)%nat as E1 by (subst n; lia).
  assert (nextInst (module_ t2) = n + 2)%nat as E2 by lia.
  assert (nextInst (module_ t3) = n + 3)%nat as E3 by lia.
  assert (nextInst (module_ t4) = n + 4)%nat as E4 by lia.
  rewrite E1 in *. rewrite E2 in *. rewrite E3 in *. rewrite E4 in *.
  fold n in Heq1, Hext1.
  pose proof (LifterFacts.extends_trans _ _ _ _ _ Hext
    (LifterFacts.extends_trans _ _ _ _ _ Hext1
      (LifterFacts.extends_trans _ _ _ _ _ Hext2
        (LifterFacts.extends_trans _ _ _ _ _ Hext3
          (LifterFacts.extends_trans _ _ _ _ _ Hext4 Hext5))))) as Hall.
  exists sp, n, t5. split; [|split; [apply Hall|split; [congruence|apply Hall]]].
  unfold liftStackInstruction, operand. rewrite Htype, Hops.
  rewrite decide_True by done.
  cbn [length Nat.eqb negb lookup list_lookup default id].
  unfold bind at 1. rewrite Hv. cbn beta iota.
  unfold bind at 1. rewrite Heq.
  unfold bind at 1, CreateLoad at 1. rewrite Heq1.
  unfold bind at 1, CreateBinOp at 1. rewrite Heq2.
  unfold bind at 1, CreateStore at 1. rewrite Heq3.
  unfold bind at 1, CreateIntToPtr at 1. rewrite Heq4.
  unfold bind at 1, CreateStore at 1. rewrite Heq5.
  reflexivity.
Qed.

(** *** Jumps *)

Lemma find_app_found {A} (p : A -> bool) (l l' : list A) x :
  List.find p l = Some x -> List.find p (l ++ l') = Some x.
Proof.
  induction l as [|a l IH]; [done|]. cbn [List.find app].
  by destruct (p a).
Qed.

Lemma lookupBlock_createBlock m name f r b0 tables :
  lookupBlock m r = Some b0 ->
  lookupBlock
    (mkModule (alter (fun fn => mkFunction (fn_name fn)
                                  (fn_blocks fn ++ [mkBlock (nextBlock m) name []]))
                     f (functions m))
              (nextInst m) (S (nextBlock m)) tables) r
  = Some b0.
Proof.
  unfold lookupBlock. cbn [functions]. intros Hb.
  destruct (decide (f = parent r)) as [->|Hne].
  - rewrite list_lookup_alter_eq.
    destruct (functions m !! parent r) as [fn|]; [|done]. cbn in *.
    unfold findBlock in *. cbn [fn_blocks]. by apply find_app_found.
  - by rewrite list_lookup_alter_ne.
Qed.

(** A block created while the builder sits in a block of the module
    leaves that block and the tables as they are. *)
Lemma createBlock_spec name f s :
  positioned s ->
  ∃ s', createBlock name f s = Normal (mkRef f (nextBlock (module_ s))) s'
        ∧ extends s s' []
        ∧ registers_ s' = registers_ s
        ∧ nextInst (module_ s') = nextInst (module_ s)
        ∧ nextBlock (module_ s') = S (nextBlock (module_ s)).
Proof.
  intros [b Hb]. eexists. split; [reflexivity|].
  destruct (builder_ s) as [cur|] eqn:Hcur; [|done]. cbn in Hb.
  pose proof (lookupBlock_createBlock (module_ s)
                (fst (setName f name (BlockValue (nextBlock (module_ s))) (module_ s)))
                f cur b
                (snd (setName f name (BlockValue (nextBlock (module_ s))) (module_ s)))
                Hb) as Hb'.
  split; [|by repeat split]. split; try reflexivity.
  - rewrite app_nil_r. unfold body, createBlock.
    cbn [builder_ module_ set_module]. rewrite Hcur.
    cbn [mbind option_bind]. by rewrite Hb', Hb.
  - unfold positioned, createBlock. cbn [builder_ module_ set_module]. rewrite Hcur.
    cbn [mbind option_bind]. rewrite Hb'. by eexists.
Qed.

(** The target of a jump looked up or created: the builder's block is
    left as it is, the table of blocks gives the target for the label. *)
Lemma getOrCreateBlock_positioned name s cur :
  builder_ s = Some cur -> positioned s ->
  ∃ target s0,
    getOrCreateBlock name s = Normal target s0
    ∧ blocks_ s0 !! name = Some target
    ∧ positioned s0
    ∧ builder_ s0 = Some cur
    ∧ body s0 = body s
    ∧ registers_ s0 = registers_ s
    ∧ errorMessage_ s0 = errorMessage_ s
    ∧ fallthroughCounter_ s0 = fallthroughCounter_ s
    ∧ (nextBlock (module_ s) <= nextBlock (module_ s0))%nat.
Proof.
  intros Hcur Hpos. unfold getOrCreateBlock, bind, get.
  destruct (blocks_ s !! name) as [r|] eqn:Hr.
  { exists r, s. by repeat split. }
  rewrite Hcur. unfold ret at 1. cbn beta iota.
  destruct (createBlock_spec name (parent cur) s Hpos)
    as (s1 & -> & Hext & Hregs & _ & Hnext).
  eexists _, _. split; [reflexivity|].
  split; [cbn; by rewrite lookup_insert_eq|].
  split; [exact (ext_positioned _ _ _ Hext)|].
  split; [exact (eq_trans (ext_builder _ _ _ Hext) Hcur)|].
  split; [change (body s1 = body s); by rewrite (ext_body _ _ _ Hext), app_nil_r|].
  split; [exact Hregs|]. split; [exact (ext_error _ _ _ Hext)|].
  split; [exact (ext_counter _ _ _ Hext)|]. cbn. lia.
Qed.

(** X13.  [JE], [JL], [JG], [JLE] and [JGE] branch to their target exactly when
    their flag is set: the builder's block gets the load of the flag's
    slot, the comparison of the loaded value with zero and a conditional
    branch that goes to the block the table gives for the operand when the
    value is not zero and to a block created for the occasion when it is;
    lifting goes on in that block, in the same function; the counter of
    such blocks moves up by one. *)
Theorem conditional_jump_branches_on_set_flag s inst o flag cur :
  jumpFlag (inst_type inst) = Some flag ->
  operands inst = [o] ->
  builder_ s = Some cur ->
  positioned s ->
  ∃ target fall slot n s',
    liftJumpInstruction inst s = Normal true s'
    ∧ blocks_ s' !! op_value o = Some target
    ∧ builder_ s' = Some fall
    ∧ parent fall = parent cur
    ∧ (nextBlock (module_ s) <= block fall)%nat
    ∧ bodyAt s' cur = body s ++ jumpCode n flag slot (block target) (block fall)
    ∧ registers_ s' = <["FLAG_" +:+ flag := slot]> (registers_ s)
    ∧ fallthroughCounter_ s' = S (fallthroughCounter_ s)
    ∧ errorMessage_ s' = errorMessage_ s.
Proof.
  intros Hflag Hops Hcur Hpos.
  destruct (getOrCreateBlock_positioned (op_value o) s cur Hcur Hpos)
    as (target & s0 & Hrun0 & Htarget & Hpos0 & Hcur0 & Hbody0 & Hregs0 & Herr0
        & Hcount0 & Hnext0).
  set (s0' := set_fallthroughCounter (S (fallthroughCounter_ s0)) s0).
  assert (positioned s0') as Hpos0' by exact Hpos0.
  destruct (createBlock_spec ("fallthrough_" +:+ Cpp.to_string (fallthroughCounter_ s0))
              (parent cur) s0' Hpos0')
    as (s1 & Hrun1 & Hext1 & Hregs1 & Hinst1 & Hnext1).
  pose proof (ext_positioned _ _ _ Hext1) as Hpos1.
  destruct (LifterFacts.getOrCreateRegister_spec ("FLAG_" +:+ flag) s1 Hpos1)
    as (slot & s2 & Hrun2 & Hext2 & Hregs2 & _).
  pose proof (ext_positioned _ _ _ Hext2) as Hpos2.
  set (n := nextInst (module_ s2)).
  destruct (LifterFacts.emit_spec (flag +:+ "_val") (Load slot) s2 Hpos2)
    as (s3 & Hrun3 & Hext3 & Hregs3 & Hn3); [done|].
  pose proof (ext_positioned _ _ _ Hext3) as Hpos3.
  destruct (LifterFacts.emit_spec (flag +:+ "_nz")
              (ICmp ICMP_NE (InstValue n) (ConstantInt 0)) s3 Hpos3)
    as (s4 & Hrun4 & Hext4 & Hregs4 & Hn4); [done|].
  pose proof (ext_positioned _ _ _ Hext4) as Hpos4.
  destruct (LifterFacts.emit_spec ""
              (CondBr (InstValue (n + 1)%nat) (block target) (nextBlock (module_ s0')))
              s4 Hpos4)
    as (s5 & Hrun5 & Hext5 & Hregs5 & Hn5); [done|].
  assert (nextInst (module_ s3) = n + 1)%nat as E3 by (subst n; lia).
  assert (nextInst (module_ s4) = n + 2)%nat as E4 by lia.
  rewrite E3 in *. rewrite E4 in *. fold n in Hrun3, Hext3.
  pose proof (LifterFacts.extends_trans _ _ _ _ _ Hext1
    (LifterFacts.extends_trans _ _ _ _ _ Hext2
      (LifterFacts.extends_trans _ _ _ _ _ Hext3
        (LifterFacts.extends_trans _ _ _ _ _ Hext4 Hext5)))) as Hall.
  cbn [app] in Hall.
  assert (builder_ s5 = Some cur) as Hcur5 by (rewrite (ext_builder _ _ _ Hall); exact Hcur0).
  exists target, (mkRef (parent cur) (nextBlock (module_ s0'))), slot, n,
    (set_builder (Some (mkRef (parent cur) (nextBlock (module_ s0')))) s5).
  assert (liftJumpInstruction inst s
          = Normal true
              (set_builder (Some (mkRef (parent cur) (nextBlock (module_ s0')))) s5))
    as Hrun.
  { unfold liftJumpInstruction, operand. rewrite Hops.
    cbn [length Nat.eqb negb lookup list_lookup default id].
    unfold bind at 1. rewrite Hrun0.
    rewrite decide_False by (intros Ht; rewrite Ht in Hflag; discriminate).
    assert (isConditionalJump (inst_type inst) = true) as ->
      by (destruct (inst_type inst); done).
    unfold bind at 1, insertParent, GetInsertBlock, bind at 1 2, deref.
    rewrite Hcur0. unfold ret at 1 2. cbn beta iota.
    unfold bind at 1, get at 1. unfold bind at 1, modify at 1.
    fold s0'. unfold bind at 1. rewrite Hrun1.
    assert (forall (ifSet : bool),
              (c <- getFlagCond flag true ;;
               CreateCondBr c target (mkRef (parent cur) (nextBlock (module_ s0')))) s1
              = Normal (InstValue (n + 2)%nat) s5) as Hbranch.
    { intros _. unfold getFlagCond, getFlagRegister. unfold bind at 1 2.
      rewrite Hrun2. unfold bind at 1, CreateLoad. rewrite Hrun3.
      unfold CreateICmp. rewrite Hrun4. unfold CreateCondBr. cbn [block]. exact Hrun5. }
    unfold bind at 1.
    destruct (inst_type inst); try discriminate; injection Hflag as <-;
      rewrite (Hbranch true); reflexivity. }
  split; [exact Hrun|]. cbn [blocks_ builder_ set_builder registers_ fallthroughCounter_
                             errorMessage_ parent block].
  split; [by rewrite (ext_blocks _ _ _ Hall)|]. split; [done|]. split; [done|].
  split; [exact Hnext0|]. split.
  - unfold bodyAt. cbn [module_ set_builder].
    pose proof (ext_body _ _ _ Hall) as Hb. unfold body in Hb at 1.
    rewrite Hcur5 in Hb. cbn [mbind option_bind] in Hb. rewrite Hb.
    replace (body s0') with (body s) by (symmetry; exact Hbody0). done.
  - assert (registers_ s0' = registers_ s0) as Hregs0' by reflexivity.
    split; [congruence|]. split; [|by rewrite (ext_error _ _ _ Hall)].
    rewrite (ext_counter _ _ _ Hall). cbn. by rewrite Hcount0.
Qed.

(** X14.  [JMP] ends the builder's block with a branch to the block the table
    gives for its operand; lifting goes on in a block created for the
    occasion, in the same function. *)
Theorem jump_ends_the_block s inst o cur :
  inst_type inst = InstructionType.JMP ->
  operands inst = [o] ->
  builder_ s = Some cur ->
  positioned s ->
  ∃ target cont n s',
    liftJumpInstruction inst s = Normal true s'
    ∧ blocks_ s' !! op_value o = Some target
    ∧ builder_ s' = Some cont
    ∧ parent cont = parent cur
    ∧ (nextBlock (module_ s) <= block cont)%nat
    ∧ bodyAt s' cur = body s ++ [mkInst n "" (Br (block target))]
    ∧ registers_ s' = registers_ s
    ∧ fallthroughCounter_ s' = fallthroughCounter_ s.
Proof.
  intros Htype Hops Hcur Hpos.
  destruct (getOrCreateBlock_positioned (op_value o) s cur Hcur Hpos)
    as (target & s0 & Hrun0 & Htarget & Hpos0 & Hcur0 & Hbody0 & Hregs0 & Herr0
        & Hcount0 & Hnext0).
  destruct (LifterFacts.emit_spec "" (Br (block target)) s0 Hpos0)
    as (s1 & Hrun1 & Hext1 & Hregs1 & Hn1); [done|].
  pose proof (ext_positioned _ _ _ Hext1) as Hpos1.
  destruct (createBlock_spec "cont" (parent cur) s1 Hpos1)
    as (s2 & Hrun2 & Hext2 & Hregs2 & Hinst2 & Hnext2).
  pose proof (LifterFacts.extends_trans _ _ _ _ _ Hext1 Hext2) as Hall.
  cbn [app] in Hall.
  assert (builder_ s1 = Some cur) as Hcur1 by (rewrite (ext_builder _ _ _ Hext1); exact Hcur0).
  assert (builder_ s2 = Some cur) as Hcur2 by (rewrite (ext_builder _ _ _ Hall); exact Hcur0).
  assert (nextBlock (module_ s1) = nextBlock (module_ s0)) as Hsame.
  { unfold emit, bind, GetInsertBlock, insertAt in Hrun1. rewrite Hcur0 in Hrun1.
    injection Hrun1 as <-. reflexivity. }
  exists target, (mkRef (parent cur) (nextBlock (module_ s1))), (nextInst (module_ s0)),
    (set_builder (Some (mkRef (parent cur) (nextBlock (module_ s1)))) s2).
  split.
  { unfold liftJumpInstruction, operand. rewrite Hops.
    cbn [length Nat.eqb negb lookup list_lookup default id].
    unfold bind at 1. rewrite Hrun0. rewrite decide_True by done.
    unfold bind at 1, CreateBr. rewrite Hrun1.
    unfold bind at 1, insertParent, GetInsertBlock, bind at 1 2, deref.
    rewrite Hcur1. unfold ret at 1 2. cbn beta iota.
    unfold bind at 1. rewrite Hrun2. reflexivity. }
  cbn [blocks_ builder_ set_builder registers_ fallthroughCounter_ parent block].
  split; [by rewrite (ext_blocks _ _ _ Hall)|]. split; [done|]. split; [done|].
  split; [lia|]. split.
  - unfold bodyAt. cbn [module_ set_builder].
    pose proof (ext_body _ _ _ Hall) as Hb. unfold body in Hb at 1.
    rewrite Hcur2 in Hb. cbn [mbind option_bind] in Hb. rewrite Hb.
    by rewrite Hbody0.
  - split; [congruence|]. by rewrite (ext_counter _ _ _ Hall).
Qed.

(** *** On the samples *)

Lemma wellNumbered_init : wellNumbered (module_ Lifter.init).
Proof. intros f fn Hf. cbn in Hf. by rewrite lookup_nil in Hf. Qed.

(** The theorem on the loop sample, whose last block the text leaves
    open. *)
Lemma lifted_blocks_end_in_terminators_witness :
  liftToLLVM (Samples.parse Samples.loopSource) Lifter.init
  = Normal true (Samples.stateOf (Samples.lift Samples.loopSource))
  ∧ forall fn blk,
      fn ∈ functions (module_ (Samples.stateOf (Samples.lift Samples.loopSource))) ->
      blk ∈ fn_blocks fn -> terminated blk.
Proof.
  assert (liftToLLVM (Samples.parse Samples.loopSource) Lifter.init
          = Normal true (Samples.stateOf (Samples.lift Samples.loopSource))) as Hrun
    by (vm_compute; reflexivity).
  split; [exact Hrun|].
  exact (lifted_blocks_end_in_terminators _ _ _ wellNumbered_init Hrun).
Defined.

Lemma inFunction_atMain : inFunction 0 Samples.atMain.
Proof.
  unfold inFunction, tablesAgree.
  assert (blocks_ Samples.atMain = ∅) as -> by (vm_compute; reflexivity).
  assert (functions_ Samples.atMain = {[ "main" := 0%nat ]}) as ->
    by (vm_compute; reflexivity).
  split; [vm_compute; reflexivity|]. split; [vm_compute; eauto|].
  split; [apply map_Forall_empty|]. apply map_Forall_singleton. vm_compute. reflexivity.
Qed.

(** The theorem on [CMP %eax, 5] right after the label [main:]. *)
Lemma lifting_stays_in_function_witness :
  inFunction 0 Samples.atMain
  ∧ inFunction 0 (Samples.stateOf (liftInstruction Samples.cmpEaxFive 0 Samples.atMain)).
Proof.
  split; [exact inFunction_atMain|].
  apply (lifting_stays_in_function 0 Samples.cmpEaxFive 0 Samples.atMain true);
    [exact inFunction_atMain|vm_compute; reflexivity].
Defined.

(** The theorem on a [MOV] with one operand. *)
Lemma wrong_operand_count_fails_by_value_witness :
  ∃ msg,
    liftInstruction MoreSamples.movOneOperand 0 Lifter.init
    = Normal false (set_errorMessage msg Lifter.init)
    ∧ msg ≠ "".
Proof. apply wrong_operand_count_fails_by_value. reflexivity. Defined.

(** The theorem on [PUSH 5] right after the label [main:]. *)
Lemma push_stores_below_the_stack_pointer_witness :
  ∃ sp n s',
    liftStackInstruction MoreSamples.pushFive Samples.atMain = Normal true s'
    ∧ body s' = body Samples.atMain ++ pushSequence n sp (ConstantInt 5)
    ∧ registers_ s' = <["STACK_PTR" := sp]> (registers_ Samples.atMain)
    ∧ errorMessage_ s' = errorMessage_ Samples.atMain.
Proof.
  apply (push_stores_below_the_stack_pointer Samples.atMain MoreSamples.pushFive
           (Samples.imm "5") (ConstantInt 5) Samples.atMain);
    [reflexivity|reflexivity|vm_compute; reflexivity|vm_compute; eauto].
Defined.

(** The theorem on [JE done] right after the label [main:]. *)
Lemma conditional_jump_branches_on_set_flag_witness :
  ∃ target fall slot n s',
    liftJumpInstruction MoreSamples.jumpIfEqual Samples.atMain = Normal true s'
    ∧ blocks_ s' !! "done" = Some target
    ∧ builder_ s' = Some fall
    ∧ bodyAt s' (mkRef 0 0)
      = body Samples.atMain ++ jumpCode n "ZF" slot (block target) (block fall).
Proof.
  destruct (conditional_jump_branches_on_set_flag Samples.atMain MoreSamples.jumpIfEqual
              (Samples.lbl "done") "ZF" (mkRef 0 0))
    as (target & fall & slot & n & s' & H1 & H2 & H3 & _ & _ & H6 & _);
    [reflexivity|reflexivity|vm_compute; reflexivity|vm_compute; eauto|].
  exists target, fall, slot, n, s'. auto.
Defined.

(** The theorem on [JMP done] right after the label [main:]. *)
Lemma jump_ends_the_block_witness :
  ∃ target cont n s',
    liftJumpInstruction MoreSamples.jumpAlways Samples.atMain = Normal true s'
    ∧ blocks_ s' !! "done" = Some target
    ∧ builder_ s' = Some cont
    ∧ bodyAt s' (mkRef 0 0) = body Samples.atMain ++ [mkInst n "" (Br (block target))].
Proof.
  destruct (jump_ends_the_block Samples.atMain MoreSamples.jumpAlways
              (Samples.lbl "done") (mkRef 0 0))
    as (target & cont & n & s' & H1 & H2 & H3 & _ & _ & H6 & _);
    [reflexivity|reflexivity|vm_compute; reflexivity|vm_compute; eauto|].
  exists target, cont, n, s'. auto.
Defined.

End LifterExtras.

(** ** The lowerer as a whole *)

Module GeneratorExtras.
Import IR Wasm Generator GeneratorView GeneratorExtraView.
Local Open Scope gen_scope.

(** *** Local indices *)

(** X15.  [assignLocalIndex] and [getLocalIndex] agree: the index assigned to
    an instruction is the one read back for it, and assigning again, with
    whatever type, returns the same index and changes nothing.  An
    instruction that had no index gets the number of parameters and locals
    declared so far, and one local of the given type is declared for it. *)
Theorem assigned_local_is_read_back v t t' g :
  getLocalIndex (InstValue v) (snd (assignLocalIndex v t g))
  = (fst (assignLocalIndex v t g), snd (assignLocalIndex v t g))
  ∧ assignLocalIndex v t' (snd (assignLocalIndex v t g)) = assignLocalIndex v t g
  ∧ (localMap_ g !! v = None ->
     fst (assignLocalIndex v t g)
     = u32 (Z.of_nat (length (params (wasmFunc g)) + length (locals (wasmFunc g))))
     ∧ locals (wasmFunc (snd (assignLocalIndex v t g))) = locals (wasmFunc g) ++ [t]).
Proof.
  unfold assignLocalIndex, getLocalIndex, bind, get, pushLocal, modify, ret.
  destruct (localMap_ g !! v) as [idx|] eqn:Hv; cbn.
  - rewrite Hv. by repeat split.
  - rewrite lookup_insert_eq. by repeat split.
Qed.

(** *** The binary output *)

Lemma stub_same (l l' : list WasmFunction) :
  length l = length l' ->
  concat (map (fun _ => [1; 0]) l) = concat (map (fun _ => [1; 0]) l').
Proof.
  revert l'. induction l as [|x l IH]; intros [|x' l'] Hl; try done. cbn.
  f_equal. f_equal. apply IH. by injection Hl.
Qed.

Lemma stub_length (l : list WasmFunction) :
  length (concat (map (fun _ => [1; 0]) l)) = (2 * length l)%nat.
Proof.
  induction l as [|x l IH]; [done|]. cbn [map concat length app]. rewrite IH. lia.
Qed.

Lemma stub_bytes (l : list WasmFunction) :
  Forall (fun byte => 0 <= byte < 256) (concat (map (fun _ => [1; 0]) l)).
Proof.
  induction l as [|x l IH]; [constructor|]. cbn.
  repeat (apply Forall_cons; split; [lia|]). exact IH.
Qed.

(** X16.  [generateBinary] is a stub: the bytes are the magic number and the
    version, two section headers that carry the number of functions
    truncated to a byte, and two fixed bytes per function.  Nothing of the
    functions but their number reaches the binary. *)
Theorem binary_depends_on_function_count_only wm wm' :
  length (wm_functions wm) = length (wm_functions wm') ->
  generateBinary wm = generateBinary wm'
  ∧ take 8 (generateBinary wm) = [0; 97; 115; 109; 1; 0; 0; 0]
  ∧ length (generateBinary wm) = (14 + 2 * length (wm_functions wm))%nat
  ∧ Forall (fun byte => 0 <= byte < 256) (generateBinary wm).
Proof.
  intros Hlen. unfold generateBinary. rewrite <- Hlen.
  split; [by rewrite (stub_same _ _ Hlen)|]. split; [done|]. split.
  - rewrite length_app, stub_length. cbn [length]. lia.
  - assert (0 <= Z.of_nat (length (wm_functions wm)) mod 256 < 256) as Hn
      by (apply Z.mod_pos_bound; lia).
    repeat (apply Forall_cons; split; [lia|]). apply stub_bytes.
Qed.

(** *** One function for each defined function *)

Lemma header_ret {A} (a : A) : keepsHeader (ret a).
Proof. by intros g. Qed.

Lemma header_bind {A B} (c : G A) (k : A -> G B) :
  keepsHeader c -> (forall a, keepsHeader (k a)) -> keepsHeader (bind c k).
Proof.
  intros Hc Hk g. unfold bind. destruct (Hc g) as [H1 H2].
  destruct (c g) as [a g1]. cbn in *. destruct (Hk a g1) as [H3 H4].
  split; congruence.
Qed.

Lemma header_modify (f : WasmGenerator -> WasmGenerator) :
  (forall g, wasmModule_ (f g) = wasmModule_ g
             ∧ name (wasmFunc (f g)) = name (wasmFunc g)) ->
  keepsHeader (modify f).
Proof. intros Hf g. apply Hf. Qed.

Lemma header_get : keepsHeader get.
Proof. by intros g. Qed.

Lemma header_getLocalIndex v : keepsHeader (getLocalIndex v).
Proof. by intros g. Qed.

Ltac header_step :=
  lazymatch goal with
  | |- keepsHeader (ret _) => apply header_ret
  | |- keepsHeader (bind _ _) => apply header_bind; [|intros ?]
  | |- keepsHeader get => apply header_get
  | |- keepsHeader (getLocalIndex _) => apply header_getLocalIndex
  | |- keepsHeader (modify _) => apply header_modify; intros ?; by split
  | |- keepsHeader (push _) => apply header_modify; intros ?; by split
  | |- keepsHeader (pushLocal _) => apply header_modify; intros ?; by split
  | |- keepsHeader (setError _) => apply header_modify; intros ?; by split
  | |- keepsHeader (match ?x with _ => _ end) => destruct x
  | |- keepsHeader (if ?x then _ else _) => destruct x
  end.

Lemma header_assignLocalIndex v t : keepsHeader (assignLocalIndex v t).
Proof. unfold assignLocalIndex. repeat header_step. Qed.

Lemma header_convertArithmeticInstruction m inst :
  keepsHeader (convertArithmeticInstruction m inst).
Proof.
  unfold convertArithmeticInstruction, pushConstLoadInst.
  repeat (header_step || apply header_assignLocalIndex).
Qed.

Lemma header_convertCompareInstruction m inst :
  keepsHeader (convertCompareInstruction m inst).
Proof. unfold convertCompareInstruction, pushConstLoad. repeat header_step. Qed.

Lemma header_convertBranchInstruction m inst :
  keepsHeader (convertBranchInstruction m inst).
Proof. unfold convertBranchInstruction, pushLoadConst. repeat header_step. Qed.

Lemma header_convertCallInstruction inst : keepsHeader (convertCallInstruction inst).
Proof.
  unfold convertCallInstruction. destruct (i_op inst); try apply header_ret.
  apply header_bind; [|intros _; repeat header_step].
  induction args as [|arg args IH]; [apply header_ret|]. cbn [fold_right].
  destruct (asConstantInt arg); [|exact IH].
  apply header_bind; [header_step|]. intros _. exact IH.
Qed.

Ltac header_convert :=
  first
    [ header_step
    | apply header_assignLocalIndex
    | apply header_convertArithmeticInstruction
    | apply header_convertCompareInstruction
    | apply header_convertBranchInstruction ].

Lemma header_convertInstruction m inst : keepsHeader (convertInstruction m inst).
Proof.
  unfold convertInstruction.
  destruct (i_op (ir_inst inst)) eqn:Hop;
    try apply header_ret;
    try apply header_convertArithmeticInstruction;
    try apply header_convertCompareInstruction;
    try apply header_convertBranchInstruction;
    try apply header_convertCallInstruction;
    unfold convertMemoryInstruction, pushAddress, pushConstLoadInst, pushConstLoad,
      convertIntToPtrInstruction, convertPtrToIntInstruction, convertBitCastInstruction,
      convertPhiInstruction, convertReturnInstruction;
    rewrite ?Hop; repeat header_convert;
    unfold pushConstLoad; repeat header_convert.
Qed.

Lemma header_allOf {A} (l : list A) (body : A -> G bool) :
  (forall a, keepsHeader (body a)) -> keepsHeader (allOf l body).
Proof.
  intros H. induction l as [|a l IH]; [apply header_ret|]. cbn [allOf].
  apply header_bind; [apply H|]. intros [|]; [exact IH|apply header_ret].
Qed.

Lemma header_forEach {A} (l : list A) (body : A -> G unit) :
  (forall a, keepsHeader (body a)) -> keepsHeader (forEach l body).
Proof.
  intros H. induction l as [|a l IH]; [apply header_ret|]. cbn [forEach].
  apply header_bind; [apply H|]. intros _. exact IH.
Qed.

Lemma header_assignLocals l : forall k, keepsHeader (assignLocals l k).
Proof.
  induction l as [|inst l IH]; intros k; cbn [assignLocals]; [apply header_ret|].
  repeat (header_convert || apply IH).
Qed.

(** What [convertFunction] does to the module: on success one function
    more, named after the function converted; on failure nothing. *)
Lemma convertFunction_appends m func g :
  if fst (convertFunction m func g)
  then ∃ w, wasmModule_ (snd (convertFunction m func g))
            = mkWasmModule (wm_functions (wasmModule_ g) ++ [w])
                (<[fn_name func := length (wm_functions (wasmModule_ g))]>
                   (functionIndices (wasmModule_ g)))
                (memorySize (wasmModule_ g)) (memoryMaxSize (wasmModule_ g))
            ∧ name w = fn_name func
  else wasmModule_ (snd (convertFunction m func g)) = wasmModule_ g.
Proof.
  unfold convertFunction.
  set (tail := (assignAllocas func ;;
                recordBlockIndices func ;;
                assignLocals (allInsts func) 0 ;;
                allOf (fn_blocks func)
                  (fun blk => recordDepths (blockPositions func) blk ;;
                              convertBasicBlock m blk))).
  assert (keepsHeader tail) as Htail.
  { unfold tail, assignAllocas, recordBlockIndices, recordDepths, convertBasicBlock.
    repeat first
      [ apply header_forEach; intros ?
      | apply header_allOf; intros ?
      | apply header_assignLocals
      | apply header_convertInstruction
      | header_convert ]. }
  pose proof (Htail
                (set_localMap ∅
                   (set_wasmFunc
                      (mkWasmFunction (fn_name func) [] (convertLLVMType IR.I32) [] [])
                      (set_currentFunction (Some func)
                         (set_blockIndices ∅ (set_blockMap ∅ (set_localMap ∅ g)))))))
    as [Hm Hn].
  unfold tail in Hm, Hn. unfold bind, modify in *. cbn [fst snd] in *.
  destruct (assignAllocas func _) as [u1 g1].
  destruct (recordBlockIndices func g1) as [u2 g2].
  destruct (assignLocals (allInsts func) 0 g2) as [k g3].
  destruct (allOf _ _ g3) as [ok g4]. cbn [snd] in Hm, Hn.
  destruct ok; cbn [negb fst snd modify ret].
  - exists (wasmFunc g4). cbn in Hm, Hn. unfold ret. cbn. rewrite Hm. split; [|done].
    f_equal. f_equal. rewrite length_app. cbn. lia.
  - exact Hm.
Qed.

Lemma convertFunctions_append m (fs : list (FuncId * Function)) : forall g g',
  allOf fs (fun '(_, f) => convertFunction m f) g = (true, g') ->
  map name (wm_functions (wasmModule_ g'))
  = map name (wm_functions (wasmModule_ g)) ++ map (fun p => fn_name (snd p)) fs
  ∧ memorySize (wasmModule_ g') = memorySize (wasmModule_ g)
  ∧ memoryMaxSize (wasmModule_ g') = memoryMaxSize (wasmModule_ g).
Proof.
  induction fs as [|[i f] fs IH]; intros g g' Hrun; cbn [allOf] in Hrun.
  { injection Hrun as <-. by rewrite app_nil_r. }
  unfold bind in Hrun. pose proof (convertFunction_appends m f g) as Hf.
  destruct (convertFunction m f g) as [[|] g1]; [|done]. cbn [fst snd] in Hf.
  destruct Hf as (w & Hm & Hw). destruct (IH _ _ Hrun) as (Hnames & Hsize & Hmax).
  rewrite Hnames, Hsize, Hmax, Hm. cbn. rewrite map_app. cbn. rewrite Hw.
  by rewrite <- app_assoc.
Qed.

(** X17.  When [generateWasm] succeeds, the module has gained one function for
    each defined function of the IR module, in the order of the module and
    under the same names; declarations give none; the memory sizes are
    untouched. *)
Theorem lowered_functions_follow_defined_functions m g g' :
  generateWasm m g = (true, g') ->
  map name (wm_functions (wasmModule_ g'))
  = map name (wm_functions (wasmModule_ g))
    ++ map fn_name (filter (fun f => isDeclaration f = false) (functions m))
  ∧ memorySize (wasmModule_ g') = memorySize (wasmModule_ g)
  ∧ memoryMaxSize (wasmModule_ g') = memoryMaxSize (wasmModule_ g).
Proof.
  unfold generateWasm.
  set (mapping := forEach (imap (fun i '(f, _) => (i, f)) (definedFunctions m))
                    (fun '(funcIndex, f) =>
                       modify (fun g => set_functionMap
                                          (<[f := u32 (Z.of_nat funcIndex)]> (functionMap_ g))
                                          g))).
  assert (keepsHeader mapping) as Hmap
    by (apply header_forEach; intros [? ?]; header_step).
  unfold bind, modify. cbn [snd fst].
  specialize (Hmap (set_localMap ∅ (set_functionMap ∅ g))).
  destruct (mapping _) as [u g1]. cbn in Hmap. destruct Hmap as [Hm _]. intros Hrun.
  destruct (convertFunctions_append m _ _ _ Hrun) as (Hnames & Hsize & Hmax).
  rewrite Hnames, Hsize, Hmax, Hm. split; [|done]. f_equal.
  unfold definedFunctions.
  assert (forall k (l : list Function),
            map (fun p : nat * Function => fn_name p.2)
                (filter (fun '(_, f) => isDeclaration f = false)
                        (imap (fun i f => (k + i, f)%nat) l))
            = map fn_name (filter (fun f => isDeclaration f = false) l)) as H.
  { intros k l. revert k. induction l as [|f l IH]; intros k; [done|]. cbn [imap].
    rewrite !filter_cons. cbn beta iota.
    rewrite (imap_ext _ (fun i f => (S k + i, f)%nat) l)
      by (intros; cbn; f_equal; lia).
    destruct (decide (isDeclaration f = false)); cbn [map snd]; by rewrite IH. }
  rewrite <- (H 0%nat (functions m)). done.
Qed.

(** *** The text output *)

Lemma depthAfter_app d (a b : string) :
  depthAfter d (a +:+ b) = depthAfter d a ≫= fun d' => depthAfter d' b.
Proof.
  revert d. induction a as [|c a IH]; intros d; [done|].
  rewrite StringFacts.append_cons. cbn [depthAfter].
  destruct (Cpp.eqb_ascii c "("); [apply IH|].
  destruct (Cpp.eqb_ascii c ")"); [|apply IH].
  destruct d; [done|apply IH].
Qed.

Lemma through_app d d1 d2 (a b : string) :
  depthAfter d a = Some d1 -> depthAfter d1 b = Some d2 ->
  depthAfter d (a +:+ b) = Some d2.
Proof. intros Ha Hb. by rewrite depthAfter_app, Ha. Qed.

Lemma through_plain d (s : string) : plain s -> depthAfter d s = Some d.
Proof.
  unfold plain. induction s as [|c s IH]; [done|]. cbn [Cpp.all_of depthAfter].
  intros [[Ho Hc]%andb_true_iff Hs]%andb_true_iff.
  apply negb_true_iff in Ho, Hc. rewrite Ho, Hc. by apply IH.
Qed.

Lemma through_concat d (l : list string) :
  Forall (fun s => forall k, depthAfter k s = Some k) l ->
  depthAfter d (concatStrings l) = Some d.
Proof.
  induction 1 as [|s l Hs Hl IH]; [done|]. cbn [concatStrings fold_right].
  fold (concatStrings l). by eapply through_app.
Qed.

Lemma Forall_imap_any {A B} (P : B -> Prop) (l : list A) : forall (f : nat -> A -> B),
  (forall i a, P (f i a)) -> Forall P (imap f l).
Proof.
  induction l as [|a l IH]; intros f Hf; cbn [imap]; constructor; [apply Hf|].
  apply IH. intros i x. apply Hf.
Qed.

Lemma plain_uint u : plain (NilEmpty.string_of_uint u).
Proof. unfold plain. induction u; cbn; done. Qed.

Lemma plain_type t : plain (getWasmTypeString t).
Proof. by destruct t. Qed.

Lemma plain_opcode o : plain (getWasmOpcodeString o).
Proof. by destruct o. Qed.

Lemma plain_app (a b : string) : plain a -> plain b -> plain (a +:+ b).
Proof. unfold plain. intros Ha Hb. by rewrite StringFacts.all_of_append, Ha, Hb. Qed.

Lemma plain_instruction inst : plain (generateInstructionWast inst).
Proof.
  unfold generateInstructionWast. apply plain_app; [apply plain_opcode|].
  induction (wi_operands inst) as [|z l IH]; [done|]. cbn [map concatStrings fold_right].
  apply plain_app; [|exact IH]. apply plain_app; [done|apply plain_uint].
Qed.

Lemma function_text_is_balanced d func :
  plain (name func) -> depthAfter d (generateFunctionWast func) = Some d.
Proof.
  intros Hname. unfold generateFunctionWast.
  eapply through_app; [reflexivity|].
  eapply through_app; [by apply through_plain|].
  eapply through_app.
  { apply through_concat, Forall_imap_any. intros i t k.
    eapply through_app; [reflexivity|].
    eapply through_app; [apply through_plain, plain_uint|].
    eapply through_app; [reflexivity|].
    eapply through_app; [apply through_plain, plain_type|]. reflexivity. }
  eapply through_app.
  { destruct (bool_decide (returnType func = VOID)); [reflexivity|].
    eapply through_app; [reflexivity|].
    eapply through_app; [apply through_plain, plain_type|]. reflexivity. }
  eapply through_app.
  { apply through_concat, Forall_imap_any. intros i t k.
    eapply through_app; [reflexivity|].
    eapply through_app; [apply through_plain, plain_uint|].
    eapply through_app; [reflexivity|].
    eapply through_app; [apply through_plain, plain_type|]. reflexivity. }
  eapply through_app; [reflexivity|].
  eapply through_app.
  { apply through_concat, Forall_forall. intros s Hs k.
    apply list_elem_of_fmap in Hs as (inst & -> & _).
    apply through_plain. apply plain_app; [done|].
    apply plain_app; [apply plain_instruction|done]. }
  reflexivity.
Qed.

(** X18.  The text [generateWast] writes has its parentheses balanced, whatever
    the module, as long as no function name holds a parenthesis. *)
Theorem text_output_is_balanced wm :
  Forall (fun func => plain (name func)) (wm_functions wm) ->
  balanced (generateWast wm).
Proof.
  intros Hnames. unfold balanced, generateWast.
  eapply through_app; [reflexivity|].
  eapply through_app; [reflexivity|].
  eapply through_app; [reflexivity|].
  eapply through_app; [apply through_plain, plain_uint|].
  eapply through_app.
  { destruct (0 <? memoryMaxSize wm); [|reflexivity].
    apply through_plain. apply plain_app; [done|apply plain_uint]. }
  eapply through_app; [reflexivity|].
  eapply through_app; [reflexivity|].
  eapply through_app.
  { apply through_concat, Forall_forall. intros s Hs k.
    apply list_elem_of_fmap in Hs as (func & -> & Hfunc).
    rewrite Forall_forall in Hnames.
    eapply through_app; [by apply function_text_is_balanced, Hnames|]. reflexivity. }
  reflexivity.
Qed.

(** *** On the samples *)

(** The theorem on two modules of one function each. *)
Lemma binary_depends_on_function_count_only_witness :
  generateBinary MoreSamples.oneEmptyFunction
  = generateBinary MoreSamples.oneReturningFunction
  ∧ length (generateBinary MoreSamples.oneEmptyFunction) = 16%nat.
Proof.
  destruct (binary_depends_on_function_count_only
              MoreSamples.oneEmptyFunction MoreSamples.oneReturningFunction eq_refl)
    as (Hsame & _ & Hlen & _).
  split; [exact Hsame|exact Hlen].
Defined.

(** The theorem on the sample with a forward jump. *)
Lemma lowered_functions_follow_defined_functions_witness :
  map name (wm_functions
              (wasmModule_
                 (snd (generateWasm (Samples.moduleOf Samples.forwardSource)
                                    (Generator.init 1 0)))))
  = ["main"].
Proof.
  destruct (lowered_functions_follow_defined_functions
              (Samples.moduleOf Samples.forwardSource) (Generator.init 1 0)
              (snd (generateWasm (Samples.moduleOf Samples.forwardSource)
                                 (Generator.init 1 0))))
    as (Hnames & _); [vm_compute; reflexivity|].
  rewrite Hnames. vm_compute. reflexivity.
Defined.

(** The theorem on a module of one function. *)
Lemma text_output_is_balanced_witness :
  balanced (generateWast MoreSamples.oneReturningFunction).
Proof.
  apply text_output_is_balanced. repeat constructor.
Defined.

End GeneratorExtras.

(** ** The command line as a whole *)

Module DriverExtras.
Import Driver DriverView DriverExtraView StringFacts.

(** *** Output names *)

Lemma find_last_of_none c (s : string) :
  Cpp.find c s = None -> Cpp.find_last_of c s = None.
Proof.
  induction s as [|a s IH]; [done|]. cbn [Cpp.find Cpp.find_last_of].
  destruct (Cpp.eqb_ascii a c); [done|].
  destruct (Cpp.find c s); [done|]. intros _. by rewrite IH.
Qed.

Lemma find_last_of_app c (base tail : string) :
  Cpp.find c tail = None ->
  Cpp.find_last_of c (base +:+ String c tail) = Some (String.length base).
Proof.
  intros Htail. induction base as [|a base IH].
  - rewrite append_nil_l. cbn [Cpp.find_last_of String.length].
    rewrite (find_last_of_none _ _ Htail). unfold Cpp.eqb_ascii.
    by rewrite Ascii.eqb_refl.
  - rewrite append_cons. cbn [Cpp.find_last_of String.length]. by rewrite IH.
Qed.

(** X19.  [deriveOutputName] replaces what follows the last dot of the input
    name, wherever that dot is, by the extension, and appends the
    extension to a name without a dot.  The dot need not belong to the
    file name: a dot in a directory name, with none after it, is the one
    that counts. *)
Theorem derived_name_replaces_after_last_dot base tail extension :
  Cpp.find "." tail = None ->
  deriveOutputName (base +:+ "." +:+ tail) extension = base +:+ extension
  ∧ deriveOutputName tail extension = tail +:+ extension.
Proof.
  intros Htail. unfold deriveOutputName. split.
  - change ("." +:+ tail) with (String "." tail).
    by rewrite (find_last_of_app _ _ _ Htail), ParserFacts.substring_app_prefix.
  - by rewrite (find_last_of_none _ _ Htail).
Qed.

(** *** Arguments *)

Lemma positional_not_option arg :
  positional arg ->
  String.eqb arg "-h" = false ∧ String.eqb arg "--help" = false
  ∧ String.eqb arg "--wasm" = false ∧ String.eqb arg "--wast" = false
  ∧ negb (String.eqb arg "") && Cpp.eqb_ascii (Cpp.front arg) "-" = false.
Proof.
  unfold positional. intros Hfront.
  repeat split; try (apply String.eqb_neq; intros ->; by apply Hfront).
  apply andb_false_iff. right. unfold Cpp.eqb_ascii. by apply Ascii.eqb_neq.
Qed.

(** X20.  Among arguments that are no options the last one is the input file:
    the argument loop reads them all, prints nothing, and each one
    replaces the one before. *)
Theorem last_positional_argument_is_the_input programName args o w :
  Forall positional args ->
  parseArgs programName args o w
  = (inl (mkOptions (default (inputFile o) (last args)) (wasmFile o) (wastFile o)), w).
Proof.
  intros Hargs. revert o. induction Hargs as [|arg args Harg Hargs IH]; intros o.
  { by destruct o. }
  cbn [parseArgs].
  destruct (positional_not_option arg Harg) as (-> & -> & -> & -> & ->). cbn [orb].
  rewrite IH. cbn [inputFile wasmFile wastFile].
  destruct args as [|arg' args']; [done|].
  change (last (arg :: arg' :: args')) with (last (arg' :: args')).
  destruct (last (arg' :: args')) eqn:Hlast; [done|]. by apply last_None in Hlast.
Qed.

Section Run.

Variables memorySize memoryMaxSize : Z.

(** X21.  When no component fails, the run returns 0, has written each output
    asked for, the binary first and the text after it, with what
    [generateBinary] and [generateWast] give for the module lowered, and
    has printed nothing on the error stream. *)
Theorem successful_run_writes_the_outputs o w :
  firstFailure memorySize memoryMaxSize o w = None ->
  ∃ wm,
    generatedModule memorySize memoryMaxSize o w = Some wm
    ∧ fst (compile memorySize memoryMaxSize o w) = Returned 0
    ∧ files (fs (snd (compile memorySize memoryMaxSize o w)))
      = written (wastFile o) (Generator.generateWast wm)
          (written (wasmFile o) (bytesToString (Generator.generateBinary wm))
             (files (fs w)))
    ∧ stderr (snd (compile memorySize memoryMaxSize o w)) = stderr w
    ∧ last (stdout (snd (compile memorySize memoryMaxSize o w)))
      = Some "WebAssembly conversion completed.".
Proof.
  unfold firstFailure, generatedModule, Driver.compile, written.
  cbn [fs print].
  destruct (Parser.parseFile _ _ _) as [parsed parser].
  destruct parsed; cbn [negb]; [|done].
  destruct (Lifter.liftToLLVM _ _) as [[|] lifter|e]; [|done..].
  destruct (Generator.generateWasm _ _) as [generated g].
  destruct generated; cbn [negb fst]; [|done].
  unfold cannotWrite, writeWasmToFile, writeWastToFile, writeFile.
  destruct (String.eqb (wasmFile o) ""); cbn [negb andb fs print].
  - destruct (String.eqb (wastFile o) ""); cbn [negb andb fs print].
    + intros _. exists (Generator.wasmModule_ g). repeat split.
      cbn. by rewrite last_snoc.
    + destruct (bool_decide (wastFile o ∈ unwritable (fs w))); [done|].
      intros _. exists (Generator.wasmModule_ g). repeat split.
      cbn. by rewrite last_snoc.
  - destruct (bool_decide (wasmFile o ∈ unwritable (fs w))); [done|].
    cbn [negb fst snd fs print unwritable].
    destruct (String.eqb (wastFile o) ""); cbn [negb andb fs print unwritable].
    + intros _. exists (Generator.wasmModule_ g). repeat split.
      cbn. by rewrite last_snoc.
    + destruct (bool_decide (wastFile o ∈ unwritable (fs w))); [done|].
      intros _. exists (Generator.wasmModule_ g). repeat split.
      cbn. by rewrite last_snoc.
Qed.

End Run.

(** *** On the samples *)

(** The theorem on [prog.wasm] for [prog.s] and on a name without a
    dot. *)
Lemma derived_name_replaces_after_last_dot_witness :
  deriveOutputName ("prog" +:+ "." +:+ "s") ".wasm" = "prog" +:+ ".wasm"
  ∧ deriveOutputName "s" ".wasm" = "s" +:+ ".wasm".
Proof. apply derived_name_replaces_after_last_dot. reflexivity. Defined.

(** The theorem on two input files. *)
Lemma last_positional_argument_is_the_input_witness :
  parseArgs "asm2wasm" ["a.s"; "b.s"] (mkOptions "" "" "") Samples.lockedTextWorld
  = (inl (mkOptions "b.s" "" ""), Samples.lockedTextWorld).
Proof.
  apply (last_positional_argument_is_the_input "asm2wasm" ["a.s"; "b.s"]
           (mkOptions "" "" "")).
  repeat constructor; unfold positional; cbn; discriminate.
Defined.

(** The theorem on a run with both outputs named and writable. *)
Lemma successful_run_writes_the_outputs_witness :
  ∃ wm,
    generatedModule 1 0 MoreSamples.bothOutputs MoreSamples.openWorld = Some wm
    ∧ fst (compile 1 0 MoreSamples.bothOutputs MoreSamples.openWorld) = Returned 0
    ∧ files (fs (snd (compile 1 0 MoreSamples.bothOutputs MoreSamples.openWorld)))
      = written (wastFile MoreSamples.bothOutputs) (Generator.generateWast wm)
          (written (wasmFile MoreSamples.bothOutputs)
                   (bytesToString (Generator.generateBinary wm))
                   (files (fs MoreSamples.openWorld)))
    ∧ stderr (snd (compile 1 0 MoreSamples.bothOutputs MoreSamples.openWorld))
      = stderr MoreSamples.openWorld
    ∧ last (stdout (snd (compile 1 0 MoreSamples.bothOutputs MoreSamples.openWorld)))
      = Some "WebAssembly conversion completed.".
Proof.
  apply (successful_run_writes_the_outputs 1 0 MoreSamples.bothOutputs
           MoreSamples.openWorld).
  vm_compute. reflexivity.
Defined.

End DriverExtras.

(** ** The code of a lowered function, block by block *)

Module BranchCode.
Import IR Wasm Generator GeneratorView GeneratorExtraView GeneratorFacts GeneratorExtras.
Local Open Scope gen_scope.

(** *** What is added to the code *)





Lemma appends_weaken {A} (P Q : WasmInstruction -> Prop) (c : G A) :
  (forall i, P i -> Q i) -> appendsOnly P c -> appendsOnly Q c.
Proof.
  intros HPQ Hc g. destruct (Hc g) as (extra & He & HP).
  exists extra. split; [done|]. by eapply Forall_impl.
Qed.








(** *** What leaves the code and the branch depths alone *)









(** *** The positions of the blocks *)




(** *** One block *)






(** *** The blocks of a function, one after the other *)




End BranchCode.
